(** * Skeleton tree of a Postman collection built from an OpenAPI document

    Shallow embedding of
    [src/libV2/helpers/collection/generateSkeletionTreeFromOpenAPI.js]:
    the two folder strategies ([_generateTreeFromPathsV2],
    [_generateTreeFromTags]), the webhook pass
    ([_generateWebhookEndpoints]) and the exported dispatcher.

    The JavaScript code mutates one [Graph] object; here the graph is
    threaded explicitly through every callback.  Plain JavaScript objects
    are association lists kept in the order in which JavaScript enumerates
    their keys. *)

From Stdlib Require Import String Ascii List Bool Arith NArith Lia.
Import ListNotations.
Open Scope list_scope.
Open Scope string_scope.

Set Implicit Arguments.

(* ================================================================== *)
(** ** JavaScript objects used as ordered maps *)
(* ================================================================== *)

Module JsObj.

(** An object with string keys: its own enumerable properties, listed in
    enumeration order.  A well-formed object has pairwise distinct
    keys ([wf]). *)
Definition obj (V : Type) : Type := list (string * V).

Definition keys {V} (o : obj V) : list string := map fst o.

Definition wf {V} (o : obj V) : Prop := NoDup (keys o).

(** [o[k]] on own properties. *)
Fixpoint get {V} (k : string) (o : obj V) : option V :=
  match o with
  | [] => None
  | (k', v) :: o' => if String.eqb k k' then Some v else get k o'
  end.

Definition has {V} (k : string) (o : obj V) : bool :=
  match get k o with Some _ => true | None => false end.

(** Value of a decimal digit character. *)
Definition digit (c : ascii) : option N :=
  let n := N_of_ascii c in
  if (48 <=? n)%N && (n <=? 57)%N then Some (n - 48)%N else None.

Fixpoint digits (acc : N) (s : string) : option N :=
  match s with
  | EmptyString => Some acc
  | String c r =>
      match digit c with
      | Some d => digits (acc * 10 + d) r
      | None => None
      end
  end.

(** A key is an array index when it is the canonical decimal spelling of
    an integer below 2^32 - 1.  JavaScript enumerates such keys first, in
    increasing numeric order, and every other string key afterwards in
    insertion order. *)
Definition arrayIndex (k : string) : option N :=
  match k with
  | EmptyString => None
  | String c r =>
      match digit c with
      | None => None
      | Some d =>
          if (d =? 0)%N
          then match r with EmptyString => Some 0%N | _ => None end
          else match digits 0 k with
               | Some n => if (n <? 4294967295)%N then Some n else None
               | None => None
               end
      end
  end.

(** Overwrite the value of an existing own property; its position in
    the enumeration order is kept. *)
Fixpoint replace {V} (k : string) (v : V) (o : obj V) : obj V :=
  match o with
  | [] => []
  | (k', v') :: o' =>
      if String.eqb k k' then (k', v) :: o' else (k', v') :: replace k v o'
  end.

(** Add a new array-index key [k] (of value [n]) among the array-index
    keys, which sit at the front in increasing order. *)
Fixpoint insertIndex {V} (n : N) (k : string) (v : V) (o : obj V) : obj V :=
  match o with
  | [] => [(k, v)]
  | (k', v') :: o' =>
      match arrayIndex k' with
      | Some n' =>
          if (n' <? n)%N then (k', v') :: insertIndex n k v o'
          else (k, v) :: o
      | None => (k, v) :: o
      end
  end.

(** [o[k] = v]. *)
Definition set {V} (k : string) (v : V) (o : obj V) : obj V :=
  if has k o then replace k v o
  else match arrayIndex k with
       | Some n => insertIndex n k v o
       | None => (o ++ [(k, v)])%list
       end.

(** The property names every object inherits from [Object.prototype];
    all of them hold truthy values (functions, and the prototype object
    itself for [__proto__]). *)
Definition Object_prototype : list string :=
  [ "constructor"; "hasOwnProperty"; "isPrototypeOf";
    "propertyIsEnumerable"; "toLocaleString"; "toString"; "valueOf";
    "__proto__"; "__defineGetter__"; "__defineSetter__";
    "__lookupGetter__"; "__lookupSetter__" ].

(** A lookup [o[k]] that misses the own keys of an object literal [o]
    goes on in [Object.prototype]. *)
Definition inherited (k : string) : bool :=
  existsb (String.eqb k) Object_prototype.

(** [o[k] = v] for a [v] that is a string or [undefined]: the key
    [__proto__] reaches the setter inherited from [Object.prototype],
    which ignores such a value and defines no own property. *)
Definition assign {V} (k : string) (v : V) (o : obj V) : obj V :=
  if String.eqb k "__proto__" then o else set k v o.

(** [_.isEmpty] on an object or an array. *)
Definition isEmpty {A} (l : list A) : bool :=
  match l with [] => true | _ => false end.

End JsObj.

Import JsObj.

(** [_.forEach(array, callback)] with a callback that never returns
    [false]: the callback runs on every element, left to right, on the
    state left by the previous call. *)
Definition forEach {A St : Type} (l : list A) (f : A -> St -> St) (s : St)
    : St :=
  fold_left (fun acc x => f x acc) l s.

(** [_.forEach(array, function (x, index) ...)], counting from [i]. *)
Fixpoint forEachIdx {A St : Type} (l : list A) (i : nat)
    (f : A -> nat -> St -> St) (s : St) : St :=
  match l with
  | [] => s
  | x :: l' => forEachIdx l' (S i) f (f x i s)
  end.

(** [_.forEach(object, function (value, key) ...)]. *)
Definition forOwn {V St : Type} (o : obj V) (f : V -> string -> St -> St)
    (s : St) : St :=
  forEach o (fun kv => f (snd kv) (fst kv)) s.

(* ================================================================== *)
(** ** Strings: [split], [_.compact], [join] *)
(* ================================================================== *)

(** [s.split(sep)] for a one-character separator: never empty,
    [''.split('/')] is [['']]. *)
Fixpoint split (sep : ascii) (s : string) : list string :=
  match s with
  | EmptyString => [EmptyString]
  | String c r =>
      if Ascii.eqb c sep then EmptyString :: split sep r
      else match split sep r with
           | h :: t => String c h :: t
           | [] => [String c EmptyString]
           end
  end.

(** [_.compact] on an array of strings drops the empty ones. *)
Definition compact (l : list string) : list string :=
  filter (fun s => negb (String.eqb s "")) l.

(** [array.join('/')]. *)
Definition join (l : list string) : string := String.concat "/" l.

(** [array.slice(0, n)]. *)
Definition slice0 {A} (n : nat) (l : list A) : list A := firstn n l.

(* ================================================================== *)
(** ** The node/edge store *)
(* ================================================================== *)

(** The values the source stores under [meta] and in [tagDescMap]: a
    string, [undefined], or the property of [Object.prototype] of the
    given name, which is what a lookup returns when it misses the own
    keys and finds the name there. *)
Inductive Value : Type :=
| Undefined
| Str (s : string)
| Inherited (property : string).

(** A node value as written by the source:
    [{ type: ..., meta: {...}, data: {} }]. *)
Record Label : Type := {
  type : string;
  meta : obj Value;
  data : obj Value
}.

(** The calls the source makes on the graph. *)
Inductive Call : Type :=
| SetNode (v : string) (value : Label)
| SetEdge (v w : string).

(** Modelled from the spec: the Node/Edge Store of section 4.1.  The
    source takes it from the [graphlib] package ([new Graph()], directed,
    no multi-edges), which is a dependency and not part of the sources.
    [_nodes] maps a node identifier to its value, in the order in which
    [graph.nodes()] lists them ([None] is the [undefined] value of a node
    that was never given one);
    [_edges] lists the ordered pairs (parent, child) in insertion order.
    [_calls] is a history kept for the proofs only: every [setNode] and
    [setEdge] call made so far, oldest first, each with a flag telling
    whether its identifier (its pair) was already in the store when the
    call was made.  Nothing in the program reads it. *)
Record Graph : Type := {
  _nodes : obj (option Label);
  _edges : list (string * string);
  _calls : list (Call * bool)
}.

Definition new_Graph : Graph :=
  {| _nodes := []; _edges := []; _calls := [] |}.

Definition hasNode (v : string) (g : Graph) : bool := has v (_nodes g).

Definition edge_eqb (e1 e2 : string * string) : bool :=
  String.eqb (fst e1) (fst e2) && String.eqb (snd e1) (snd e2).

Definition hasEdge (v w : string) (g : Graph) : bool :=
  existsb (edge_eqb (v, w)) (_edges g).

(** [setNode(v, value)]: creates the node or overwrites its value. *)
Definition setNode (v : string) (value : Label) (g : Graph) : Graph :=
  {| _nodes := set v (Some value) (_nodes g);
     _edges := _edges g;
     _calls := (_calls g ++ [(SetNode v value, hasNode v g)])%list |}.

(** [setNode(v)] without a value, as [setEdge] calls it on both ends of a
    new edge: creates the node with no value when it is missing and leaves
    an existing node alone. *)
Definition ensureNode (v : string) (nodes : obj (option Label))
    : obj (option Label) :=
  if has v nodes then nodes else set v None nodes.

(** [setEdge(v, w)]: a second call on the same pair changes nothing; a new
    edge first makes sure that both ends are nodes. *)
Definition setEdge (v w : string) (g : Graph) : Graph :=
  {| _nodes := if hasEdge v w g then _nodes g
               else ensureNode w (ensureNode v (_nodes g));
     _edges := if hasEdge v w g then _edges g
               else (_edges g ++ [(v, w)])%list;
     _calls := (_calls g ++ [(SetEdge v w, hasEdge v w g)])%list |}.

(** [graph.node(v)]. *)
Definition node (v : string) (g : Graph) : option Label :=
  match get v (_nodes g) with
  | Some l => l
  | None => None
  end.

(** [graph.nodes()]: the identifiers in iteration order. *)
Definition nodes (g : Graph) : list string := keys (_nodes g).

(** [graph.edges()]. *)
Definition edges (g : Graph) : list (string * string) := _edges g.

(* ================================================================== *)
(** ** Input: the parts of the OpenAPI document the source reads *)
(* ================================================================== *)

(** An operation object; only [deprecated] (read for its truthiness) and
    [tags] (missing or empty is [[]]) are read. *)
Record Operation : Type := {
  deprecated : bool;
  op_tags : list string
}.

(** An entry of [openapi.tags]; [description] is a string or missing. *)
Record TagObject : Type := {
  name : string;
  description : option string
}.

(** [data.description] as a value. *)
Definition description_value (data : TagObject) : Value :=
  match description data with
  | Some s => Str s
  | None => Undefined
  end.

(** [openapi.paths], [openapi.tags] (missing is [[]]) and
    [openapi.webhooks] (missing is [[]]). *)
Record OpenAPI : Type := {
  paths : obj (obj Operation);
  tags : list TagObject;
  webhooks : obj (obj Operation)
}.

(** The second argument of the exported function.  [folderStrategy] is
    compared with [===] in a [switch]; [None] is [undefined]. *)
Record Options : Type := {
  folderStrategy : option string;
  includeWebhooks : bool;
  includeDeprecated : bool
}.

(* ================================================================== *)
(** ** Constants *)
(* ================================================================== *)

Definition PATH_WEBHOOK : string := "path~webhook".

Definition ALLOWED_HTTP_METHODS : obj bool :=
  [ ("get", true); ("head", true); ("post", true); ("put", true);
    ("patch", true); ("delete", true); ("connect", true);
    ("options", true); ("trace", true) ].

(** Truthiness of [ALLOWED_HTTP_METHODS[method]].  The table is an
    object literal: a method that is not one of its own keys is still
    found when it names an inherited property. *)
Definition allowed (method : string) : bool :=
  match get method ALLOWED_HTTP_METHODS with
  | Some b => b
  | None => inherited method
  end.

(* ================================================================== *)
(** ** Path strategy: [_generateTreeFromPathsV2] *)
(* ================================================================== *)

Definition root_value : Label :=
  {| type := "collection"; meta := []; data := [] |}.

(** The folder value written at lines 88-96, 144-152 and 177-185. *)
Definition path_folder (path pathIdentifier : string) : Label :=
  {| type := "folder";
     meta := [ ("name", Str path); ("path", Str path);
               ("pathIdentifier", Str pathIdentifier) ];
     data := [] |}.

(** The request value written at lines 101-109 and 158-166. *)
Definition path_request (completePath method pathIdentifier : string)
    : Label :=
  {| type := "request";
     meta := [ ("path", Str completePath); ("method", Str method);
               ("pathIdentifier", Str pathIdentifier) ];
     data := [] |}.

(** Lines 74-112: the callback run on every key of the path item of a
    path with exactly one segment. *)
Definition pathsV2_single_method (includeDeprecated : bool)
    (completePath : string) (pathSplit : list string)
    (data : Operation) (method : string) (tree : Graph) : Graph :=
  let p0 := nth 0 pathSplit "" in
  if negb (allowed method) then tree
  else if negb includeDeprecated && deprecated data then tree
  else
    let tree :=
      if negb (hasNode ("path:folder:" ++ p0) tree) then
        let tree := setNode ("path:folder:" ++ p0) (path_folder p0 p0) tree in
        setEdge "root:collection" ("path:folder:" ++ p0) tree
      else tree in
    let tree :=
      setNode ("path:request:" ++ p0 ++ ":" ++ method)
              (path_request completePath method p0) tree in
    setEdge ("path:folder:" ++ p0) ("path:request:" ++ p0 ++ ":" ++ method)
            tree.

(** Lines 123-169: the callback run on every key of the path item when
    the walk over the segments is at the last one. *)
Definition pathsV2_last_method (includeDeprecated : bool)
    (completePath : string) (path : string) (index : nat)
    (previousPathIdentified pathIdentifier : string)
    (data : Operation) (method : string) (tree : Graph) : Graph :=
  if negb (allowed method) then tree
  else if negb includeDeprecated && deprecated data then tree
  else
    let tree :=
      if negb (hasNode ("path:folder:" ++ pathIdentifier) tree) then
        let tree :=
          setNode ("path:folder:" ++ pathIdentifier)
                  (path_folder path pathIdentifier) tree in
        setEdge (if Nat.eqb index 0 then "root:collection"
                 else "path:folder:" ++ previousPathIdentified)
                ("path:folder:" ++ pathIdentifier) tree
      else tree in
    let tree :=
      setNode ("path:request:" ++ pathIdentifier ++ ":" ++ method)
              (path_request completePath method pathIdentifier) tree in
    setEdge ("path:folder:" ++ pathIdentifier)
            ("path:request:" ++ pathIdentifier ++ ":" ++ method) tree.

(** Lines 116-192: the callback run on every segment (with its index) of
    a path that does not have exactly one segment. *)
Definition pathsV2_segment (openapi : OpenAPI) (includeDeprecated : bool)
    (completePath : string) (pathSplit : list string)
    (path : string) (index : nat) (tree : Graph) : Graph :=
  let previousPathIdentified := join (slice0 index pathSplit) in
  let pathIdentifier := join (slice0 (index + 1) pathSplit) in
  if Nat.eqb (index + 1) (length pathSplit) then
    match get completePath (paths openapi) with
    | Some methods =>
        forOwn methods
          (pathsV2_last_method includeDeprecated completePath path index
             previousPathIdentified pathIdentifier) tree
    | None => tree
    end
  else
    let fromNode := if Nat.eqb index 0 then "root:collection"
                    else "path:folder:" ++ previousPathIdentified in
    let toNode := "path:folder:" ++ pathIdentifier in
    let tree :=
      if negb (hasNode toNode tree)
      then setNode toNode (path_folder path pathIdentifier) tree
      else tree in
    if negb (hasEdge fromNode toNode tree)
    then setEdge fromNode toNode tree
    else tree.

(** Line 60. *)
Definition pathSplit_of (completePath : string) : list string :=
  if String.eqb completePath "/" then [completePath]
  else compact (split "/" completePath).

(** Lines 59-194: the callback run on every key of [openapi.paths]. *)
Definition pathsV2_path (openapi : OpenAPI) (includeDeprecated : bool)
    (completePath : string) (tree : Graph) : Graph :=
  let pathSplit := pathSplit_of completePath in
  if Nat.eqb (length pathSplit) 1 then
    match get completePath (paths openapi) with
    | Some methods =>
        forOwn methods
          (pathsV2_single_method includeDeprecated completePath pathSplit)
          tree
    | None => tree
    end
  else
    forEachIdx pathSplit 0
      (pathsV2_segment openapi includeDeprecated completePath pathSplit)
      tree.

Definition _generateTreeFromPathsV2 (openapi : OpenAPI)
    (includeDeprecated : bool) : Graph :=
  let tree := new_Graph in
  let tree := setNode "root:collection" root_value tree in
  let paths := keys (paths openapi) in
  if isEmpty paths then tree
  else forEach paths (pathsV2_path openapi includeDeprecated) tree.

(* ================================================================== *)
(** ** Tag strategy: [_generateTreeFromTags] *)
(* ================================================================== *)

(** Lines 357-361: [_.reduce(openapi.tags, ..., {})]. *)
Definition tagDescMap_of (tags : list TagObject) : obj Value :=
  fold_left (fun acc data => assign (name data) (description_value data) acc)
            tags [].

(** [tagDescMap[tag]]. *)
Definition tagDesc (tagDescMap : obj Value) (tag : string) : Value :=
  match get tag tagDescMap with
  | Some d => d
  | None => if inherited tag then Inherited tag else Undefined
  end.

(** The folder value written at lines 380-388 ([path] is [''] there) and
    425-433. *)
Definition tag_folder (path tag : string) (desc : Value) : Label :=
  {| type := "folder";
     meta := [ ("path", Str path); ("name", Str tag);
               ("description", desc) ];
     data := [] |}.

(** The request value written at lines 413-421. *)
Definition tag_request (tag path method : string) : Label :=
  {| type := "request";
     meta := [ ("tag", Str tag); ("path", Str path);
               ("method", Str method) ];
     data := [] |}.

(** The request value written at lines 443-450. *)
Definition untagged_request (path method : string) : Label :=
  {| type := "request";
     meta := [ ("path", Str path); ("method", Str method) ];
     data := [] |}.

(** Lines 372-391: the callback run on every key of [tagDescMap]. *)
Definition tags_folder (tagDescMap : obj Value)
    (desc : Value) (tag : string) (tree : Graph) : Graph :=
  if hasNode ("path:" ++ tag) tree then tree
  else
    let tree :=
      setNode ("path:" ++ tag) (tag_folder "" tag (tagDesc tagDescMap tag))
              tree in
    setEdge "root:collection" ("path:" ++ tag) tree.

(** Lines 412-439: the callback run on every tag of an operation. *)
Definition tags_tag (tagDescMap : obj Value)
    (path method : string) (tag : string) (tree : Graph) : Graph :=
  let tree :=
    setNode ("path:" ++ tag ++ ":" ++ path ++ ":" ++ method)
            (tag_request tag path method) tree in
  let tree :=
    if negb (hasNode ("path:" ++ tag) tree) then
      let tree :=
        setNode ("path:" ++ tag)
                (tag_folder path tag (tagDesc tagDescMap tag)) tree in
      setEdge "root:collection" ("path:" ++ tag) tree
    else tree in
  setEdge ("path:" ++ tag) ("path:" ++ tag ++ ":" ++ path ++ ":" ++ method)
          tree.

(** Lines 394-454: the callback run on every key of a path item. *)
Definition tags_method (tagDescMap : obj Value)
    (includeDeprecated : bool) (path : string)
    (data : Operation) (method : string) (tree : Graph) : Graph :=
  if negb (allowed method) then tree
  else if negb includeDeprecated && deprecated data then tree
  else if negb (isEmpty (op_tags data)) then
    forEach (op_tags data) (tags_tag tagDescMap path method) tree
  else
    let tree :=
      setNode ("path:" ++ path ++ ":" ++ method)
              (untagged_request path method) tree in
    setEdge "root:collection" ("path:" ++ path ++ ":" ++ method) tree.

Definition _generateTreeFromTags (openapi : OpenAPI)
    (includeDeprecated : bool) : Graph :=
  let tree := new_Graph in
  let tagDescMap := tagDescMap_of (tags openapi) in
  let tree := setNode "root:collection" root_value tree in
  let tree := forOwn tagDescMap (tags_folder tagDescMap) tree in
  forOwn (paths openapi)
    (fun methods path =>
       forOwn methods (tags_method tagDescMap includeDeprecated path))
    tree.

(* ================================================================== *)
(** ** Webhooks: [_generateWebhookEndpoints] *)
(* ================================================================== *)

Definition webhook_folder : Label :=
  {| type := "webhook~folder";
     meta := [ ("path", Str "webhook~folder");
               ("name", Str "webhook~folder");
               ("description", Str "") ];
     data := [] |}.

Definition webhook_request (path method : string) : Label :=
  {| type := "webhook~request";
     meta := [ ("path", Str path); ("method", Str method) ];
     data := [] |}.

(** Lines 491-507: the callback run on every key of a webhook item. *)
Definition webhook_method (includeDeprecated : bool) (path : string)
    (data : Operation) (method : string) (tree : Graph) : Graph :=
  if negb includeDeprecated && deprecated data then tree
  else
    let tree :=
      setNode (PATH_WEBHOOK ++ ":" ++ path ++ ":" ++ method)
              (webhook_request path method) tree in
    setEdge (PATH_WEBHOOK ++ ":folder")
            (PATH_WEBHOOK ++ ":" ++ path ++ ":" ++ method) tree.

Definition _generateWebhookEndpoints (openapi : OpenAPI) (tree : Graph)
    (includeDeprecated : bool) : Graph :=
  let tree :=
    if negb (isEmpty (webhooks openapi)) then
      let tree := setNode (PATH_WEBHOOK ++ ":folder") webhook_folder tree in
      setEdge "root:collection" (PATH_WEBHOOK ++ ":folder") tree
    else tree in
  forOwn (webhooks openapi)
    (fun methodData path =>
       forOwn methodData (webhook_method includeDeprecated path))
    tree.

(* ================================================================== *)
(** ** The exported function *)
(* ================================================================== *)

(** What a call of the exported function ends in: the tree it returns,
    or the [Error] it throws together with the graph calls made before
    the [throw]. *)
Inductive Outcome : Type :=
| Returned (skeletonTree : Graph)
| Thrown (message : string) (made : list (Call * bool)).

Definition module_exports (openapi : OpenAPI) (options : Options)
    : Outcome :=
  let strategy (s : string) : option Graph :=
    if String.eqb s "tags"
    then Some (_generateTreeFromTags openapi (includeDeprecated options))
    else if String.eqb s "paths"
    then Some (_generateTreeFromPathsV2 openapi (includeDeprecated options))
    else None in
  match match folderStrategy options with
        | Some s => strategy s
        | None => None
        end with
  | None =>
      Thrown "generateSkeletonTreeFromOpenAPI~folderStrategy not valid" []
  | Some skeletonTree =>
      let skeletonTree :=
        if includeWebhooks options
        then _generateWebhookEndpoints openapi skeletonTree
               (includeDeprecated options)
        else skeletonTree in
      Returned skeletonTree
  end.

(* ================================================================== *)
(** ** Vocabulary of the statements *)
(* ================================================================== *)

(** Node identifiers are pairwise distinct, edges too, and both ends
    of every edge are nodes. *)
Record store_ok (g : Graph) : Prop := {
  ok_nodes : NoDup (nodes g);
  ok_edges : NoDup (edges g);
  ok_ends : forall v w, In (v, w) (edges g) ->
                        hasNode v g = true /\ hasNode w g = true
}.

(** The two filters at the head of the per-operation callbacks of the
    folder strategies, as one test: [true] when the callback goes on. *)
Definition kept (includeDeprecated : bool) (method : string)
    (data : Operation) : bool :=
  allowed method && (includeDeprecated || negb (deprecated data)).

(** The nine HTTP methods, the own keys of [ALLOWED_HTTP_METHODS]. *)
Definition http_methods : list string := keys ALLOWED_HTTP_METHODS.

(** *** Identifiers of the path strategy *)

(** Folder of the path prefix made of the segments [s]. *)
Definition folderId (s : list string) : string := "path:folder:" ++ join s.

(** Request of method [method] on the path made of the segments [s]. *)
Definition requestId (s : list string) (method : string) : string :=
  "path:request:" ++ join s ++ ":" ++ method.

(** Where the folder of [s] hangs: the root for a one-segment prefix,
    the folder of the prefix without its last segment otherwise. *)
Definition parentId (s : list string) : string :=
  match removelast s with
  | [] => "root:collection"
  | s' => folderId s'
  end.

Fixpoint slashfree (s : string) : bool :=
  match s with
  | EmptyString => true
  | String c r => negb (Ascii.eqb c "/") && slashfree r
  end.

(** A segment as [pathSplit_of] produces them away from the path [/]. *)
Definition segment (s : string) : bool :=
  negb (String.eqb s "") && slashfree s.

(** The segment lists the path strategy builds identifiers from: not
    empty, and either the special [["/"]] or made of segments. *)
Definition segments (s : list string) : Prop :=
  s <> [] /\ (s = ["/"] \/ forallb segment s = true).

(** [s] starts [l]. *)
Definition prefix_of (s l : list string) : Prop := exists r, l = (s ++ r)%list.

(** *** Tags *)

(** The character [c] occurs in [s]. *)
Fixpoint mentions (c : ascii) (s : string) : bool :=
  match s with
  | EmptyString => false
  | String c' r => Ascii.eqb c' c || mentions c r
  end.

(** The last entry of [openapi.tags] named [tag], if any. *)
Fixpoint last_named (tag : string) (tags : list TagObject)
    : option TagObject :=
  match tags with
  | [] => None
  | data :: rest =>
      match last_named tag rest with
      | Some data' => Some data'
      | None => if String.eqb (name data) tag then Some data else None
      end
  end.

(** The description of the last entry of [openapi.tags] named [tag]
    ([undefined] when there is none, or when it has no description). *)
Definition last_description (tag : string) (tags : list TagObject)
    : Value :=
  match last_named tag tags with
  | Some data => description_value data
  | None => Undefined
  end.

(** *** Kinds of node values *)

Definition request_type (l : Label) : bool :=
  String.eqb (type l) "request" || String.eqb (type l) "webhook~request".

(** The node [w] holds a request value. *)
Definition is_request (w : string) (g : Graph) : Prop :=
  exists l, node w g = Some l /\ request_type l = true.

(** *** Sequences of calls *)

(** [steps ok g g']: [g'] comes from [g] by a sequence of [setNode] and
    [setEdge] calls, each of which satisfies [ok] in the state in which
    it is made. *)
Inductive steps (ok : Graph -> Call -> Prop) (g : Graph) : Graph -> Prop :=
| steps_refl : steps ok g g
| steps_node g' v l :
    steps ok g g' -> ok g' (SetNode v l) -> steps ok g (setNode v l g')
| steps_edge g' v w :
    steps ok g g' -> ok g' (SetEdge v w) -> steps ok g (setEdge v w g').

(** The discipline all three passes follow: a node is written over an
    existing identifier only with a request value; an edge is set between
    existing nodes, and set again only towards a request node. *)
Definition discipline (g : Graph) (c : Call) : Prop :=
  match c with
  | SetNode v l => request_type l = true \/ hasNode v g = false
  | SetEdge v w =>
      hasNode v g = true /\ hasNode w g = true /\
      (hasEdge v w g = false \/ is_request w g)
  end.

(** The calls of the path strategy. *)
Definition paths_ok (g : Graph) (c : Call) : Prop :=
  match c with
  | SetNode v l =>
      (exists s, segments s /\ v = folderId s /\
                 l = path_folder (last s "") (join s) /\
                 hasNode v g = false) \/
      (exists s completePath method,
          segments s /\ allowed method = true /\ v = requestId s method /\
          l = path_request completePath method (join s))
  | SetEdge v w =>
      hasNode v g = true /\ hasNode w g = true /\
      ((exists s, segments s /\ w = folderId s /\ v = parentId s /\
                  hasEdge v w g = false) \/
       (exists s method, segments s /\ w = requestId s method /\
                         v = folderId s /\ is_request w g))
  end.

(** The calls of the tag strategy, for a given [tagDescMap]. *)
Definition tags_ok (tagDescMap : obj Value) (g : Graph) (c : Call)
    : Prop :=
  match c with
  | SetNode v l =>
      (exists tag path, v = "path:" ++ tag /\
                        l = tag_folder path tag (tagDesc tagDescMap tag) /\
                        hasNode v g = false) \/
      (exists r, v = "path:" ++ r /\ mentions ":" r = true /\
                 type l = "request")
  | SetEdge v w =>
      hasNode v g = true /\ hasNode w g = true /\
      (hasEdge v w g = false \/ is_request w g)
  end.

(** Identifiers of the folder strategies: the root, or [path:] followed
    by something. *)
Definition base_id (v : string) : Prop :=
  v = "root:collection" \/ exists r, v = "path:" ++ r.

(** Calls that only write identifiers of the folder strategies and only
    link existing nodes. *)
Definition base_ok (g : Graph) (c : Call) : Prop :=
  match c with
  | SetNode v _ => base_id v
  | SetEdge v w => hasNode v g = true /\ hasNode w g = true
  end.

(** *** The history of calls *)

(** The history entries for node [v]. *)
Definition setNode_calls (v : string) (calls : list (Call * bool))
    : list (Call * bool) :=
  filter (fun c => match fst c with
                   | SetNode v' _ => String.eqb v' v
                   | SetEdge _ _ => false
                   end) calls.

(** The edges that end in [w]. *)
Definition edges_into (w : string) (g : Graph) : list (string * string) :=
  filter (fun e => String.eqb (snd e) w) (edges g).

(** Identifiers of the [setNode] calls that met their identifier absent
    from the tree, oldest first. *)
Definition created_nodes (calls : list (Call * bool)) : list string :=
  flat_map (fun c => match c with
                     | (SetNode v _, false) => [v]
                     | _ => []
                     end) calls.

(** Pairs of the [setEdge] calls that met their pair absent from the
    tree, oldest first. *)
Definition created_edges (calls : list (Call * bool))
    : list (string * string) :=
  flat_map (fun c => match c with
                     | (SetEdge v w, false) => [(v, w)]
                     | _ => []
                     end) calls.

(** *** Documents with operations changed or removed *)

Definition map_item (f : Operation -> Operation) (item : obj Operation)
    : obj Operation :=
  map (fun kv => (fst kv, f (snd kv))) item.

Definition filter_item (keep : string -> Operation -> bool)
    (item : obj Operation) : obj Operation :=
  filter (fun kv => keep (fst kv) (snd kv)) item.

Definition on_items (f : obj Operation -> obj Operation)
    (o : obj (obj Operation)) : obj (obj Operation) :=
  map (fun pi => (fst pi, f (snd pi))) o.

(** The document with [f] applied to every path item. *)
Definition on_paths (f : obj Operation -> obj Operation) (openapi : OpenAPI)
    : OpenAPI :=
  {| paths := on_items f (paths openapi);
     tags := tags openapi;
     webhooks := webhooks openapi |}.

(** The document with [f] applied to every path item and every webhook
    item. *)
Definition on_operations (f : obj Operation -> obj Operation)
    (openapi : OpenAPI) : OpenAPI :=
  {| paths := on_items f (paths openapi);
     tags := tags openapi;
     webhooks := on_items f (webhooks openapi) |}.

(** The same operation, not deprecated. *)
Definition undeprecate (data : Operation) : Operation :=
  {| deprecated := false; op_tags := op_tags data |}.

(** *** The webhook pass *)

(** Identifier of the request node of a webhook operation. *)
Definition webhookId (path method : string) : string :=
  PATH_WEBHOOK ++ ":" ++ path ++ ":" ++ method.

(** The webhook operations that pass the deprecation test, as pairs
    (webhook name, key), in the order in which the webhook pass meets
    them. *)
Definition webhook_operations (includeDeprecated : bool)
    (webhooks : obj (obj Operation)) : list (string * string) :=
  flat_map
    (fun entry =>
       map (fun kv => (fst entry, fst kv))
           (filter (fun kv => includeDeprecated || negb (deprecated (snd kv)))
                   (snd entry)))
    webhooks.

(** Identifier of the webhook folder. *)
Definition webhookFolderId : string := PATH_WEBHOOK ++ ":folder".

(** The two calls of lines 500-506, for the webhook operation
    [(path, method)]. *)
Definition webhook_add (op : string * string) (tree : Graph) : Graph :=
  setEdge webhookFolderId (webhookId (fst op) (snd op))
    (setNode (webhookId (fst op) (snd op))
       (webhook_request (fst op) (snd op)) tree).


(* ================================================================== *)
(** ** Vocabulary of the further properties *)
(* ================================================================== *)

Unset Implicit Arguments.

(** [s] is made of slashes only. *)
Fixpoint only_slashes (s : string) : bool :=
  match s with
  | EmptyString => true
  | String c r => Ascii.eqb c "/" && only_slashes r
  end.

(** *** Shape of the tree *)

(** [v] can be reached from the root along edges of [g]. *)
Inductive reachable (g : Graph) : string -> Prop :=
| reach_root : reachable g "root:collection"
| reach_edge u v : reachable g u -> In (u, v) (edges g) -> reachable g v.

(** Every node of [g] can be reached from the root, apart from those
    listed in [X] (the nodes written whose edge is still to come). *)
Definition reachable_but (X : list string) (g : Graph) : Prop :=
  forall v, hasNode v g = true -> In v X \/ reachable g v.

Set Implicit Arguments.

(** What holds of the tree between two blocks of calls ([X] empty) and
    inside a block: the store is in order, the root holds its value and
    is the first node listed, every node holds a value allowed by [Q],
    every edge is allowed by [E], every node not in [X] is reached from
    the root. *)
Record tree_inv (Q : string -> Label -> Prop) (E : string -> string -> Prop)
    (X : list string) (g : Graph) : Prop := {
  inv_store : store_ok g;
  inv_root : node "root:collection" g = Some root_value;
  inv_first : hd_error (nodes g) = Some "root:collection";
  inv_nodes : forall v, hasNode v g = true ->
                        exists l, node v g = Some l /\ Q v l;
  inv_edges : forall u v, In (u, v) (edges g) -> E u v;
  inv_reach : reachable_but X g
}.

Unset Implicit Arguments.

(** Every node of [g] is a node of [g'] and every edge an edge,
    [graph.nodes()] lists the nodes of [g] first, in the same order, and
    a node that holds a request value holds one still. *)
Definition grows (g g' : Graph) : Prop :=
  (forall v, hasNode v g = true -> hasNode v g' = true) /\
  (forall u v, hasEdge u v g = true -> hasEdge u v g' = true) /\
  (exists rest, nodes g' = (nodes g ++ rest)%list) /\
  (forall v, is_request v g -> is_request v g').

(** *** Nodes and edges of the path strategy *)

(** The declared path [p] has an operation that passes both filters. *)
Definition has_kept (openapi : OpenAPI) (incl : bool) (p : string)
    (method : string) : Prop :=
  exists item data,
    get p (paths openapi) = Some item /\ In (method, data) item /\
    kept incl method data = true.

(** The nodes the path strategy can leave, with their values: the root;
    the folder of a non-empty prefix of the segments of a declared path
    (of all the segments only if the path has an operation that passes
    the filters); the request of such an operation. *)
Definition paths_node (openapi : OpenAPI) (incl : bool) (v : string)
    (l : Label) : Prop :=
  (v = "root:collection" /\ l = root_value) \/
  (exists p k,
      In p (keys (paths openapi)) /\
      1 <= k /\ k <= List.length (pathSplit_of p) /\
      (k = List.length (pathSplit_of p) ->
       exists method, has_kept openapi incl p method) /\
      v = folderId (firstn k (pathSplit_of p)) /\
      l = path_folder (last (firstn k (pathSplit_of p)) "")
                      (join (firstn k (pathSplit_of p)))) \/
  (exists p method,
      has_kept openapi incl p method /\ pathSplit_of p <> [] /\
      v = requestId (pathSplit_of p) method /\
      l = path_request p method (join (pathSplit_of p))).

(** The edges the path strategy can leave: into a folder from its
    parent, into a request from the folder of its path. *)
Definition paths_edge (u v : string) : Prop :=
  (exists s, segments s /\ v = folderId s /\ u = parentId s) \/
  (exists s method, segments s /\ allowed method = true /\
                    v = requestId s method /\ u = folderId s).

(** The request of [method] on the path of segments [s] is in place:
    its node, the folder of [s], and the edges into both. *)
Definition paths_present (s : list string) (method : string) (g : Graph)
    : Prop :=
  hasNode (folderId s) g = true /\
  hasNode (requestId s method) g = true /\
  hasEdge (parentId s) (folderId s) g = true /\
  hasEdge (folderId s) (requestId s method) g = true.

(** *** A small document *)

(** Two paths that share the prefix [/pets]; the second has a deprecated
    operation and a key that is not a method. *)
Definition pets_document : OpenAPI :=
  {| paths :=
       [ ("/pets", [ ("get", {| deprecated := false;
                                op_tags := ["pets"] |});
                     ("post", {| deprecated := false;
                                 op_tags := ["pets"; "admin"] |}) ]);
         ("/pets/{id}/photo",
          [ ("get", {| deprecated := false; op_tags := [] |});
            ("delete", {| deprecated := true; op_tags := ["admin"] |});
            ("parameters", {| deprecated := false; op_tags := [] |}) ]) ];
     tags := [ {| name := "pets"; description := Some "Everything pets" |};
               {| name := "store"; description := None |} ];
     webhooks :=
       [ ("newPet", [ ("post", {| deprecated := false;
                                  op_tags := [] |}) ]) ] |}.

(** *** Nodes and edges of the tag strategy *)

(** The operation [data] under the key [method] of an entry of
    [openapi.paths] with key [path] passes both filters. *)
Definition tag_kept (openapi : OpenAPI) (incl : bool)
    (path method : string) (data : Operation) : Prop :=
  exists item,
    In (path, item) (paths openapi) /\ In (method, data) item /\
    kept incl method data = true.

(** Identifiers of the tag strategy. *)
Definition tagFolderId (tag : string) : string := "path:" ++ tag.

Definition tagRequestId (tag path method : string) : string :=
  "path:" ++ tag ++ ":" ++ path ++ ":" ++ method.

Definition untaggedId (path method : string) : string :=
  "path:" ++ path ++ ":" ++ method.

(** The nodes the tag strategy can leave, with their values: the root;
    the folder of a key of [tagDescMap], with an empty path; the folder
    of a tag listed by an operation that passes the filters, with the
    path of that operation; the request of such an operation under one
    of its tags; the request of such an operation without tags. *)
Definition tags_node (openapi : OpenAPI) (incl : bool) (v : string)
    (l : Label) : Prop :=
  let tagDescMap := tagDescMap_of (tags openapi) in
  (v = "root:collection" /\ l = root_value) \/
  (exists tag,
      In tag (keys tagDescMap) /\ v = tagFolderId tag /\
      l = tag_folder "" tag (tagDesc tagDescMap tag)) \/
  (exists path method data tag,
      tag_kept openapi incl path method data /\ In tag (op_tags data) /\
      ((v = tagFolderId tag /\
        l = tag_folder path tag (tagDesc tagDescMap tag)) \/
       (v = tagRequestId tag path method /\
        l = tag_request tag path method))) \/
  (exists path method data,
      tag_kept openapi incl path method data /\ op_tags data = [] /\
      v = untaggedId path method /\ l = untagged_request path method).

(** The edges the tag strategy can leave: from the root into the folder
    of a declared or listed tag or into the request of an operation
    without tags; from the folder identifier of a tag into the request
    of an operation that lists it. *)
Definition tags_edge (openapi : OpenAPI) (incl : bool) (u v : string)
    : Prop :=
  (u = "root:collection" /\
   ((exists tag, In tag (keys (tagDescMap_of (tags openapi))) /\
                 v = tagFolderId tag) \/
    (exists path method data tag,
        tag_kept openapi incl path method data /\
        In tag (op_tags data) /\ v = tagFolderId tag) \/
    (exists path method data,
        tag_kept openapi incl path method data /\ op_tags data = [] /\
        v = untaggedId path method))) \/
  (exists path method data tag,
      tag_kept openapi incl path method data /\ In tag (op_tags data) /\
      u = tagFolderId tag /\ v = tagRequestId tag path method).

(** The request of an operation under [tag] is in place, linked from
    the folder identifier of the tag. *)
Definition tag_present (tag path method : string) (g : Graph) : Prop :=
  hasNode (tagFolderId tag) g = true /\
  is_request (tagRequestId tag path method) g /\
  hasEdge (tagFolderId tag) (tagRequestId tag path method) g = true.

(** The request of an operation without tags is in place, linked from
    the root. *)
Definition untagged_present (path method : string) (g : Graph) : Prop :=
  is_request (untaggedId path method) g /\
  hasEdge "root:collection" (untaggedId path method) g = true.

(** The names of [l] in order, each at its first occurrence only;
    [seen] lists the names met before. *)
Fixpoint first_occurrences (seen l : list string) : list string :=
  match l with
  | [] => []
  | x :: r =>
      if existsb (String.eqb x) seen then first_occurrences seen r
      else x :: first_occurrences (seen ++ [x])%list r
  end.

(** The names of the entries of [openapi.tags] that [tagDescMap] can
    hold. *)
Definition declared_names (tags : list TagObject) : list string :=
  filter (fun n => negb (String.eqb n "__proto__")) (map name tags).

(* ================================================================== *)
(** ** Indentation of generated XML: [indentContent] *)
(* ================================================================== *)

(** The line feed, ['\n']. *)
Definition newline : ascii := "010"%char.

(** [indentContent(content, initialIndent)], applied to strings: the
    content is cut at every line feed, every line gets the indent in
    front, and the lines are joined again with line feeds. *)
Definition indentContent (content initialIndent : string) : string :=
  let contentArr := split newline content in
  let indentedContent :=
    String.concat (String newline "")
      (map (fun contentElement => initialIndent ++ contentElement)
           contentArr) in
  indentedContent.

(* ================================================================== *)
(** ** Names and paths: string helpers of the conversion *)
(* ================================================================== *)

(** A JavaScript string is a sequence of 16-bit code units; the helpers
    below work unit by unit and only test units against ASCII
    characters, so a [string] stands for the sequence of units. *)

(** An argument given where a string is expected: a string, or a value
    of another type. *)
Inductive Arg (A : Type) : Type :=
| AString (s : string)
| AOther (a : A).

Arguments AString {A} s.
Arguments AOther {A} a.

(** [[a-z]], [[A-Z]], [[0-9]] and [[a-zA-Z0-9]]. *)
Definition is_lower (c : ascii) : bool :=
  let n := N_of_ascii c in (97 <=? n)%N && (n <=? 122)%N.

Definition is_upper (c : ascii) : bool :=
  let n := N_of_ascii c in (65 <=? n)%N && (n <=? 90)%N.

Definition is_digit (c : ascii) : bool :=
  let n := N_of_ascii c in (48 <=? n)%N && (n <=? 57)%N.

Definition is_alnum (c : ascii) : bool :=
  is_lower c || is_upper c || is_digit c.

(** [.replace(/([a-z])([A-Z])/g, '$1 $2')]: matches are looked for from
    left to right and do not overlap; after a match the search goes on
    behind it. *)
Fixpoint spaceLowerUpper (s : string) : string :=
  match s with
  | EmptyString => EmptyString
  | String a r =>
      match r with
      | String b r' =>
          if is_lower a && is_upper b
          then String a (String " " (String b (spaceLowerUpper r')))
          else String a (spaceLowerUpper r)
      | EmptyString => String a EmptyString
      end
  end.

(** [.replace(/([A-Z])([A-Z][a-z])/g, '$1 $2')]. *)
Fixpoint spaceUpperWord (s : string) : string :=
  match s with
  | EmptyString => EmptyString
  | String a r =>
      match r with
      | String b (String c r'') =>
          if is_upper a && is_upper b && is_lower c
          then String a (String " "
                 (String b (String c (spaceUpperWord r''))))
          else String a (spaceUpperWord r)
      | _ => String a (spaceUpperWord r)
      end
  end.

(** [n] underscores. *)
Fixpoint underscores (n : nat) : string :=
  match n with
  | 0 => EmptyString
  | S n' => String "_" (underscores n')
  end.

(** [.replace(/(_+)([a-zA-Z0-9])/g, ' $2')], reading the string once:
    [pending] counts the underscores of the run being read.  A run
    followed by a letter or a digit is a match (the greedy [_+] takes the
    whole run) and is replaced, with that character, by a space and the
    character; a run followed by anything else, or by the end, matches
    nowhere and is kept. *)
Fixpoint spaceUnderscores (pending : nat) (s : string) : string :=
  match s with
  | EmptyString => underscores pending
  | String c r =>
      if Ascii.eqb c "_" then spaceUnderscores (S pending) r
      else
        match pending with
        | 0 => String c (spaceUnderscores 0 r)
        | S _ =>
            if is_alnum c
            then String " " (String c (spaceUnderscores 0 r))
            else underscores pending ++ String c (spaceUnderscores 0 r)
        end
  end.

(** [insertSpacesInName(string)]; the argument is called [text] here. *)
Definition insertSpacesInName {A} (text : Arg A) : string :=
  match text with
  | AOther _ => ""
  | AString s =>
      if String.eqb s "" then ""
      else spaceUnderscores 0 (spaceUpperWord (spaceLowerUpper s))
  end.

(** [reqName.substring(0, 255)] on a string, the argument itself
    otherwise. *)
Definition trimRequestName {A} (reqName : Arg A) : Arg A :=
  match reqName with
  | AString s => AString (String.substring 0 255 s)
  | AOther a => AOther a
  end.

(** [.replace(/\//g, '-')]. *)
Fixpoint replaceSlashes (s : string) : string :=
  match s with
  | EmptyString => EmptyString
  | String c r =>
      String (if Ascii.eqb c "/" then "-"%char else c) (replaceSlashes r)
  end.

(** [.replace(/[{}]/g, '')]. *)
Fixpoint removeBraces (s : string) : string :=
  match s with
  | EmptyString => EmptyString
  | String c r =>
      if Ascii.eqb c "{" || Ascii.eqb c "}" then removeBraces r
      else String c (removeBraces r)
  end.

(** [fixPathVariableName(path)]. *)
Definition fixPathVariableName (path : string) : string :=
  removeBraces (replaceSlashes path) ++ "-Url".

(** A character of [[^\/\{\}]]. *)
Definition is_body (c : ascii) : bool :=
  negb (Ascii.eqb c "/" || Ascii.eqb c "{" || Ascii.eqb c "}").

(** [string[i]] for the string [s]; [None] is [undefined]. *)
Definition charAt (i : nat) (s : string) : option ascii := String.get i s.

(** [url.replace(/(\{[^\/\{\}]+\})/g, replacer)], reading the string
    once.  [prev] is the character before the one being read.  [group]
    is [None] outside a candidate match and [Some (before, body)] after
    an opening brace, [before] being the character in front of that
    brace and [body] what followed it so far.  A closing brace after a
    non-empty body completes a match, on which [replacer] is called: it
    gives the match back when the brace in front of it is preceded by
    [{] and the second character behind the match is not [}], and wraps
    it in one more pair of braces otherwise.  A candidate that meets a
    slash, another opening brace or the end, or that has an empty body,
    is no match and is kept as it is. *)
Fixpoint scanUrl (prev : option ascii) (group : option (option ascii * string))
    (s : string) : string :=
  match group with
  | None =>
      match s with
      | EmptyString => EmptyString
      | String c r =>
          if Ascii.eqb c "{" then scanUrl (Some c) (Some (prev, "")) r
          else String c (scanUrl (Some c) None r)
      end
  | Some (before, body) =>
      match s with
      | EmptyString => "{" ++ body
      | String c r =>
          if Ascii.eqb c "}" then
            if String.eqb body "" then
              "{" ++ String c (scanUrl (Some c) None r)
            else
              let matched := "{" ++ body ++ "}" in
              let kept :=
                match before, charAt 1 r with
                | Some b, Some a => Ascii.eqb b "{" && negb (Ascii.eqb a "}")
                | Some b, None => Ascii.eqb b "{"
                | None, _ => false
                end in
              (if kept then matched else "{" ++ matched ++ "}")
              ++ scanUrl (Some c) None r
          else if Ascii.eqb c "{" then
            "{" ++ body ++ scanUrl (Some c) (Some (prev, "")) r
          else if Ascii.eqb c "/" then
            "{" ++ body ++ String c (scanUrl (Some c) None r)
          else scanUrl (Some c) (Some (before, body ++ String c "")) r
      end
  end.

(** [fixPathVariablesInUrl(url)]. *)
Definition fixPathVariablesInUrl {A} (url : Arg A) : string :=
  match url with
  | AString s => scanUrl None None s
  | AOther _ => ""
  end.

(** *** Vocabulary for the string helpers *)

(** Every character of [s] passes [p]. *)
Fixpoint all_chars (p : ascii -> bool) (s : string) : bool :=
  match s with
  | EmptyString => true
  | String c r => p c && all_chars p r
  end.

(** Some character of [s] is directly followed by another, and the two
    pass [p]. *)
Fixpoint adjacent (p : ascii -> ascii -> bool) (s : string) : bool :=
  match s with
  | EmptyString => false
  | String a r =>
      match r with
      | EmptyString => false
      | String b _ => p a b || adjacent p r
      end
  end.

(** [s] without its spaces and underscores. *)
Fixpoint letters (s : string) : string :=
  match s with
  | EmptyString => EmptyString
  | String c r =>
      if Ascii.eqb c " " || Ascii.eqb c "_" then letters r
      else String c (letters r)
  end.

(** The number of braces in [s]. *)
Fixpoint braces (s : string) : nat :=
  match s with
  | EmptyString => 0
  | String c r =>
      (if Ascii.eqb c "{" || Ascii.eqb c "}" then 1 else 0) + braces r
  end.

(** [s] starts with a character [b] such that [p a b]. *)
Definition follows (p : ascii -> ascii -> bool) (a : ascii) (s : string)
    : bool :=
  match s with
  | EmptyString => false
  | String b _ => p a b
  end.

(** A lower-case letter directly followed by an upper-case one. *)
Definition lower_upper (a b : ascii) : bool := is_lower a && is_upper b.

(** An underscore directly followed by a letter or a digit. *)
Definition underscore_alnum (a b : ascii) : bool :=
  Ascii.eqb a "_" && is_alnum b.

(** Neither an upper-case letter nor an underscore. *)
Definition plain (c : ascii) : bool :=
  negb (is_upper c) && negb (Ascii.eqb c "_").

(* ================================================================== *)
(** ** XML from a JSON schema: [convertSchemaToXML] *)
(* ================================================================== *)

(** The double quote. *)
Definition quote : string := String "034"%char "".

(** [_.times(n, _.constant(s)).join('')]. *)
Fixpoint times (n : nat) (s : string) : string :=
  match n with
  | 0 => ""
  | S n' => s ++ times n' s
  end.

(** [s.slice(0, -1)]: [s] without its last character. *)
Fixpoint slice_0_m1 (s : string) : string :=
  match s with
  | EmptyString => EmptyString
  | String c r =>
      match r with
      | EmptyString => EmptyString
      | _ => String c (slice_0_m1 r)
      end
  end.

(** [s.substring(1)]. *)
Definition substring_1 (s : string) : string :=
  match s with
  | EmptyString => EmptyString
  | String _ r => r
  end.

(** [name || 'element']. *)
Definition orElement (name : string) : string :=
  if String.eqb name "" then "element" else name.

(** What a call ends in: the value returned, or the [TypeError] thrown
    on writing a property of [undefined]. *)
Inductive Completion : Type :=
| Returns (value : string)
| ThrowsTypeError.

(** [schema.xml]; a missing [name], [prefix] or [namespace] is [None],
    [attribute] and [wrapped] are read for their truthiness. *)
Record Xml : Type := {
  xml_name : option string;
  xml_prefix : option string;
  xml_namespace : option string;
  xml_attribute : bool;
  xml_wrapped : bool
}.

(** [_.get(schema, 'xml.name', otherwise)]. *)
Definition get_xml_name (xml : option Xml) (otherwise : string) : string :=
  match xml with
  | Some x => match xml_name x with Some n => n | None => otherwise end
  | None => otherwise
  end.

(** [_.get(schema, 'xml.prefix')] and [_.get(schema, 'xml.namespace')]
    when truthy, that is when they are non-empty strings. *)
Definition truthy (s : option string) : option string :=
  match s with
  | Some v => if String.eqb v "" then None else Some v
  | None => None
  end.

Definition get_xml_prefix (xml : option Xml) : option string :=
  match xml with Some x => truthy (xml_prefix x) | None => None end.

Definition get_xml_namespace (xml : option Xml) : option string :=
  match xml with Some x => truthy (xml_namespace x) | None => None end.

Definition get_xml_attribute (xml : option Xml) : bool :=
  match xml with Some x => xml_attribute x | None => false end.

Definition get_xml_wrapped (xml : option Xml) : bool :=
  match xml with Some x => xml_wrapped x | None => false end.

Section ConvertSchemaToXML.

(** The values an example can be besides a string, and [js2xml] (a
    module of the converter that turns the object [{ [name]: value }]
    into XML), of which nothing is assumed. *)
Variable J : Type.
Variable js2xml : string -> J -> string -> string.

(** [schema.example] by its [typeof]: missing, a string, an object (an
    array and [null] are objects too), or another value.  [text] is the
    string JavaScript converts the value to. *)
Inductive Example : Type :=
| NoExample
| ExampleString (s : string)
| ExampleObject (value : J) (text : string)
| ExampleOther (text : string).

(** A schema object: [type] (a string, when present), [example], [xml],
    [properties] (none when missing, in enumeration order otherwise) and
    [items] (a schema object, when present). *)
Inductive Schema : Type :=
| mkSchema (type : option string) (example : Example) (xml : option Xml)
           (properties : Properties) (items : Items)
with Properties : Type :=
| NoProperties
| Property (key : string) (value : Schema) (rest : Properties)
with Items : Type :=
| NoItems
| ItemsSchema (s : Schema).

Definition schema_xml (schema : Schema) : option Xml :=
  match schema with mkSchema _ _ xml _ _ => xml end.

(** [_.get(schema, 'items.xml.name', otherwise)]. *)
Definition get_items_xml_name (items : Items) (otherwise : string)
    : string :=
  match items with
  | ItemsSchema s => get_xml_name (schema_xml s) otherwise
  | NoItems => otherwise
  end.

(** The text a template literal or a concatenation makes of an
    example. *)
Definition example_text (example : Example) : string :=
  match example with
  | NoExample => "undefined"
  | ExampleString s => s
  | ExampleObject _ text => text
  | ExampleOther text => text
  end.

Variable indentChar : string.
Variable resolveTo : string.

(** The body of [convertSchemaToXML] on a schema object.  The source
    gives the items of an array a copy of themselves whose [xml] is the
    [xml] of the array ([_.cloneDeep], then an assignment); here [xml] is
    an argument of its own, which is [schema.xml] except on such a copy.
    [convertProperties] is the loop over [schema.properties], which
    gathers the attributes and the child nodes.  For an attribute of a
    primitive type the source returns the example as it is; here it is
    the text of the example, which is what the loop puts in the
    attribute. *)
Fixpoint convert (schema : Schema) (xml : option Xml) (name : string)
    (attribute : bool) (indent : nat) {struct schema} : Completion :=
  match schema with
  | mkSchema type example _ properties items =>
      let cIndent := times indent indentChar in
      let name := get_xml_name xml (orElement name) in
      let tagPrefix :=
        match get_xml_prefix xml with
        | Some prefix => prefix ++ ":"
        | None => ""
        end in
      let type_is t := match type with
                       | Some t' => String.eqb t' t
                       | None => false
                       end in
      if type_is "integer" || type_is "string" || type_is "boolean"
         || type_is "number" then
        let actualValue :=
          if type_is "integer" then "(integer)"
          else if type_is "string" then "(string)"
          else if type_is "boolean" then "(boolean)"
          else "(number)" in
        let actualValue :=
          match example with
          | NoExample => actualValue
          | _ => if String.eqb resolveTo "example"
                 then example_text example else actualValue
          end in
        if attribute then Returns actualValue
        else
          let retVal := String newline (cIndent ++ "<" ++ tagPrefix ++ name) in
          let retVal :=
            match get_xml_namespace xml with
            | Some namespace =>
                retVal ++ " xmlns:" ++ slice_0_m1 tagPrefix ++ "=" ++ quote
                       ++ namespace ++ quote
            | None => retVal
            end in
          Returns (retVal ++ ">" ++ actualValue ++ "</" ++ tagPrefix
                          ++ name ++ ">")
      else if type_is "object" then
        match String.eqb resolveTo "example", example with
        | true, ExampleString s => Returns (String newline s)
        | true, ExampleObject value _ =>
            let elementName := get_items_xml_name items (orElement name) in
            let fakedContent := js2xml elementName value indentChar in
            Returns (String newline (indentContent fakedContent cIndent))
        | _, _ =>
            let retVal :=
              String newline (cIndent ++ "<" ++ tagPrefix ++ name) in
            let retVal :=
              match get_xml_namespace xml with
              | Some namespace =>
                  let formattedTagPrefix :=
                    if String.eqb tagPrefix "" then ""
                    else ":" ++ slice_0_m1 tagPrefix in
                  retVal ++ " xmlns" ++ formattedTagPrefix ++ "=" ++ quote
                         ++ namespace ++ quote
              | None => retVal
              end in
            match convertProperties properties indent with
            | None => ThrowsTypeError
            | Some (attributes, childNodes) =>
                let retVal :=
                  match attributes with
                  | [] => retVal
                  | _ => retVal ++ " " ++ String.concat " " attributes
                  end in
                Returns (retVal ++ ">" ++ childNodes
                                ++ String newline (cIndent ++ "</"
                                ++ tagPrefix ++ name ++ ">"))
            end
        end
      else if type_is "array" then
        let isWrapped := get_xml_wrapped xml in
        let extraIndent := if isWrapped then 1 else 0 in
        let arrayElemName := get_items_xml_name items (orElement name) in
        match items with
        | NoItems => ThrowsTypeError
        | ItemsSchema schemaItems =>
            let wrap contents :=
              if isWrapped
              then Returns (String newline (cIndent ++ "<" ++ tagPrefix
                              ++ name ++ ">" ++ contents)
                            ++ String newline (cIndent ++ "</" ++ tagPrefix
                              ++ name ++ ">"))
              else Returns contents in
            match String.eqb resolveTo "example", example with
            | true, ExampleString s => Returns (String newline s)
            | true, ExampleObject value _ =>
                let fakedContent := js2xml arrayElemName value indentChar in
                wrap (String newline (indentContent fakedContent cIndent))
            | _, _ =>
                match convert schemaItems xml arrayElemName false
                              (indent + extraIndent) with
                | ThrowsTypeError => ThrowsTypeError
                | Returns singleElementContent =>
                    wrap (singleElementContent ++ singleElementContent)
                end
            end
        end
      else Returns ""
  end
with convertProperties (properties : Properties) (indent : nat)
    {struct properties} : option (list string * string) :=
  match properties with
  | NoProperties => Some ([], "")
  | Property key value rest =>
      let attribute := get_xml_attribute (schema_xml value) in
      match convert value (schema_xml value) key attribute (indent + 1) with
      | ThrowsTypeError => None
      | Returns propVal =>
          match convertProperties rest indent with
          | None => None
          | Some (attributes, childNodes) =>
              if attribute
              then Some ((key ++ "=" ++ quote ++ propVal ++ quote)
                           :: attributes, childNodes)
              else Some (attributes, propVal ++ childNodes)
          end
      end
  end.

(** [convertSchemaToXML(name, schema, attribute, indentChar, indent,
    resolveTo)]; [None] is a [schema] that is [null] or [undefined]. *)
Definition convertSchemaToXML (name : string) (schema : option Schema)
    (attribute : bool) (indent : nat) : Completion :=
  match schema with
  | None => Returns ""
  | Some s => convert s (schema_xml s) name attribute indent
  end.

(** The function the module exports. *)
Definition convertSchemaToXML_exported (name : string)
    (schema : option Schema) : Completion :=
  match convertSchemaToXML name schema false 0 with
  | Returns xml => Returns (substring_1 xml)
  | ThrowsTypeError => ThrowsTypeError
  end.

End ConvertSchemaToXML.

Arguments NoExample {J}.
Arguments ExampleString {J} s.
Arguments ExampleObject {J} value text.
Arguments ExampleOther {J} text.
Arguments mkSchema {J} type example xml properties items.
Arguments NoProperties {J}.
Arguments Property {J} key value rest.
Arguments NoItems {J}.
Arguments ItemsSchema {J} s.
Arguments schema_xml {J} schema.
Arguments get_items_xml_name {J} items otherwise.
Arguments example_text {J} example.
Arguments convert {J} js2xml indentChar resolveTo schema xml name attribute
  indent.
Arguments convertProperties {J} js2xml indentChar resolveTo properties
  indent.
Arguments convertSchemaToXML {J} js2xml indentChar resolveTo name schema
  attribute indent.
Arguments convertSchemaToXML_exported {J} js2xml indentChar resolveTo name
  schema.

Scheme Schema_mut := Induction for Schema Sort Prop
  with Properties_mut := Induction for Properties Sort Prop
  with Items_mut := Induction for Items Sort Prop.

(** Every array schema in [schema], at any depth, has its [items]. *)
Fixpoint arrays_have_items {J} (schema : Schema J) : bool :=
  match schema with
  | mkSchema type _ _ properties items =>
      (match type, items with
       | Some t, NoItems => negb (String.eqb t "array")
       | _, _ => true
       end)
      && properties_have_items properties
      && match items with
         | NoItems => true
         | ItemsSchema s => arrays_have_items s
         end
  end
with properties_have_items {J} (properties : Properties J) : bool :=
  match properties with
  | NoProperties => true
  | Property _ value rest =>
      arrays_have_items value && properties_have_items rest
  end.

(** [schema] without any [example], at any depth. *)
Fixpoint without_examples {J} (schema : Schema J) : Schema J :=
  match schema with
  | mkSchema type _ xml properties items =>
      mkSchema type NoExample xml (properties_without_examples properties)
        match items with
        | NoItems => NoItems
        | ItemsSchema s => ItemsSchema (without_examples s)
        end
  end
with properties_without_examples {J} (properties : Properties J)
    : Properties J :=
  match properties with
  | NoProperties => NoProperties
  | Property key value rest =>
      Property key (without_examples value)
        (properties_without_examples rest)
  end.

(** The conversion reads [schema.example] in place of the properties
    or the items: [resolveTo] is ['example'] and the example is a string
    or an object. *)
Definition example_used {J} (resolveTo : string) (example : Example J)
    : bool :=
  String.eqb resolveTo "example"
  && match example with
     | ExampleString _ | ExampleObject _ _ => true
     | NoExample | ExampleOther _ => false
     end.

(** The conversion of [schema] comes to an array schema without
    [items]: [schema] is one, or it is an object or an array whose
    example is not used and one of its properties, or its items, comes to
    one. *)
Fixpoint meets_array_without_items {J} (resolveTo : string)
    (schema : Schema J) : bool :=
  match schema with
  | mkSchema (Some type) example _ properties items =>
      if String.eqb type "object" then
        negb (example_used resolveTo example)
        && property_meets_array_without_items resolveTo properties
      else if String.eqb type "array" then
        match items with
        | NoItems => true
        | ItemsSchema s =>
            negb (example_used resolveTo example)
            && meets_array_without_items resolveTo s
        end
      else false
  | mkSchema None _ _ _ _ => false
  end
with property_meets_array_without_items {J} (resolveTo : string)
    (properties : Properties J) : bool :=
  match properties with
  | NoProperties => false
  | Property _ value rest =>
      meets_array_without_items resolveTo value
      || property_meets_array_without_items resolveTo rest
  end.

(* ================================================================== *)
(** ** The variables of a path: [findPathVariablesFromSchemaPath],
       [findPathVariablesFromPath], [findCollectionVariablesFromPath] *)
(* ================================================================== *)

(** [[^\/\{\}]+] is greedy: the longest run of characters other than
    [/], [{] and [}] at the start of [s], and what follows it.  What
    follows the run in the three patterns is a closing brace, which a
    shorter run could not be followed by, so no other run is tried. *)
Fixpoint span_body (s : string) : string * string :=
  match s with
  | EmptyString => (EmptyString, EmptyString)
  | String c r =>
      if is_body c then
        let (body, rest) := span_body r in (String c body, rest)
      else (EmptyString, s)
  end.

(** [s] starts with [prefix]: what follows it. *)
Fixpoint after (prefix s : string) : option string :=
  match prefix with
  | EmptyString => Some s
  | String p prefix' =>
      match s with
      | EmptyString => None
      | String c r => if Ascii.eqb c p then after prefix' r else None
      end
  end.

(** [opening], one character or more of [[^\/\{\}]], [closing], and
    then what [lookahead] accepts, at the start of [s]: the text
    matched. *)
Definition variable_at (opening closing : string)
    (lookahead : string -> bool) (s : string) : option string :=
  match after opening s with
  | None => None
  | Some r =>
      let (body, rest) := span_body r in
      match body, after closing rest with
      | String _ _, Some behind =>
          if lookahead behind then Some (opening ++ body ++ closing)
          else None
      | _, _ => None
      end
  end.

(** [(?=[\/\0]|$)], [(?=\/|$)] and no lookahead. *)
Definition slash_nul_or_end (behind : string) : bool :=
  match behind with
  | EmptyString => true
  | String c _ => Ascii.eqb c "/" || Ascii.eqb c Ascii.zero
  end.

Definition slash_or_end (behind : string) : bool :=
  match behind with
  | EmptyString => true
  | String c _ => Ascii.eqb c "/"
  end.

Definition anything (behind : string) : bool := true.

(** [s.match(re)] for a global [re] that matches no empty string, as a
    list ([null] is the empty list here): [at_start] is one attempt at
    the start of a string.  The string is searched from the left; a
    match is recorded and the search goes on behind it ([skip] counts
    the characters of a match still to pass); where there is no match,
    the search moves on by one character. *)
Fixpoint match_all (at_start : string -> option string) (skip : nat)
    (s : string) : list string :=
  match s with
  | EmptyString => []
  | String _ r =>
      match skip with
      | S skip' => match_all at_start skip' r
      | 0 =>
          match at_start s with
          | Some m => m :: match_all at_start (String.length m - 1) r
          | None => match_all at_start 0 r
          end
      end
  end.

(** [match.slice(2, -1)]. *)
Definition slice_2_m1 (s : string) : string :=
  slice_0_m1 (substring_1 (substring_1 s)).

(** [findPathVariablesFromSchemaPath(path)]; [_.map] of [null] is the
    empty array. *)
Definition findPathVariablesFromSchemaPath (path : string) : list string :=
  map slice_2_m1 (match_all (variable_at "/{" "}" slash_nul_or_end) 0 path).

(** What [s.match(re)] returns: [None] is [null]. *)
Definition or_null (matches : list string) : option (list string) :=
  match matches with
  | [] => None
  | _ => Some matches
  end.

(** [findPathVariablesFromPath(path)]. *)
Definition findPathVariablesFromPath (path : string)
    : option (list string) :=
  or_null (match_all (variable_at "/{{" "}}" slash_or_end) 0 path).

(** [findCollectionVariablesFromPath(path)]. *)
Definition findCollectionVariablesFromPath (path : string)
    : option (list string) :=
  or_null (match_all (variable_at "{{" "}}" anything) 0 path).

(** *** Vocabulary for the variables of a path *)

(** [segment] is [opening], a name of one character or more without
    slash and brace, [closing], and a tail that [tail_ok] accepts: the
    name. *)
Definition enclosed_name (opening closing : string)
    (tail_ok : string -> bool) (segment : string) : option string :=
  match after opening segment with
  | None => None
  | Some r =>
      let (name, rest) := span_body r in
      match name, after closing rest with
      | String _ _, Some tail => if tail_ok tail then Some name else None
      | _, _ => None
      end
  end.

(** The tail is empty, or starts with the character of code 0. *)
Definition nul_or_end (tail : string) : bool :=
  match tail with
  | EmptyString => true
  | String c _ => Ascii.eqb c Ascii.zero
  end.

(** The tail is empty. *)
Definition is_end (tail : string) : bool :=
  match tail with
  | EmptyString => true
  | String _ _ => false
  end.

(** The values [f] gives on the entries of [l], in their order. *)
Fixpoint filter_map {A B} (f : A -> option B) (l : list A) : list B :=
  match l with
  | [] => []
  | a :: l' =>
      match f a with
      | Some b => b :: filter_map f l'
      | None => filter_map f l'
      end
  end.

(** The list an [s.match(re)] stands for. *)
Definition matches (found : option (list string)) : list string :=
  match found with
  | Some l => l
  | None => []
  end.

Set Implicit Arguments.
(* ================================================================== *)
(** * Properties *)
(* ================================================================== *)

(** ** Ordered objects *)

Module JsObjFacts.

Lemma has_true_iff {V} (k : string) (o : obj V) :
  has k o = true <-> In k (keys o).
Proof.
  unfold has. induction o as [|[k' v] o IH]; simpl.
  - split; [discriminate | tauto].
  - destruct (String.eqb_spec k k') as [->|Hne].
    + split; auto.
    + rewrite IH. split; [auto | intros [H|H]; congruence].
Qed.

Lemma has_false_iff {V} (k : string) (o : obj V) :
  has k o = false <-> ~ In k (keys o).
Proof.
  rewrite <- has_true_iff. destruct (has k o); split; congruence.
Qed.

Lemma get_in {V} (k : string) (v : V) (o : obj V) :
  get k o = Some v -> In (k, v) o.
Proof.
  induction o as [|[k' v'] o IH]; simpl; [discriminate|].
  destruct (String.eqb_spec k k') as [->|Hne].
  - intros [= ->]. now left.
  - intros H. right. auto.
Qed.

Lemma get_app {V} (k : string) (o1 o2 : obj V) :
  get k (o1 ++ o2)%list
  = match get k o1 with Some v => Some v | None => get k o2 end.
Proof.
  induction o1 as [|[k' v'] o1 IH]; simpl; [reflexivity|].
  now destruct (String.eqb k k').
Qed.

Lemma get_replace {V} (k k' : string) (v : V) (o : obj V) :
  get k' (replace k v o)
  = if String.eqb k' k
    then match get k o with Some _ => Some v | None => None end
    else get k' o.
Proof.
  induction o as [|[k0 v0] o IH]; simpl.
  - now destruct (String.eqb k' k).
  - destruct (String.eqb_spec k k0) as [->|Hne]; simpl.
    + now destruct (String.eqb k' k0).
    + destruct (String.eqb_spec k' k0) as [->|Hne'].
      * destruct (String.eqb_spec k0 k); [congruence | reflexivity].
      * exact IH.
Qed.

Lemma get_insertIndex {V} n (k k' : string) (v : V) (o : obj V) :
  get k o = None ->
  get k' (insertIndex n k v o)
  = if String.eqb k' k then Some v else get k' o.
Proof.
  induction o as [|[k0 v0] o IH]; simpl; intros Hk.
  - now destruct (String.eqb k' k).
  - destruct (String.eqb_spec k k0) as [->|Hne]; [discriminate|].
    destruct (arrayIndex k0) as [n'|]; [destruct (n' <? n)%N|]; simpl;
      try reflexivity.
    rewrite (IH Hk).
    destruct (String.eqb_spec k' k0) as [->|Hne'].
    + destruct (String.eqb_spec k0 k); [congruence | reflexivity].
    + reflexivity.
Qed.

Lemma get_set {V} (k k' : string) (v : V) (o : obj V) :
  get k' (set k v o) = if String.eqb k' k then Some v else get k' o.
Proof.
  unfold set, has. destruct (get k o) as [v0|] eqn:Hk.
  - rewrite get_replace, Hk. reflexivity.
  - destruct (arrayIndex k) as [n|].
    + now apply get_insertIndex.
    + rewrite get_app. simpl.
      destruct (String.eqb_spec k' k) as [->|Hne].
      * now rewrite Hk.
      * now destruct (get k' o).
Qed.

Lemma has_set {V} (k k' : string) (v : V) (o : obj V) :
  has k' (set k v o) = String.eqb k' k || has k' o.
Proof.
  unfold has at 1. rewrite get_set.
  now destruct (String.eqb k' k).
Qed.

Lemma keys_replace {V} (k : string) (v : V) (o : obj V) :
  keys (replace k v o) = keys o.
Proof.
  induction o as [|[k0 v0] o IH]; simpl; [reflexivity|].
  destruct (String.eqb k k0); simpl; [reflexivity|].
  f_equal. exact IH.
Qed.

Lemma get_none_iff {V} (k : string) (o : obj V) :
  get k o = None <-> ~ In k (keys o).
Proof.
  rewrite <- has_false_iff. unfold has.
  destruct (get k o); split; congruence.
Qed.

Lemma in_keys_insertIndex {V} n (k k' : string) (v : V) (o : obj V) :
  In k' (keys (insertIndex n k v o)) <-> k' = k \/ In k' (keys o).
Proof.
  induction o as [|[k0 v0] o IH]; simpl.
  - intuition congruence.
  - destruct (arrayIndex k0) as [n'|]; [destruct (n' <? n)%N|]; simpl;
      intuition congruence.
Qed.

Lemma wf_insertIndex {V} n (k : string) (v : V) (o : obj V) :
  ~ In k (keys o) -> wf o -> wf (insertIndex n k v o).
Proof.
  unfold wf. induction o as [|[k0 v0] o IH]; simpl; intros Hk Hnd.
  - constructor; [tauto | constructor].
  - assert (Hcons : NoDup (k :: k0 :: keys o)).
    { constructor; [simpl; tauto | exact Hnd]. }
    destruct (arrayIndex k0) as [n'|]; [destruct (n' <? n)%N|]; simpl;
      try exact Hcons.
    inversion Hnd as [|? ? Hnotin Hnd']; subst.
    constructor.
    + rewrite in_keys_insertIndex. intros [->|Hin]; tauto.
    + apply IH; tauto.
Qed.

Lemma wf_set {V} (k : string) (v : V) (o : obj V) :
  wf o -> wf (set k v o).
Proof.
  unfold set. intros Hwf. destruct (has k o) eqn:Hk.
  - unfold wf. now rewrite keys_replace.
  - apply has_false_iff in Hk. destruct (arrayIndex k) as [n|].
    + now apply wf_insertIndex.
    + unfold wf, keys. rewrite map_app. simpl.
      apply NoDup_app; [exact Hwf | repeat constructor; tauto |].
      intros x Hx [<-|[]]. tauto.
Qed.

(** A key that is not an array index and not yet present goes last. *)
Lemma set_append {V} (k : string) (v : V) (o : obj V) :
  has k o = false -> arrayIndex k = None ->
  set k v o = (o ++ [(k, v)])%list.
Proof. unfold set. now intros -> ->. Qed.

End JsObjFacts.

Import JsObjFacts.

(** ** The store *)

Module GraphFacts.

Lemma edge_eqb_eq (e1 e2 : string * string) :
  edge_eqb e1 e2 = true <-> e1 = e2.
Proof.
  destruct e1 as [a b], e2 as [c d]. unfold edge_eqb. simpl.
  rewrite andb_true_iff, !String.eqb_eq. split.
  - now intros [-> ->].
  - now intros [= -> ->].
Qed.

Lemma hasEdge_true_iff (v w : string) (g : Graph) :
  hasEdge v w g = true <-> In (v, w) (_edges g).
Proof.
  unfold hasEdge. rewrite existsb_exists. split.
  - intros [e [Hin He]]. apply edge_eqb_eq in He. now subst.
  - intros Hin. exists (v, w). split; [exact Hin | now apply edge_eqb_eq].
Qed.

Lemma hasEdge_false_iff (v w : string) (g : Graph) :
  hasEdge v w g = false <-> ~ In (v, w) (_edges g).
Proof.
  rewrite <- hasEdge_true_iff. destruct (hasEdge v w g); split; congruence.
Qed.

Lemma hasNode_true_iff (v : string) (g : Graph) :
  hasNode v g = true <-> In v (nodes g).
Proof. apply has_true_iff. Qed.

(** *** [setNode] *)

Lemma hasNode_setNode (u v : string) (l : Label) (g : Graph) :
  hasNode u (setNode v l g) = String.eqb u v || hasNode u g.
Proof. unfold hasNode, setNode. simpl. apply has_set. Qed.

Lemma node_setNode (u v : string) (l : Label) (g : Graph) :
  node u (setNode v l g) = if String.eqb u v then Some l else node u g.
Proof.
  unfold node, setNode. simpl. rewrite get_set.
  now destruct (String.eqb u v).
Qed.

Lemma hasEdge_setNode (a b v : string) (l : Label) (g : Graph) :
  hasEdge a b (setNode v l g) = hasEdge a b g.
Proof. reflexivity. Qed.

Lemma edges_setNode (v : string) (l : Label) (g : Graph) :
  _edges (setNode v l g) = _edges g.
Proof. reflexivity. Qed.

Lemma calls_setNode (v : string) (l : Label) (g : Graph) :
  _calls (setNode v l g)
  = (_calls g ++ [(SetNode v l, hasNode v g)])%list.
Proof. reflexivity. Qed.

(** *** [setEdge] *)

Lemma has_ensureNode (u v : string) (ns : obj (option Label)) :
  has u (ensureNode v ns) = String.eqb u v || has u ns.
Proof.
  unfold ensureNode. destruct (has v ns) eqn:Hv.
  - destruct (String.eqb_spec u v) as [->|]; [now rewrite Hv | reflexivity].
  - apply has_set.
Qed.

Lemma get_ensureNode (u v : string) (ns : obj (option Label)) :
  match get u (ensureNode v ns) with Some l => l | None => None end
  = match get u ns with Some l => l | None => None end.
Proof.
  unfold ensureNode. destruct (has v ns) eqn:Hv; [reflexivity|].
  rewrite get_set. destruct (String.eqb_spec u v) as [->|]; [|reflexivity].
  unfold has in Hv. now destruct (get v ns).
Qed.

Lemma ensureNode_present (v : string) (ns : obj (option Label)) :
  has v ns = true -> ensureNode v ns = ns.
Proof. unfold ensureNode. now intros ->. Qed.

Lemma wf_ensureNode (v : string) (ns : obj (option Label)) :
  wf ns -> wf (ensureNode v ns).
Proof.
  unfold ensureNode. destruct (has v ns); [auto | apply wf_set].
Qed.

Lemma hasNode_setEdge (u v w : string) (g : Graph) :
  hasNode u (setEdge v w g)
  = if hasEdge v w g then hasNode u g
    else String.eqb u w || (String.eqb u v || hasNode u g).
Proof.
  unfold hasNode, setEdge. simpl. destruct (hasEdge v w g); [reflexivity|].
  now rewrite !has_ensureNode.
Qed.

Lemma hasNode_setEdge_mono (u v w : string) (g : Graph) :
  hasNode u g = true -> hasNode u (setEdge v w g) = true.
Proof.
  intros H. rewrite hasNode_setEdge, H.
  destruct (hasEdge v w g); [reflexivity | now rewrite !orb_true_r].
Qed.

Lemma nodes_setEdge (v w : string) (g : Graph) :
  hasNode v g = true -> hasNode w g = true ->
  _nodes (setEdge v w g) = _nodes g.
Proof.
  unfold hasNode, setEdge. simpl. intros Hv Hw.
  destruct (hasEdge v w g); [reflexivity|].
  rewrite (ensureNode_present _ _ Hv). now apply ensureNode_present.
Qed.

Lemma node_setEdge (u v w : string) (g : Graph) :
  node u (setEdge v w g) = node u g.
Proof.
  unfold node, setEdge. simpl. destruct (hasEdge v w g); [reflexivity|].
  now rewrite !get_ensureNode.
Qed.

Lemma edges_setEdge (v w : string) (g : Graph) :
  _edges (setEdge v w g)
  = if hasEdge v w g then _edges g else (_edges g ++ [(v, w)])%list.
Proof. reflexivity. Qed.

Lemma hasEdge_setEdge (a b v w : string) (g : Graph) :
  hasEdge a b (setEdge v w g) = edge_eqb (a, b) (v, w) || hasEdge a b g.
Proof.
  unfold hasEdge at 1. rewrite edges_setEdge.
  destruct (hasEdge v w g) eqn:Hvw.
  - fold (hasEdge a b g). destruct (edge_eqb (a, b) (v, w)) eqn:He;
      [|reflexivity].
    apply edge_eqb_eq in He. injection He as -> ->. exact Hvw.
  - rewrite existsb_app. simpl. fold (hasEdge a b g).
    now rewrite orb_false_r, orb_comm.
Qed.

Lemma calls_setEdge (v w : string) (g : Graph) :
  _calls (setEdge v w g)
  = (_calls g ++ [(SetEdge v w, hasEdge v w g)])%list.
Proof. reflexivity. Qed.

(** *** What every sequence of calls keeps *)

Lemma store_ok_new : store_ok new_Graph.
Proof.
  split.
  - constructor.
  - constructor.
  - intros v w [].
Qed.

Lemma store_ok_setNode (v : string) (l : Label) (g : Graph) :
  store_ok g -> store_ok (setNode v l g).
Proof.
  intros [Hn He Hends]. split.
  - apply (wf_set v (Some l)). exact Hn.
  - exact He.
  - intros a b Hin. destruct (Hends a b Hin) as [Ha Hb].
    rewrite !hasNode_setNode, Ha, Hb, !orb_true_r. auto.
Qed.

Lemma store_ok_setEdge (v w : string) (g : Graph) :
  store_ok g -> store_ok (setEdge v w g).
Proof.
  intros [Hn He Hends]. split.
  - unfold nodes, setEdge. simpl. destruct (hasEdge v w g); [exact Hn|].
    apply wf_ensureNode, wf_ensureNode, Hn.
  - unfold edges. rewrite edges_setEdge.
    destruct (hasEdge v w g) eqn:Hvw; [exact He|].
    apply NoDup_app; [exact He | repeat constructor; tauto |].
    intros x Hx [<-|[]]. now apply hasEdge_false_iff in Hvw.
  - intros a b. unfold edges. rewrite edges_setEdge, !hasNode_setEdge.
    destruct (hasEdge v w g) eqn:Hvw.
    + apply Hends.
    + rewrite in_app_iff. simpl. intros [Hin|[[= <- <-]|[]]].
      * destruct (Hends a b Hin) as [-> ->].
        now rewrite !orb_true_r.
      * rewrite !String.eqb_refl, !orb_true_r. auto.
Qed.

End GraphFacts.

Import GraphFacts.

(** ** Iteration *)

Lemma forEach_cons {A St} (x : A) (l : list A) (f : A -> St -> St) (s : St) :
  forEach (x :: l) f s = forEach l f (f x s).
Proof. reflexivity. Qed.

Lemma forEach_app {A St} (l1 l2 : list A) (f : A -> St -> St) (s : St) :
  forEach (l1 ++ l2)%list f s = forEach l2 f (forEach l1 f s).
Proof. unfold forEach. apply fold_left_app. Qed.

Lemma forEach_ext {A St} (l : list A) (f f' : A -> St -> St) (s : St) :
  (forall x t, In x l -> f x t = f' x t) ->
  forEach l f s = forEach l f' s.
Proof.
  revert s. induction l as [|x l IH]; intros s H; [reflexivity|].
  rewrite !forEach_cons, (H x s (or_introl eq_refl)).
  apply IH. intros y t Hy. apply H. now right.
Qed.

Lemma forEach_inv {A St} (P : St -> Prop) (l : list A) (f : A -> St -> St) :
  (forall x t, In x l -> P t -> P (f x t)) ->
  forall s, P s -> P (forEach l f s).
Proof.
  induction l as [|x l IH]; intros H s Hs; [exact Hs|].
  rewrite forEach_cons. apply IH.
  - intros y t Hy. apply H. now right.
  - apply H; [now left | exact Hs].
Qed.

Lemma forEach_filter {A St} (keep : A -> bool) (l : list A)
    (f : A -> St -> St) (s : St) :
  (forall x t, In x l -> keep x = false -> f x t = t) ->
  forEach (filter keep l) f s = forEach l f s.
Proof.
  revert s. induction l as [|x l IH]; intros s H; [reflexivity|].
  simpl filter. destruct (keep x) eqn:Hk.
  - rewrite !forEach_cons. apply IH. intros y t Hy. apply H. now right.
  - rewrite forEach_cons, (H x s (or_introl eq_refl) Hk).
    apply IH. intros y t Hy. apply H. now right.
Qed.

Lemma forEach_map {A B St} (h : A -> B) (l : list A) (f : B -> St -> St)
    (s : St) :
  forEach (map h l) f s = forEach l (fun x => f (h x)) s.
Proof.
  revert s. induction l as [|x l IH]; intros s; [reflexivity|].
  simpl map. rewrite !forEach_cons. apply IH.
Qed.

Lemma forEachIdx_ext {A St} (l : list A) (f f' : A -> nat -> St -> St) :
  (forall x i t, f x i t = f' x i t) ->
  forall i s, forEachIdx l i f s = forEachIdx l i f' s.
Proof.
  intros H. induction l as [|x l IH]; intros i s; [reflexivity|].
  simpl. rewrite H. apply IH.
Qed.

Lemma forOwn_ext {V St} (o : obj V) (f f' : V -> string -> St -> St)
    (s : St) :
  (forall k v t, In (k, v) o -> f v k t = f' v k t) ->
  forOwn o f s = forOwn o f' s.
Proof.
  intros H. unfold forOwn. apply forEach_ext.
  intros [k v] t Hin. simpl. now apply H.
Qed.

Lemma forOwn_inv {V St} (P : St -> Prop) (o : obj V)
    (f : V -> string -> St -> St) :
  (forall k v t, In (k, v) o -> P t -> P (f v k t)) ->
  forall s, P s -> P (forOwn o f s).
Proof.
  intros H. unfold forOwn. apply forEach_inv.
  intros [k v] t Hin. simpl. now apply H.
Qed.

Lemma forOwn_filter_item {St} (keep : string -> Operation -> bool)
    (item : obj Operation) (f : Operation -> string -> St -> St) (s : St) :
  (forall k v t, keep k v = false -> f v k t = t) ->
  forOwn (filter_item keep item) f s = forOwn item f s.
Proof.
  intros H. unfold forOwn, filter_item. apply forEach_filter.
  intros [k v] t _. simpl. apply H.
Qed.

Lemma forOwn_map_item {St} (h : Operation -> Operation)
    (item : obj Operation) (f : Operation -> string -> St -> St) (s : St) :
  forOwn (map_item h item) f s = forOwn item (fun v k => f (h v) k) s.
Proof. unfold forOwn, map_item. now rewrite forEach_map. Qed.

Lemma forOwn_on_items {St} (h : obj Operation -> obj Operation)
    (o : obj (obj Operation))
    (f : obj Operation -> string -> St -> St) (s : St) :
  forOwn (on_items h o) f s = forOwn o (fun v k => f (h v) k) s.
Proof. unfold forOwn, on_items. now rewrite forEach_map. Qed.

Lemma keys_on_items (h : obj Operation -> obj Operation)
    (o : obj (obj Operation)) :
  keys (on_items h o) = keys o.
Proof.
  unfold keys, on_items. rewrite map_map. reflexivity.
Qed.

Lemma get_on_items (h : obj Operation -> obj Operation) (k : string)
    (o : obj (obj Operation)) :
  get k (on_items h o) = option_map h (get k o).
Proof.
  induction o as [|[k' v] o IH]; simpl; [reflexivity|].
  now destruct (String.eqb k k').
Qed.

Lemma isEmpty_on_items (h : obj Operation -> obj Operation)
    (o : obj (obj Operation)) :
  isEmpty (on_items h o) = isEmpty o.
Proof. now destruct o. Qed.

(** ** The callbacks read an operation through the filter and its tags *)

Lemma kept_false_iff (includeDeprecated : bool) (method : string)
    (data : Operation) :
  kept includeDeprecated method data = false <->
  allowed method = false \/
  (includeDeprecated = false /\ deprecated data = true).
Proof.
  unfold kept.
  destruct (allowed method), includeDeprecated, (deprecated data); simpl;
    intuition congruence.
Qed.

Lemma pathsV2_single_method_skip incl completePath pathSplit data method
    tree :
  kept incl method data = false ->
  pathsV2_single_method incl completePath pathSplit data method tree = tree.
Proof.
  unfold kept, pathsV2_single_method.
  destruct (allowed method), incl, (deprecated data); simpl;
    congruence.
Qed.

Lemma pathsV2_single_method_congr incl incl' completePath pathSplit
    data data' method tree :
  kept incl method data = kept incl' method data' ->
  pathsV2_single_method incl completePath pathSplit data method tree
  = pathsV2_single_method incl' completePath pathSplit data' method tree.
Proof.
  unfold kept, pathsV2_single_method.
  destruct (allowed method), incl, incl', (deprecated data),
    (deprecated data'); simpl; congruence.
Qed.

Lemma pathsV2_last_method_skip incl completePath path index prev pid data
    method tree :
  kept incl method data = false ->
  pathsV2_last_method incl completePath path index prev pid data method tree
  = tree.
Proof.
  unfold kept, pathsV2_last_method.
  destruct (allowed method), incl, (deprecated data); simpl;
    congruence.
Qed.

Lemma pathsV2_last_method_congr incl incl' completePath path index prev pid
    data data' method tree :
  kept incl method data = kept incl' method data' ->
  pathsV2_last_method incl completePath path index prev pid data method tree
  = pathsV2_last_method incl' completePath path index prev pid data' method
      tree.
Proof.
  unfold kept, pathsV2_last_method.
  destruct (allowed method), incl, incl', (deprecated data),
    (deprecated data'); simpl; congruence.
Qed.

Lemma tags_method_skip tagDescMap incl path data method tree :
  kept incl method data = false ->
  tags_method tagDescMap incl path data method tree = tree.
Proof.
  unfold kept, tags_method.
  destruct (allowed method), incl, (deprecated data); simpl;
    congruence.
Qed.

Lemma tags_method_congr tagDescMap incl incl' path data data' method tree :
  kept incl method data = kept incl' method data' ->
  op_tags data = op_tags data' ->
  tags_method tagDescMap incl path data method tree
  = tags_method tagDescMap incl' path data' method tree.
Proof.
  unfold kept, tags_method. intros Hk <-.
  destruct (allowed method), incl, incl', (deprecated data),
    (deprecated data'); simpl in *; congruence.
Qed.

Lemma webhook_method_skip path data method tree :
  deprecated data = true ->
  webhook_method false path data method tree = tree.
Proof. unfold webhook_method. now intros ->. Qed.

Lemma webhook_method_congr incl incl' path data data' method tree :
  incl || negb (deprecated data) = incl' || negb (deprecated data') ->
  webhook_method incl path data method tree
  = webhook_method incl' path data' method tree.
Proof.
  unfold webhook_method.
  destruct incl, incl', (deprecated data), (deprecated data'); simpl;
    congruence.
Qed.

(** ** Changing the operations of a document *)

Section Transport.

(** [T] changes every path item (and webhook item); the callbacks run
    with [incl'] on the changed items do what they do with [incl] on
    the original ones. *)
Variable T : obj Operation -> obj Operation.
Variables incl incl' : bool.

Hypothesis T_single : forall item completePath pathSplit tree,
  forOwn (T item) (pathsV2_single_method incl' completePath pathSplit) tree
  = forOwn item (pathsV2_single_method incl completePath pathSplit) tree.

Hypothesis T_last : forall item completePath path index prev pid tree,
  forOwn (T item)
    (pathsV2_last_method incl' completePath path index prev pid) tree
  = forOwn item
      (pathsV2_last_method incl completePath path index prev pid) tree.

Hypothesis T_tags : forall item tagDescMap path tree,
  forOwn (T item) (tags_method tagDescMap incl' path) tree
  = forOwn item (tags_method tagDescMap incl path) tree.

Lemma pathsV2_path_transport (o o' : OpenAPI) completePath tree :
  paths o' = on_items T (paths o) ->
  pathsV2_path o' incl' completePath tree
  = pathsV2_path o incl completePath tree.
Proof.
  intros Hp. unfold pathsV2_path.
  destruct (Nat.eqb (length (pathSplit_of completePath)) 1).
  - rewrite Hp, get_on_items.
    destruct (get completePath (paths o)); simpl; [apply T_single | auto].
  - apply forEachIdx_ext. intros path index t.
    unfold pathsV2_segment.
    destruct (Nat.eqb (index + 1) (length (pathSplit_of completePath)));
      [|reflexivity].
    rewrite Hp, get_on_items.
    destruct (get completePath (paths o)); simpl; [apply T_last | auto].
Qed.

Lemma pathsV2_transport (o o' : OpenAPI) :
  paths o' = on_items T (paths o) ->
  _generateTreeFromPathsV2 o' incl' = _generateTreeFromPathsV2 o incl.
Proof.
  intros Hp. unfold _generateTreeFromPathsV2.
  rewrite Hp, keys_on_items.
  destruct (isEmpty (keys (paths o))); [reflexivity|].
  apply forEach_ext. intros cp t _. now apply pathsV2_path_transport.
Qed.

Lemma tags_transport (o o' : OpenAPI) :
  paths o' = on_items T (paths o) -> tags o' = tags o ->
  _generateTreeFromTags o' incl' = _generateTreeFromTags o incl.
Proof.
  intros Hp Ht. unfold _generateTreeFromTags.
  rewrite Hp, Ht, forOwn_on_items.
  apply forOwn_ext. intros path item t _. apply T_tags.
Qed.

Hypothesis T_webhook : forall item path tree,
  forOwn (T item) (webhook_method incl' path) tree
  = forOwn item (webhook_method incl path) tree.

Lemma webhooks_transport (o o' : OpenAPI) tree :
  webhooks o' = on_items T (webhooks o) ->
  _generateWebhookEndpoints o' tree incl'
  = _generateWebhookEndpoints o tree incl.
Proof.
  intros Hw. unfold _generateWebhookEndpoints.
  rewrite Hw, isEmpty_on_items, forOwn_on_items.
  apply forOwn_ext. intros path item t _. apply T_webhook.
Qed.

Lemma module_exports_transport (o : OpenAPI) fs wh :
  module_exports (on_operations T o)
    {| folderStrategy := fs; includeWebhooks := wh;
       includeDeprecated := incl' |}
  = module_exports o
      {| folderStrategy := fs; includeWebhooks := wh;
         includeDeprecated := incl |}.
Proof.
  unfold module_exports. simpl.
  rewrite (@tags_transport o (on_operations T o) eq_refl eq_refl).
  rewrite (@pathsV2_transport o (on_operations T o) eq_refl).
  destruct fs as [s|]; [|reflexivity].
  destruct (String.eqb s "tags"); [|destruct (String.eqb s "paths")];
    try reflexivity;
    destruct wh; try reflexivity;
    now rewrite (@webhooks_transport o (on_operations T o) _ eq_refl).
Qed.

End Transport.

(** ** C4: an unknown folder strategy *)

(** C4. For every document and every options object whose
    [folderStrategy] is neither ['paths'] nor ['tags'], the exported
    function throws the configuration error, having made no call on any
    graph: no node, no edge, and no tree is returned. *)
Theorem C4_invalid_strategy_throws_first (openapi : OpenAPI)
    (options : Options) :
  folderStrategy options <> Some "paths" ->
  folderStrategy options <> Some "tags" ->
  module_exports openapi options
  = Thrown "generateSkeletonTreeFromOpenAPI~folderStrategy not valid" [].
Proof.
  intros Hp Ht. unfold module_exports.
  destruct (folderStrategy options) as [s|]; [|reflexivity].
  destruct (String.eqb_spec s "tags") as [->|_]; [congruence|].
  destruct (String.eqb_spec s "paths") as [->|_]; [congruence|].
  reflexivity.
Qed.

Lemma C4_witness :
  module_exports
    {| paths := [("/user", [("get", {| deprecated := false;
                                       op_tags := [] |})])];
       tags := []; webhooks := [] |}
    {| folderStrategy := Some "Paths"; includeWebhooks := true;
       includeDeprecated := false |}
  = Thrown "generateSkeletonTreeFromOpenAPI~folderStrategy not valid" [].
Proof.
  apply C4_invalid_strategy_throws_first; simpl; discriminate.
Defined.

(** ** C5: deprecated operations *)

(** C5. A deprecated operation under an allowed method (either folder
    strategy) or under any webhook key: with [includeDeprecated] false
    its callback makes no call at all, and the exported function returns
    what it returns for the document without the deprecated operations;
    with [includeDeprecated] true its callback does exactly what it does
    for the same operation not deprecated, and the exported function
    returns what it returns for the document with every operation marked
    not deprecated (whatever [includeDeprecated] is then). *)
Theorem C5_deprecation_filtering (openapi : OpenAPI)
    (fs : option string) (wh : bool) :
  (forall data, deprecated data = true ->
     (forall completePath pathSplit method tree,
        pathsV2_single_method false completePath pathSplit data method tree
        = tree) /\
     (forall completePath path index prev pid method tree,
        pathsV2_last_method false completePath path index prev pid data
          method tree = tree) /\
     (forall tagDescMap path method tree,
        tags_method tagDescMap false path data method tree = tree) /\
     (forall path method tree,
        webhook_method false path data method tree = tree)) /\
  (forall data,
     (forall completePath pathSplit method tree,
        pathsV2_single_method true completePath pathSplit data method tree
        = pathsV2_single_method true completePath pathSplit
            (undeprecate data) method tree) /\
     (forall completePath path index prev pid method tree,
        pathsV2_last_method true completePath path index prev pid data
          method tree
        = pathsV2_last_method true completePath path index prev pid
            (undeprecate data) method tree) /\
     (forall tagDescMap path method tree,
        tags_method tagDescMap true path data method tree
        = tags_method tagDescMap true path (undeprecate data) method tree) /\
     (forall path method tree,
        webhook_method true path data method tree
        = webhook_method true path (undeprecate data) method tree)) /\
  module_exports openapi
    {| folderStrategy := fs; includeWebhooks := wh;
       includeDeprecated := false |}
  = module_exports
      (on_operations (filter_item (fun _ data => negb (deprecated data)))
         openapi)
      {| folderStrategy := fs; includeWebhooks := wh;
         includeDeprecated := false |} /\
  (forall b,
     module_exports openapi
       {| folderStrategy := fs; includeWebhooks := wh;
          includeDeprecated := true |}
     = module_exports (on_operations (map_item undeprecate) openapi)
         {| folderStrategy := fs; includeWebhooks := wh;
            includeDeprecated := b |}).
Proof.
  split; [|split; [|split]].
  - intros data Hd. split; [|split; [|split]]; intros.
    + apply pathsV2_single_method_skip, kept_false_iff. auto.
    + apply pathsV2_last_method_skip, kept_false_iff. auto.
    + apply tags_method_skip, kept_false_iff. auto.
    + now apply webhook_method_skip.
  - intros data. split; [|split; [|split]]; intros.
    + apply pathsV2_single_method_congr. unfold kept. simpl.
      now destruct (allowed method).
    + apply pathsV2_last_method_congr. unfold kept. simpl.
      now destruct (allowed method).
    + apply tags_method_congr; [|reflexivity]. unfold kept. simpl.
      now destruct (allowed method).
    + now apply webhook_method_congr.
  - symmetry. apply module_exports_transport; intros;
      apply forOwn_filter_item; intros k v t Hk;
      apply negb_false_iff in Hk.
    + apply pathsV2_single_method_skip, kept_false_iff. auto.
    + apply pathsV2_last_method_skip, kept_false_iff. auto.
    + apply tags_method_skip, kept_false_iff. auto.
    + now apply webhook_method_skip.
  - intros b. symmetry. apply module_exports_transport; intros;
      rewrite forOwn_map_item; apply forOwn_ext; intros k v t _.
    + apply pathsV2_single_method_congr. unfold kept. simpl.
      now rewrite !orb_true_r.
    + apply pathsV2_last_method_congr. unfold kept. simpl.
      now rewrite !orb_true_r.
    + apply tags_method_congr; [|reflexivity]. unfold kept. simpl.
      now rewrite !orb_true_r.
    + apply webhook_method_congr. simpl. now rewrite !orb_true_r.
Qed.

Lemma C5_witness :
  let data := {| deprecated := true; op_tags := ["Pet"] |} in
  let tree := setNode "root:collection" root_value new_Graph in
  deprecated data = true /\
  tags_method [] false "/pets" data "get" tree = tree /\
  webhook_method false "newPet" data "post" tree = tree.
Proof.
  cbv zeta. split; [reflexivity|].
  destruct (C5_deprecation_filtering
              {| paths := []; tags := []; webhooks := [] |} None false)
    as [Hskip _].
  destruct (Hskip {| deprecated := true; op_tags := ["Pet"] |} eq_refl)
    as [_ [_ [Htags Hhook]]].
  split; [apply Htags | apply Hhook].
Defined.

(** ** C3: keys that are not HTTP methods *)

Lemma allowed_iff (method : string) :
  allowed method = true <->
  In method http_methods \/ In method Object_prototype.
Proof.
  unfold allowed, http_methods.
  destruct (get method ALLOWED_HTTP_METHODS) as [b|] eqn:Hget.
  - assert (Hin := get_in _ _ Hget).
    assert (Hb : b = true).
    { simpl in Hin.
      repeat (destruct Hin as [Hin|Hin]; [now injection Hin|]).
      destruct Hin. }
    subst b. split; [intros _|reflexivity].
    left. change (In (fst (method, true)) (map fst ALLOWED_HTTP_METHODS)).
    now apply in_map.
  - apply get_none_iff in Hget. unfold inherited.
    rewrite existsb_exists. split.
    + intros [x [Hx He]]. apply String.eqb_eq in He. subst x. now right.
    + intros [H|H]; [contradiction|].
      exists method. split; [exact H | apply String.eqb_refl].
Qed.

Lemma webhook_method_adds incl path data method tree :
  incl || negb (deprecated data) = true ->
  let tree' := webhook_method incl path data method tree in
  hasNode (PATH_WEBHOOK ++ ":" ++ path ++ ":" ++ method) tree' = true /\
  hasEdge (PATH_WEBHOOK ++ ":folder")
          (PATH_WEBHOOK ++ ":" ++ path ++ ":" ++ method) tree' = true.
Proof.
  intros Hk. unfold webhook_method.
  replace (negb incl && deprecated data) with false
    by (destruct incl, (deprecated data); simpl in *; congruence).
  split.
  - apply hasNode_setEdge_mono. rewrite hasNode_setNode.
    now rewrite String.eqb_refl.
  - rewrite hasEdge_setEdge.
    assert (H : forall e, edge_eqb e e = true)
      by (intros e; now apply edge_eqb_eq).
    now rewrite H.
Qed.

(** C3, as the code has it.  In both folder strategies a key of a path
    item whose lookup in [ALLOWED_HTTP_METHODS] is falsy (as it is for
    every key that is neither one of the nine methods nor a property
    name every object inherits) makes no call on the graph, and the
    strategy returns what it returns for the document without such keys.
    The webhook pass has no such filter: any key of a webhook item whose
    operation passes the deprecation test gets its node and its edge. *)
Theorem C3_disallowed_keys_skipped_under_paths_only (openapi : OpenAPI)
    (incl : bool) :
  (forall method, ~ In method http_methods ->
                  ~ In method Object_prototype -> allowed method = false) /\
  (forall method data, allowed method = false ->
     (forall completePath pathSplit tree,
        pathsV2_single_method incl completePath pathSplit data method tree
        = tree) /\
     (forall completePath path index prev pid tree,
        pathsV2_last_method incl completePath path index prev pid data
          method tree = tree) /\
     (forall tagDescMap path tree,
        tags_method tagDescMap incl path data method tree = tree)) /\
  _generateTreeFromPathsV2
    (on_paths (filter_item (fun method _ => allowed method)) openapi) incl
  = _generateTreeFromPathsV2 openapi incl /\
  _generateTreeFromTags
    (on_paths (filter_item (fun method _ => allowed method)) openapi) incl
  = _generateTreeFromTags openapi incl /\
  (forall path data method tree,
     incl || negb (deprecated data) = true ->
     let tree' := webhook_method incl path data method tree in
     hasNode (PATH_WEBHOOK ++ ":" ++ path ++ ":" ++ method) tree' = true /\
     hasEdge (PATH_WEBHOOK ++ ":folder")
             (PATH_WEBHOOK ++ ":" ++ path ++ ":" ++ method) tree' = true).
Proof.
  split.
  { intros method Hm Hp. apply not_true_is_false. intros Ha.
    apply allowed_iff in Ha. tauto. }
  split; [|split; [|split]].
  - intros method data Ha. split; [|split]; intros.
    + apply pathsV2_single_method_skip, kept_false_iff. auto.
    + apply pathsV2_last_method_skip, kept_false_iff. auto.
    + apply tags_method_skip, kept_false_iff. auto.
  - apply pathsV2_transport
      with (T := filter_item (fun method _ => allowed method));
      [| |reflexivity]; intros; apply forOwn_filter_item; intros k v t Hk.
    + apply pathsV2_single_method_skip, kept_false_iff. auto.
    + apply pathsV2_last_method_skip, kept_false_iff. auto.
  - apply tags_transport
      with (T := filter_item (fun method _ => allowed method));
      [|reflexivity|reflexivity]; intros; apply forOwn_filter_item;
      intros k v t Hk.
    apply tags_method_skip, kept_false_iff. auto.
  - intros path data method tree Hk. now apply webhook_method_adds.
Qed.

Lemma C3_witness :
  allowed "parameters" = false /\
  pathsV2_single_method false "/user" ["user"]
    {| deprecated := false; op_tags := [] |} "parameters"
    (_generateTreeFromPathsV2
       {| paths := []; tags := []; webhooks := [] |} false)
  = _generateTreeFromPathsV2
      {| paths := []; tags := []; webhooks := [] |} false.
Proof.
  split; [reflexivity|].
  pose proof (C3_disallowed_keys_skipped_under_paths_only
                {| paths := []; tags := []; webhooks := [] |} false)
    as [_ [Hskip _]].
  destruct (Hskip "parameters" {| deprecated := false; op_tags := [] |}
              eq_refl) as [Hsingle _].
  apply Hsingle.
Defined.

(** C3 as stated fails on webhooks: the key [parameters] of a webhook
    item is not an HTTP method, yet the tree returned has a node and an
    edge for it. *)
Lemma C3_counterexample :
  exists g,
    module_exports
      {| paths := []; tags := [];
         webhooks := [("newPet",
                       [("parameters",
                         {| deprecated := false; op_tags := [] |})])] |}
      {| folderStrategy := Some "paths"; includeWebhooks := true;
         includeDeprecated := false |}
    = Returned g /\
    ~ In "parameters" http_methods /\
    In "path~webhook:newPet:parameters" (nodes g) /\
    In ("path~webhook:folder", "path~webhook:newPet:parameters") (edges g).
Proof.
  eexists. split; [reflexivity|]. split.
  - simpl. intros H.
    repeat (destruct H as [H|H]; [discriminate H|]). exact H.
  - vm_compute. auto 10.
Qed.

(** ** Strings and path segments *)

Module StringFacts.

Lemma length_app (a b : string) :
  String.length (a ++ b) = String.length a + String.length b.
Proof. induction a as [|c a IH]; simpl; [reflexivity | now rewrite IH]. Qed.

Lemma app_assoc (a b c : string) : (a ++ b) ++ c = a ++ (b ++ c).
Proof. induction a as [|x a IH]; simpl; [reflexivity | now rewrite IH]. Qed.

Lemma app_nil_r (a : string) : a ++ "" = a.
Proof. induction a as [|x a IH]; simpl; [reflexivity | now rewrite IH]. Qed.

Lemma app_inv_head (a b c : string) : a ++ b = a ++ c -> b = c.
Proof.
  induction a as [|x a IH]; simpl; [auto|]. intros [= H]. auto.
Qed.


Lemma mentions_app (c : ascii) (a b : string) :
  mentions c (a ++ b) = mentions c a || mentions c b.
Proof.
  induction a as [|x a IH]; [reflexivity|]. simpl.
  now rewrite IH, orb_assoc.
Qed.

(** *** [join] *)

Lemma join_single (x : string) : join [x] = x.
Proof. reflexivity. Qed.

Lemma join_cons (x y : string) (l : list string) :
  join (x :: y :: l) = x ++ "/" ++ join (y :: l).
Proof. reflexivity. Qed.



Lemma firstn_snoc {A} (k : nat) (l : list A) (d : A) :
  k < List.length l -> firstn (S k) l = (firstn k l ++ [nth k l d])%list.
Proof.
  revert l. induction k as [|k IH]; intros [|a l] H; simpl in *; try lia.
  - reflexivity.
  - f_equal. apply IH. lia.
Qed.



(** *** [split] and [join] on segments *)

Lemma split_slashfree (s : string) :
  forallb slashfree (split "/" s) = true.
Proof.
  induction s as [|c r IH]; [reflexivity|]. simpl.
  destruct (Ascii.eqb c "/") eqn:Hc; [exact IH|].
  destruct (split "/" r) as [|h t]; simpl in *; [now rewrite Hc|].
  now rewrite Hc.
Qed.

Lemma split_one (a : string) : slashfree a = true -> split "/" a = [a].
Proof.
  induction a as [|c a IH]; [reflexivity|]. simpl.
  intros H. apply andb_true_iff in H. destruct H as [Hc Ha].
  apply negb_true_iff in Hc. rewrite Hc, (IH Ha). reflexivity.
Qed.

Lemma split_app (a r : string) :
  slashfree a = true -> split "/" (a ++ "/" ++ r) = a :: split "/" r.
Proof.
  induction a as [|c a IH]; [reflexivity|]. simpl.
  intros H. apply andb_true_iff in H. destruct H as [Hc Ha].
  apply negb_true_iff in Hc. rewrite Hc.
  change (a ++ String "/" r) with (a ++ "/" ++ r). now rewrite (IH Ha).
Qed.

Lemma split_join (l : list string) :
  l <> [] -> forallb slashfree l = true -> split "/" (join l) = l.
Proof.
  induction l as [|a l IH]; intros Hne Hall; [congruence|].
  simpl in Hall. apply andb_true_iff in Hall. destruct Hall as [Ha Hl].
  destruct l as [|b l].
  - now apply split_one.
  - rewrite join_cons, split_app by exact Ha.
    f_equal. apply IH; [discriminate | exact Hl].
Qed.

Lemma segment_slashfree (l : list string) :
  forallb segment l = true -> forallb slashfree l = true.
Proof.
  induction l as [|a l IH]; [reflexivity|]. simpl. unfold segment at 1.
  rewrite !andb_true_iff. intros [[_ Ha] Hl]. auto.
Qed.

Lemma join_slash (l : list string) :
  l <> [] -> forallb segment l = true -> join l <> "/".
Proof.
  intros Hne Hall Hj. destruct l as [|a l]; [congruence|].
  simpl in Hall. apply andb_true_iff in Hall. destruct Hall as [Ha _].
  unfold segment in Ha. apply andb_true_iff in Ha. destruct Ha as [Hne' Hsf].
  destruct a as [|c a]; [discriminate|].
  destruct l as [|b l].
  - rewrite join_single in Hj. injection Hj as -> _. discriminate.
  - rewrite join_cons in Hj. simpl in Hj. injection Hj as -> _.
    discriminate.
Qed.

(** Two segment lists with the same identifier are the same list. *)
Lemma join_inj (s s' : list string) :
  segments s -> segments s' -> join s = join s' -> s = s'.
Proof.
  intros [Hne [->|Hs]] [Hne' [->|Hs']] Hj.
  - reflexivity.
  - exfalso. symmetry in Hj. revert Hj. now apply join_slash.
  - exfalso. revert Hj. now apply join_slash.
  - rewrite <- (split_join Hne (segment_slashfree _ Hs)).
    rewrite <- (split_join Hne' (segment_slashfree _ Hs')).
    now rewrite Hj.
Qed.

Lemma folderId_inj (s s' : list string) :
  segments s -> segments s' -> folderId s = folderId s' -> s = s'.
Proof.
  intros Hs Hs' H. apply join_inj; auto.
  unfold folderId in H. now apply app_inv_head in H.
Qed.

(** *** The segments of a declared path *)

Lemma compact_segments (l : list string) :
  forallb slashfree l = true -> forallb segment (compact l) = true.
Proof.
  induction l as [|a l IH]; [reflexivity|]. simpl.
  intros H. apply andb_true_iff in H. destruct H as [Ha Hl].
  destruct (String.eqb a "") eqn:He; simpl; [auto|].
  unfold segment at 1. rewrite He, Ha. simpl. auto.
Qed.

Lemma pathSplit_of_shape (completePath : string) :
  pathSplit_of completePath = ["/"] \/
  forallb segment (pathSplit_of completePath) = true.
Proof.
  unfold pathSplit_of.
  destruct (String.eqb_spec completePath "/") as [->|_]; [now left|].
  right. apply compact_segments, split_slashfree.
Qed.

Lemma forallb_firstn {A} (p : A -> bool) (k : nat) (l : list A) :
  forallb p l = true -> forallb p (firstn k l) = true.
Proof.
  revert l. induction k as [|k IH]; intros [|a l]; simpl; auto.
  rewrite !andb_true_iff. intros [-> H]. auto.
Qed.

Lemma segments_firstn (completePath : string) (k : nat) :
  1 <= k -> k <= List.length (pathSplit_of completePath) ->
  segments (firstn k (pathSplit_of completePath)).
Proof.
  intros H1 H2. split.
  - destruct (pathSplit_of completePath); simpl in *; [lia|].
    destruct k; [lia | discriminate].
  - destruct (pathSplit_of_shape completePath) as [->|H].
    + left. destruct k as [|[|k]]; simpl in *; [lia|reflexivity|reflexivity].
    + right. now apply forallb_firstn.
Qed.

(** The parent computed by the source for the segment of index [i]. *)
Lemma parentId_firstn (l : list string) (i : nat) :
  i < List.length l ->
  parentId (firstn (i + 1) l)
  = if Nat.eqb i 0 then "root:collection"
    else "path:folder:" ++ join (firstn i l).
Proof.
  intros Hi. unfold parentId. rewrite Nat.add_1_r, removelast_firstn by exact Hi.
  destruct i as [|i]; [reflexivity|].
  destruct l as [|a l]; simpl in *; [lia | reflexivity].
Qed.

Lemma last_firstn (l : list string) (i : nat) (d : string) :
  i < List.length l -> last (firstn (i + 1) l) d = nth i l d.
Proof.
  intros Hi. rewrite Nat.add_1_r, (firstn_snoc _ d Hi). apply last_last.
Qed.

End StringFacts.

Import StringFacts.

(** ** Sequences of calls *)

Section Steps.

Variable ok : Graph -> Call -> Prop.

Lemma steps_trans (g g' g'' : Graph) :
  steps ok g g' -> steps ok g' g'' -> steps ok g g''.
Proof.
  intros H H'. induction H' as [|h v l _ IH Hok|h v w _ IH Hok].
  - exact H.
  - now apply steps_node.
  - now apply steps_edge.
Qed.

Lemma steps_node1 (g : Graph) (v : string) (l : Label) :
  ok g (SetNode v l) -> steps ok g (setNode v l g).
Proof. intros H. apply steps_node; [apply steps_refl | exact H]. Qed.

Lemma steps_edge1 (g : Graph) (v w : string) :
  ok g (SetEdge v w) -> steps ok g (setEdge v w g).
Proof. intros H. apply steps_edge; [apply steps_refl | exact H]. Qed.

Lemma steps_hasNode (g g' : Graph) (u : string) :
  steps ok g g' -> hasNode u g = true -> hasNode u g' = true.
Proof.
  intros H Hu. induction H as [|h v l _ IH _|h v w _ IH _].
  - exact Hu.
  - rewrite hasNode_setNode, IH. apply orb_true_r.
  - now apply hasNode_setEdge_mono.
Qed.

Lemma steps_hasEdge (g g' : Graph) (a b : string) :
  steps ok g g' -> hasEdge a b g = true -> hasEdge a b g' = true.
Proof.
  intros H Hu. induction H as [|h v l _ IH _|h v w _ IH _].
  - exact Hu.
  - exact IH.
  - rewrite hasEdge_setEdge, IH. apply orb_true_r.
Qed.

Lemma steps_store_ok (g g' : Graph) :
  steps ok g g' -> store_ok g -> store_ok g'.
Proof.
  intros H Hg. induction H as [|h v l _ IH _|h v w _ IH _].
  - exact Hg.
  - now apply store_ok_setNode.
  - now apply store_ok_setEdge.
Qed.

Lemma steps_forEach {A} (l : list A) (f : A -> Graph -> Graph) (g : Graph) :
  (forall x t, In x l -> steps ok g t -> steps ok t (f x t)) ->
  steps ok g (forEach l f g).
Proof.
  intros H.
  assert (Hgen : forall t, steps ok g t -> steps ok g (forEach l f t)).
  { induction l as [|x l IH]; intros t Ht; [exact Ht|].
    rewrite forEach_cons. apply IH.
    - intros y u Hy. apply H. now right.
    - apply steps_trans with t; [exact Ht|].
      apply H; [now left | exact Ht]. }
  apply Hgen, steps_refl.
Qed.

Lemma steps_forOwn {V} (o : obj V) (f : V -> string -> Graph -> Graph)
    (g : Graph) :
  (forall k v t, In (k, v) o -> steps ok g t -> steps ok t (f v k t)) ->
  steps ok g (forOwn o f g).
Proof.
  intros H. unfold forOwn. apply steps_forEach.
  intros [k v] t Hin. simpl. now apply H.
Qed.

End Steps.

Lemma steps_weaken (ok ok' : Graph -> Call -> Prop) (g g' : Graph) :
  (forall h c, ok h c -> ok' h c) -> steps ok g g' -> steps ok' g g'.
Proof.
  intros Hw H. induction H as [|h v l _ IH Hok|h v w _ IH Hok].
  - apply steps_refl.
  - apply steps_node; auto.
  - apply steps_edge; auto.
Qed.

(** [_.forEach] with an index: the callback sees the element of each
    index in turn. *)
Lemma forEachIdx_nth {A St} (P : nat -> St -> Prop)
    (f : A -> nat -> St -> St) (l : list A) (d : A) :
  (forall i t, i < List.length l -> P i t -> P (S i) (f (nth i l d) i t)) ->
  forall t, P 0 t -> P (List.length l) (forEachIdx l 0 f t).
Proof.
  intros Hstep.
  assert (Hgen : forall suf pre t,
             l = (pre ++ suf)%list -> P (List.length pre) t ->
             P (List.length l) (forEachIdx suf (List.length pre) f t)).
  { induction suf as [|x suf IH]; intros pre t Hl Ht.
    - simpl. rewrite List.app_nil_r in Hl. now subst.
    - simpl.
      replace (S (List.length pre)) with (List.length (pre ++ [x])%list)
        by (rewrite List.length_app; simpl; lia).
      apply IH.
      + now rewrite <- List.app_assoc.
      + rewrite List.length_app. simpl. rewrite Nat.add_1_r.
        replace x with (nth (List.length pre) l d).
        * apply Hstep; [|exact Ht].
          rewrite Hl, List.length_app. simpl. lia.
        * rewrite Hl, app_nth2, Nat.sub_diag by lia. reflexivity. }
  intros t Ht. now apply (Hgen l [] t).
Qed.

(** ** The path strategy as a sequence of calls *)

Lemma steps_mkdir (s : list string) (t : Graph) :
  segments s -> store_ok t ->
  hasNode (folderId s) t = false -> hasNode (parentId s) t = true ->
  steps paths_ok t
    (setEdge (parentId s) (folderId s)
       (setNode (folderId s) (path_folder (last s "") (join s)) t)).
Proof.
  intros Hs Hok Hf Hp. apply steps_edge; [apply steps_node1|].
  - left. exists s. auto.
  - unfold paths_ok. rewrite !hasNode_setNode, Hp, String.eqb_refl, orb_true_r.
    split; [reflexivity|]. split; [reflexivity|].
    left. exists s. split; [exact Hs|]. do 2 (split; [reflexivity|]).
    rewrite hasEdge_setNode. apply hasEdge_false_iff. intros Hin.
    destruct (ok_ends Hok _ _ Hin). congruence.
Qed.

Lemma steps_request (s : list string) (completePath method : string)
    (t : Graph) :
  segments s -> allowed method = true -> hasNode (folderId s) t = true ->
  steps paths_ok t
    (setEdge (folderId s) (requestId s method)
       (setNode (requestId s method)
          (path_request completePath method (join s)) t)).
Proof.
  intros Hs Ha Hf. apply steps_edge; [apply steps_node1|].
  - right. exists s, completePath, method. auto.
  - unfold paths_ok. rewrite !hasNode_setNode, Hf, String.eqb_refl, orb_true_r.
    split; [reflexivity|]. split; [reflexivity|].
    right. exists s, method. split; [exact Hs|].
    do 2 (split; [reflexivity|]).
    eexists. rewrite node_setNode, String.eqb_refl. split; reflexivity.
Qed.

Lemma pathsV2_last_method_steps incl completePath (segs : list string)
    (i : nat) data method (t : Graph) :
  i < List.length segs -> segments (firstn (i + 1) segs) -> store_ok t ->
  hasNode (parentId (firstn (i + 1) segs)) t = true ->
  let t' := pathsV2_last_method incl completePath (nth i segs "") i
              (join (firstn i segs)) (join (firstn (i + 1) segs))
              data method t in
  steps paths_ok t t' /\
  (kept incl method data = true ->
   hasNode (folderId (firstn (i + 1) segs)) t' = true).
Proof.
  intros Hi Hs Hok Hp. unfold pathsV2_last_method, kept. cbv zeta.
  destruct (allowed method) eqn:Ha; cbn [negb andb];
    [|split; [apply steps_refl | discriminate]].
  destruct (negb incl && deprecated data) eqn:Hd.
  { split; [apply steps_refl|].
    destruct incl, (deprecated data); simpl in *; discriminate. }
  rewrite <- (parentId_firstn segs Hi), <- (last_firstn segs "" Hi).
  set (s := firstn (i + 1) segs) in *.
  change ("path:folder:" ++ join s) with (folderId s).
  change ("path:request:" ++ join s ++ ":" ++ method)
    with (requestId s method).
  destruct (hasNode (folderId s) t) eqn:Hf; cbn [negb].
  - split; [now apply steps_request|]. intros _.
    apply hasNode_setEdge_mono. rewrite hasNode_setNode, Hf.
    apply orb_true_r.
  - assert (Hf' : hasNode (folderId s)
                    (setEdge (parentId s) (folderId s)
                       (setNode (folderId s)
                          (path_folder (last s "") (join s)) t)) = true).
    { apply hasNode_setEdge_mono. rewrite hasNode_setNode.
      now rewrite String.eqb_refl. }
    split.
    + apply (steps_trans (steps_mkdir Hs Hok Hf Hp)).
      now apply steps_request.
    + intros _. apply hasNode_setEdge_mono. rewrite hasNode_setNode, Hf'.
      apply orb_true_r.
Qed.

(** What the callback does on a segment that is not the last one. *)
Lemma pathsV2_segment_inner openapi incl completePath (segs : list string)
    (i : nat) (t : Graph) :
  i + 1 < List.length segs ->
  hasNode (parentId (firstn (i + 1) segs)) t = true ->
  let s := firstn (i + 1) segs in
  let t' := pathsV2_segment openapi incl completePath segs (nth i segs "")
              i t in
  hasNode (folderId s) t' = true /\
  hasEdge (parentId s) (folderId s) t' = true /\
  (forall v, hasNode v t' = String.eqb v (folderId s) || hasNode v t) /\
  (exists cs,
      _calls t' = (_calls t ++ cs)%list /\
      Forall (fun c =>
                c = (SetNode (folderId s) (path_folder (last s "") (join s)),
                     false) \/
                c = (SetEdge (parentId s) (folderId s), false)) cs) /\
  (segments s -> steps paths_ok t t').
Proof.
  intros Hi Hp. cbv zeta. unfold pathsV2_segment, slice0.
  assert (Hi' : i < List.length segs) by lia.
  destruct (Nat.eqb_spec (i + 1) (List.length segs)) as [He|_]; [lia|].
  rewrite <- (parentId_firstn segs Hi'), <- (last_firstn segs "" Hi').
  set (s := firstn (i + 1) segs) in *.
  change ("path:folder:" ++ join s) with (folderId s).
  set (lbl := path_folder (last s "") (join s)).
  destruct (hasNode (folderId s) t) eqn:Hf; cbn [negb].
  - destruct (hasEdge (parentId s) (folderId s) t) eqn:He; cbn [negb].
    + repeat split; auto.
      * intros v. destruct (String.eqb_spec v (folderId s)) as [->|];
          [now rewrite Hf | reflexivity].
      * exists []. now rewrite List.app_nil_r.
      * intros _. apply steps_refl.
    + repeat split.
      * now apply hasNode_setEdge_mono.
      * rewrite hasEdge_setEdge.
        replace (edge_eqb (parentId s, folderId s) (parentId s, folderId s))
          with true by (symmetry; now apply edge_eqb_eq).
        reflexivity.
      * intros v. rewrite hasNode_setEdge, He.
        destruct (String.eqb_spec v (folderId s)) as [->|]; cbn [orb];
          [reflexivity|].
        destruct (String.eqb_spec v (parentId s)) as [->|]; [|reflexivity].
        now rewrite Hp.
      * exists [(SetEdge (parentId s) (folderId s), false)].
        rewrite calls_setEdge, He. split; [reflexivity|].
        constructor; [now right | constructor].
      * intros Hs. apply steps_edge1. unfold paths_ok.
        split; [exact Hp|]. split; [exact Hf|].
        left. exists s. auto.
  - assert (Hp' : hasNode (parentId s) (setNode (folderId s) lbl t) = true)
      by (rewrite hasNode_setNode, Hp; apply orb_true_r).
    assert (Hf' : hasNode (folderId s) (setNode (folderId s) lbl t) = true)
      by (rewrite hasNode_setNode; now rewrite String.eqb_refl).
    rewrite hasEdge_setNode.
    destruct (hasEdge (parentId s) (folderId s) t) eqn:He; cbn [negb].
    + repeat split; auto.
      * intros v. now rewrite hasNode_setNode.
      * exists [(SetNode (folderId s) lbl, false)].
        rewrite calls_setNode, Hf. split; [reflexivity|].
        constructor; [now left | constructor].
      * intros Hs. apply steps_node1. left. exists s. auto.
    + repeat split.
      * now apply hasNode_setEdge_mono.
      * rewrite hasEdge_setEdge.
        replace (edge_eqb (parentId s, folderId s) (parentId s, folderId s))
          with true by (symmetry; now apply edge_eqb_eq).
        reflexivity.
      * intros v. rewrite hasNode_setEdge, hasEdge_setNode, He.
        rewrite hasNode_setNode.
        destruct (String.eqb_spec v (folderId s)) as [->|]; cbn [orb];
          [reflexivity|].
        destruct (String.eqb_spec v (parentId s)) as [->|]; [|reflexivity].
        now rewrite Hp.
      * exists [(SetNode (folderId s) lbl, false);
                (SetEdge (parentId s) (folderId s), false)].
        rewrite calls_setEdge, hasEdge_setNode, He, calls_setNode, Hf.
        rewrite <- List.app_assoc. split; [reflexivity|].
        constructor; [now left|]. constructor; [now right | constructor].
      * intros Hs. apply steps_edge; [apply steps_node1|].
        -- left. exists s. auto.
        -- unfold paths_ok. split; [exact Hp'|]. split; [exact Hf'|].
           left. exists s. split; [exact Hs|].
           do 2 (split; [reflexivity|]).
           now rewrite hasEdge_setNode.
Qed.

Lemma pathsV2_single_as_last incl completePath (segs : list string) data
    method t :
  List.length segs = 1 ->
  pathsV2_single_method incl completePath segs data method t
  = pathsV2_last_method incl completePath (nth 0 segs "") 0
      (join (firstn 0 segs)) (join (firstn (0 + 1) segs)) data method t.
Proof.
  destruct segs as [|p0 [|p1 segs]]; try discriminate. reflexivity.
Qed.

(** The callback run on one declared path: a sequence of calls of the
    path strategy, after which every proper prefix of the path has its
    folder, linked to its parent. *)
Lemma pathsV2_path_steps openapi incl completePath (t : Graph) :
  store_ok t -> hasNode "root:collection" t = true ->
  let segs := pathSplit_of completePath in
  let t' := pathsV2_path openapi incl completePath t in
  steps paths_ok t t' /\
  (forall k, 1 <= k -> k < List.length segs ->
     hasNode (folderId (firstn k segs)) t' = true /\
     hasEdge (parentId (firstn k segs)) (folderId (firstn k segs)) t' = true).
Proof.
  intros Hok Hroot segs. unfold pathsV2_path. fold segs. cbv zeta.
  destruct (Nat.eqb_spec (List.length segs) 1) as [H1|Hn1].
  - split; [|intros k Hk1 Hk2; lia].
    destruct (get completePath (paths openapi)) as [methods|];
      [|apply steps_refl].
    apply steps_forOwn. intros method data u _ Hu.
    rewrite (pathsV2_single_as_last _ _ _ _ _ _ H1).
    apply pathsV2_last_method_steps.
    + lia.
    + apply segments_firstn; fold segs; lia.
    + exact (steps_store_ok Hu Hok).
    + rewrite parentId_firstn by lia.
      exact (steps_hasNode "root:collection" Hu Hroot).
  - set (P := fun (i : nat) (u : Graph) =>
                steps paths_ok t u /\
                (forall k, 1 <= k -> k <= i -> k < List.length segs ->
                   hasNode (folderId (firstn k segs)) u = true /\
                   hasEdge (parentId (firstn k segs))
                           (folderId (firstn k segs)) u = true)).
    assert (HP : P (List.length segs)
                   (forEachIdx segs 0
                      (pathsV2_segment openapi incl completePath segs) t)).
    { apply (@forEachIdx_nth _ _ P _ segs "").
      - intros i u Hi [Hu Hex].
        assert (Hparent : hasNode (parentId (firstn (i + 1) segs)) u = true).
        { rewrite parentId_firstn by exact Hi.
          destruct i as [|i]; cbn [Nat.eqb].
          - exact (steps_hasNode "root:collection" Hu Hroot).
          - apply (Hex (S i)); lia. }
        assert (Hsegs : segments (firstn (i + 1) segs))
          by (apply segments_firstn; fold segs; lia).
        destruct (Nat.eq_dec (i + 1) (List.length segs)) as [Hlast|Hmid].
        + assert (Hstep : steps paths_ok u
                    (pathsV2_segment openapi incl completePath segs
                       (nth i segs "") i u)).
          { unfold pathsV2_segment, slice0.
            rewrite (proj2 (Nat.eqb_eq _ _) Hlast).
            destruct (get completePath (paths openapi)) as [methods|];
              [|apply steps_refl].
            apply steps_forOwn. intros method data w _ Hw.
            apply pathsV2_last_method_steps; auto.
            - exact (steps_store_ok Hw (steps_store_ok Hu Hok)).
            - exact (steps_hasNode _ Hw Hparent). }
          split; [exact (steps_trans Hu Hstep)|].
          intros k Hk1 Hk2 Hk3.
          destruct (Hex k) as [Hn He]; try lia.
          split; [exact (steps_hasNode _ Hstep Hn)
                 | exact (steps_hasEdge _ _ Hstep He)].
        + assert (Hi2 : i + 1 < List.length segs) by lia.
          destruct (@pathsV2_segment_inner openapi incl completePath segs
                      i u Hi2 Hparent) as [Hn [He [Hnodes [_ Hstep]]]].
          specialize (Hstep Hsegs).
          split; [exact (steps_trans Hu Hstep)|].
          intros k Hk1 Hk2 Hk3.
          destruct (Nat.eq_dec k (i + 1)) as [->|Hne]; [now split|].
          destruct (Hex k) as [Hn' He']; try lia.
          split; [exact (steps_hasNode _ Hstep Hn')
                 | exact (steps_hasEdge _ _ Hstep He')].
      - split; [apply steps_refl | intros k Hk1 Hk2; lia]. }
    destruct HP as [Hsteps Hex]. split; [exact Hsteps|].
    intros k Hk1 Hk2. apply Hex; lia.
Qed.

Lemma root_present :
  store_ok (setNode "root:collection" root_value new_Graph) /\
  hasNode "root:collection" (setNode "root:collection" root_value new_Graph)
  = true.
Proof.
  split; [apply store_ok_setNode, store_ok_new | reflexivity].
Qed.

(** Every state between two callbacks of the path strategy. *)
Lemma pathsV2_prefix_steps openapi incl (done : list string) :
  let t := forEach done (pathsV2_path openapi incl)
             (setNode "root:collection" root_value new_Graph) in
  steps paths_ok (setNode "root:collection" root_value new_Graph) t.
Proof.
  cbv zeta. apply steps_forEach. intros completePath u _ Hu.
  destruct root_present as [Hok Hroot].
  apply pathsV2_path_steps.
  - exact (steps_store_ok Hu Hok).
  - exact (steps_hasNode _ Hu Hroot).
Qed.

Lemma pathsV2_as_forEach openapi incl :
  _generateTreeFromPathsV2 openapi incl
  = forEach (keys (paths openapi)) (pathsV2_path openapi incl)
      (setNode "root:collection" root_value new_Graph).
Proof.
  unfold _generateTreeFromPathsV2.
  now destruct (keys (paths openapi)).
Qed.

(** The whole path strategy is a sequence of its calls. *)
Lemma pathsV2_steps openapi incl :
  steps paths_ok (setNode "root:collection" root_value new_Graph)
    (_generateTreeFromPathsV2 openapi incl).
Proof. rewrite pathsV2_as_forEach. apply pathsV2_prefix_steps. Qed.

(** ** The folders of the path strategy *)

Lemma folderId_not_root (s : list string) :
  String.eqb (folderId s) "root:collection" = false.
Proof. reflexivity. Qed.

Lemma requestId_not_folderId (s s' : list string) (method : string) :
  String.eqb (requestId s' method) (folderId s) = false.
Proof. reflexivity. Qed.

Lemma setNode_calls_app (v : string) (cs cs' : list (Call * bool)) :
  setNode_calls v (cs ++ cs')%list
  = (setNode_calls v cs ++ setNode_calls v cs')%list.
Proof. apply filter_app. Qed.

(** Along the calls of the path strategy, the folder of a segment list
    [s] is written at most once, always with the same value, and is
    linked to its parent by at most one edge. *)
Lemma paths_folder_inv (s : list string) (g : Graph) :
  segments s ->
  steps paths_ok (setNode "root:collection" root_value new_Graph) g ->
  (hasNode (folderId s) g = true ->
   node (folderId s) g = Some (path_folder (last s "") (join s))) /\
  setNode_calls (folderId s) (_calls g)
  = (if hasNode (folderId s) g
     then [(SetNode (folderId s) (path_folder (last s "") (join s)), false)]
     else []) /\
  edges_into (folderId s) g
  = (if hasEdge (parentId s) (folderId s) g
     then [(parentId s, folderId s)] else []).
Proof.
  intros Hs H.
  induction H as [|g v l _ [IHn [IHc IHe]] Hok|g v w _ [IHn [IHc IHe]] Hok].
  - split; [|split]; try reflexivity.
    rewrite hasNode_setNode, folderId_not_root. discriminate.
  - rewrite hasNode_setNode, node_setNode, calls_setNode, setNode_calls_app.
    rewrite hasEdge_setNode. unfold edges_into, edges in *.
    rewrite edges_setNode.
    destruct Hok as [[s' [Hs' [-> [-> Hfresh]]]]
                    |[s' [cp [m [Hs' [Ha [-> ->]]]]]]].
    + destruct (String.eqb_spec (folderId s) (folderId s')) as [He|Hne].
      * apply folderId_inj in He; auto. subst s'.
        rewrite Hfresh in IHc. rewrite IHc. cbn [orb].
        split; [reflexivity|]. split; [|exact IHe].
        unfold setNode_calls. cbn [filter fst]. rewrite String.eqb_refl.
        now rewrite Hfresh.
      * cbn [orb]. split; [exact IHn|]. split; [|exact IHe].
        unfold setNode_calls at 2. cbn [filter fst].
        rewrite (proj2 (String.eqb_neq _ _)) by congruence.
        now rewrite List.app_nil_r.
    + rewrite String.eqb_sym, requestId_not_folderId. cbn [orb].
      split; [exact IHn|]. split; [|exact IHe].
      unfold setNode_calls at 2. cbn [filter fst].
      rewrite requestId_not_folderId. now rewrite List.app_nil_r.
  - destruct Hok as [Hv [Hw Hkind]].
    unfold hasNode, node. rewrite (@nodes_setEdge v w g Hv Hw).
    fold (hasNode (folderId s) g). fold (node (folderId s) g).
    rewrite calls_setEdge, setNode_calls_app.
    split; [exact IHn|]. split.
    { unfold setNode_calls at 2. cbn [filter fst].
      now rewrite List.app_nil_r. }
    unfold edges_into, edges in *. rewrite edges_setEdge, hasEdge_setEdge.
    destruct Hkind as [[s' [Hs' [-> [-> Hfresh]]]]
                      |[s' [m [Hs' [-> [-> _]]]]]].
    + rewrite Hfresh.
      destruct (String.eqb_spec (folderId s) (folderId s')) as [He|Hne].
      * apply folderId_inj in He; auto. subst s'.
        replace (edge_eqb (parentId s, folderId s) (parentId s, folderId s))
          with true by (symmetry; now apply edge_eqb_eq).
        cbn [orb]. rewrite filter_app, IHe, Hfresh.
        cbn [filter snd app]. now rewrite String.eqb_refl.
      * replace (edge_eqb (parentId s, folderId s)
                          (parentId s', folderId s')) with false.
        2:{ symmetry. apply not_true_is_false. intros He.
            apply edge_eqb_eq in He. congruence. }
        cbn [orb]. rewrite filter_app, IHe. cbn [filter snd].
        rewrite (proj2 (String.eqb_neq _ _)) by congruence.
        now rewrite List.app_nil_r.
    + replace (edge_eqb (parentId s, folderId s)
                        (folderId s', requestId s' m)) with false.
      2:{ symmetry. apply not_true_is_false. intros He.
          apply edge_eqb_eq in He.
          assert (Hx : folderId s = requestId s' m) by congruence.
          apply String.eqb_eq in Hx.
          now rewrite String.eqb_sym, requestId_not_folderId in Hx. }
      cbn [orb].
      destruct (hasEdge (folderId s') (requestId s' m) g); [exact IHe|].
      rewrite filter_app, IHe. cbn [filter snd].
      rewrite requestId_not_folderId. now rewrite List.app_nil_r.
Qed.

Lemma pathsV2_rest_steps openapi incl (rest : list string) (u : Graph) :
  store_ok u -> hasNode "root:collection" u = true ->
  steps paths_ok u (forEach rest (pathsV2_path openapi incl) u).
Proof.
  intros Hok Hroot. apply steps_forEach. intros completePath w _ Hw.
  apply pathsV2_path_steps.
  - exact (steps_store_ok Hw Hok).
  - exact (steps_hasNode _ Hw Hroot).
Qed.

Lemma prefix_of_firstn (s l : list string) :
  prefix_of s l -> firstn (List.length s) l = s /\
                   List.length s <= List.length l.
Proof.
  intros [r ->]. rewrite firstn_app, Nat.sub_diag, firstn_all. simpl.
  rewrite List.app_nil_r, List.length_app. split; [reflexivity | lia].
Qed.

(** A declared path of which [s] is a proper prefix leaves the folder
    of [s] in the tree, linked to its parent. *)
Lemma pathsV2_proper_prefix openapi incl (r : string) (s : list string) :
  In r (keys (paths openapi)) -> s <> [] ->
  prefix_of s (pathSplit_of r) ->
  List.length s < List.length (pathSplit_of r) ->
  let tree := _generateTreeFromPathsV2 openapi incl in
  hasNode (folderId s) tree = true /\
  hasEdge (parentId s) (folderId s) tree = true.
Proof.
  intros Hin Hne Hpre Hlen. cbv zeta. rewrite pathsV2_as_forEach.
  destruct (in_split _ _ Hin) as [l1 [l2 Hkeys]]. rewrite Hkeys.
  rewrite forEach_app, forEach_cons.
  set (u := forEach l1 (pathsV2_path openapi incl)
              (setNode "root:collection" root_value new_Graph)).
  destruct root_present as [Hok0 Hroot0].
  assert (Hu : steps paths_ok
                 (setNode "root:collection" root_value new_Graph) u)
    by apply pathsV2_prefix_steps.
  assert (Hok : store_ok u) by exact (steps_store_ok Hu Hok0).
  assert (Hroot : hasNode "root:collection" u = true)
    by exact (steps_hasNode _ Hu Hroot0).
  destruct (@pathsV2_path_steps openapi incl r u Hok Hroot) as [Hr Hex].
  destruct (prefix_of_firstn Hpre) as [Hfirst _].
  assert (Hlen1 : 1 <= List.length s)
    by (destruct s; simpl; [congruence | lia]).
  destruct (Hex (List.length s) Hlen1 Hlen) as [Hn He].
  rewrite Hfirst in Hn, He.
  set (u' := pathsV2_path openapi incl r u) in *.
  assert (Hrest : steps paths_ok u'
                    (forEach l2 (pathsV2_path openapi incl) u')).
  { apply pathsV2_rest_steps.
    - exact (steps_store_ok Hr Hok).
    - exact (steps_hasNode _ Hr Hroot). }
  split; [exact (steps_hasNode _ Hrest Hn)
         | exact (steps_hasEdge _ _ Hrest He)].
Qed.

(** ** C10: a path whose operations are all filtered out *)




(** ** The tag strategy as a sequence of calls *)

Lemma node_hasNode (v : string) (l : Label) (g : Graph) :
  node v g = Some l -> hasNode v g = true.
Proof.
  unfold node, hasNode, has. destruct (get v (_nodes g)); congruence.
Qed.

Lemma is_request_hasNode (w : string) (g : Graph) :
  is_request w g -> hasNode w g = true.
Proof. intros [l [Hl _]]. exact (node_hasNode _ _ Hl). Qed.

Lemma edge_eqb_refl (e : string * string) : edge_eqb e e = true.
Proof. now apply edge_eqb_eq. Qed.

Section TagBlocks.

Variable tagDescMap : obj Value.

(** Creating the folder of a tag that has none yet. *)
Lemma steps_tag_folder (path tag : string) (t : Graph) :
  store_ok t -> hasNode "root:collection" t = true ->
  hasNode ("path:" ++ tag) t = false ->
  steps (tags_ok tagDescMap) t
    (setEdge "root:collection" ("path:" ++ tag)
       (setNode ("path:" ++ tag)
          (tag_folder path tag (tagDesc tagDescMap tag)) t)).
Proof.
  intros Hok Hroot Hf. apply steps_edge; [apply steps_node1|].
  - left. exists tag, path. auto.
  - unfold tags_ok.
    rewrite !hasNode_setNode, Hroot, String.eqb_refl, orb_true_r.
    do 2 (split; [reflexivity|]). left.
    rewrite hasEdge_setNode. apply hasEdge_false_iff. intros Hin.
    destruct (ok_ends Hok _ _ Hin). congruence.
Qed.

Lemma tags_folder_steps (desc : Value) (tag : string) (t : Graph) :
  store_ok t -> hasNode "root:collection" t = true ->
  let t' := tags_folder tagDescMap desc tag t in
  steps (tags_ok tagDescMap) t t' /\ hasNode ("path:" ++ tag) t' = true.
Proof.
  intros Hok Hroot. unfold tags_folder. cbv zeta.
  destruct (hasNode ("path:" ++ tag) t) eqn:Hf.
  - split; [apply steps_refl | exact Hf].
  - split; [now apply steps_tag_folder|].
    apply hasNode_setEdge_mono. rewrite hasNode_setNode.
    now rewrite String.eqb_refl.
Qed.

(** The callback run on one tag of a kept operation. *)
Lemma tags_tag_steps (path method tag : string) (t : Graph) :
  store_ok t -> hasNode "root:collection" t = true ->
  let id := "path:" ++ tag ++ ":" ++ path ++ ":" ++ method in
  let t' := tags_tag tagDescMap path method tag t in
  steps (tags_ok tagDescMap) t t' /\
  hasNode ("path:" ++ tag) t' = true /\
  hasEdge ("path:" ++ tag) id t' = true /\
  (exists l, node id t' = Some l /\ type l = "request").
Proof.
  intros Hok Hroot. cbv zeta. unfold tags_tag.
  set (id := "path:" ++ tag ++ ":" ++ path ++ ":" ++ method).
  set (t1 := setNode id (tag_request tag path method) t).
  assert (H1 : steps (tags_ok tagDescMap) t t1).
  { apply steps_node1. right.
    exists (tag ++ ":" ++ path ++ ":" ++ method).
    split; [reflexivity|]. split; [|reflexivity].
    rewrite mentions_app. apply orb_true_r. }
  assert (Hok1 : store_ok t1) by exact (steps_store_ok H1 Hok).
  assert (Hroot1 : hasNode "root:collection" t1 = true)
    by exact (steps_hasNode _ H1 Hroot).
  assert (Hid1 : hasNode id t1 = true)
    by (unfold t1; rewrite hasNode_setNode; now rewrite String.eqb_refl).
  assert (Hn1 : node id t1 = Some (tag_request tag path method))
    by (unfold t1; rewrite node_setNode; now rewrite String.eqb_refl).
  cbv zeta.
  destruct (hasNode ("path:" ++ tag) t1) eqn:Hf; cbn [negb].
  - split; [|split; [|split]].
    + apply (steps_trans H1). apply steps_edge1. unfold tags_ok.
      do 2 (split; [assumption|]). right.
      exists (tag_request tag path method). auto.
    + now apply hasNode_setEdge_mono.
    + now rewrite hasEdge_setEdge, edge_eqb_refl.
    + exists (tag_request tag path method). now rewrite node_setEdge.
  - set (t2 := setEdge "root:collection" ("path:" ++ tag)
                 (setNode ("path:" ++ tag)
                    (tag_folder path tag (tagDesc tagDescMap tag)) t1)).
    assert (H2 : steps (tags_ok tagDescMap) t1 t2)
      by now apply steps_tag_folder.
    assert (Hf2 : hasNode ("path:" ++ tag) t2 = true).
    { apply hasNode_setEdge_mono. rewrite hasNode_setNode.
      now rewrite String.eqb_refl. }
    assert (Hn2 : node id t2 = Some (tag_request tag path method)).
    { unfold t2. rewrite node_setEdge, node_setNode.
      destruct (String.eqb_spec id ("path:" ++ tag)) as [He|_];
        [congruence | exact Hn1]. }
    split; [|split; [|split]].
    + apply (steps_trans H1), (steps_trans H2). apply steps_edge1.
      unfold tags_ok. split; [exact Hf2|].
      split; [exact (steps_hasNode _ H2 Hid1)|]. right.
      exists (tag_request tag path method). auto.
    + now apply hasNode_setEdge_mono.
    + now rewrite hasEdge_setEdge, edge_eqb_refl.
    + exists (tag_request tag path method). now rewrite node_setEdge.
Qed.

Lemma tags_method_steps incl (path : string) data (method : string)
    (t : Graph) :
  store_ok t -> hasNode "root:collection" t = true ->
  steps (tags_ok tagDescMap) t
    (tags_method tagDescMap incl path data method t).
Proof.
  intros Hok Hroot. unfold tags_method.
  destruct (negb (allowed method)); [apply steps_refl|].
  destruct (negb incl && deprecated data); [apply steps_refl|].
  destruct (negb (isEmpty (op_tags data))).
  - apply steps_forEach. intros tag u _ Hu.
    apply tags_tag_steps.
    + exact (steps_store_ok Hu Hok).
    + exact (steps_hasNode _ Hu Hroot).
  - cbv zeta. apply steps_edge; [apply steps_node1|].
    + right. exists (path ++ ":" ++ method).
      split; [reflexivity|]. split; [|reflexivity].
      rewrite mentions_app. apply orb_true_r.
    + unfold tags_ok.
      rewrite !hasNode_setNode, Hroot, String.eqb_refl, orb_true_r.
      do 2 (split; [reflexivity|]). right.
      exists (untagged_request path method).
      rewrite node_setNode, String.eqb_refl. auto.
Qed.

Lemma tags_paths_steps incl (items : obj (obj Operation)) (t : Graph) :
  store_ok t -> hasNode "root:collection" t = true ->
  steps (tags_ok tagDescMap) t
    (forOwn items
       (fun methods path =>
          forOwn methods (tags_method tagDescMap incl path)) t).
Proof.
  intros Hok Hroot. apply steps_forOwn. intros path methods u _ Hu.
  apply steps_forOwn. intros method data w _ Hw.
  apply tags_method_steps.
  - exact (steps_store_ok Hw (steps_store_ok Hu Hok)).
  - exact (steps_hasNode _ Hw (steps_hasNode _ Hu Hroot)).
Qed.

Lemma tags_folders_steps (declared : obj Value) (t : Graph) :
  store_ok t -> hasNode "root:collection" t = true ->
  steps (tags_ok tagDescMap) t
    (forOwn declared (tags_folder tagDescMap) t).
Proof.
  intros Hok Hroot. apply steps_forOwn. intros tag desc u _ Hu.
  apply tags_folder_steps.
  - exact (steps_store_ok Hu Hok).
  - exact (steps_hasNode _ Hu Hroot).
Qed.

End TagBlocks.

(** The whole tag strategy is a sequence of its calls. *)
Lemma tags_steps openapi incl :
  steps (tags_ok (tagDescMap_of (tags openapi)))
    (setNode "root:collection" root_value new_Graph)
    (_generateTreeFromTags openapi incl).
Proof.
  unfold _generateTreeFromTags. cbv zeta.
  destruct root_present as [Hok Hroot].
  set (M := tagDescMap_of (tags openapi)).
  assert (H1 := @tags_folders_steps M M _ Hok Hroot).
  apply (steps_trans H1). apply tags_paths_steps.
  - exact (steps_store_ok H1 Hok).
  - exact (steps_hasNode _ H1 Hroot).
Qed.

(** ** C2: an operation with several tags *)

(** A property that holds after the callback runs on [x], and that the
    calls of the other callbacks keep, holds at the end of the loop. *)
Lemma forEach_eventually {A} (ok : Graph -> Call -> Prop)
    (Q : Graph -> Prop) (l : list A) (f : A -> Graph -> Graph) (x : A)
    (s : Graph) :
  (forall g g', steps ok g g' -> Q g -> Q g') ->
  (forall y t, In y l -> steps ok s t -> steps ok t (f y t)) ->
  (forall t, steps ok s t -> Q (f x t)) ->
  In x l -> Q (forEach l f s).
Proof.
  intros Hstable Hsteps Hx Hin.
  destruct (in_split _ _ Hin) as [l1 [l2 Hl]].
  assert (Hall : forall l' t, incl l' l -> steps ok s t ->
                              steps ok t (forEach l' f t)).
  { intros l' t Hincl Ht. apply steps_forEach. intros y u Hy Hu.
    apply Hsteps; [now apply Hincl | exact (steps_trans Ht Hu)]. }
  rewrite Hl, forEach_app, forEach_cons.
  assert (H1 : steps ok s (forEach l1 f s)).
  { apply Hall; [|apply steps_refl].
    intros y Hy. rewrite Hl. apply in_or_app. now left. }
  assert (H2 : steps ok s (f x (forEach l1 f s))).
  { apply (steps_trans H1). now apply Hsteps. }
  eapply Hstable; [|apply Hx, H1].
  apply Hall; [|exact H2].
  intros y Hy. rewrite Hl. apply in_or_app. right. now right.
Qed.







(** ** C7: a tag declared twice *)

Lemma tagDescMap_get (tag : string) (declared : list TagObject)
    (acc : obj Value) :
  tag <> "__proto__" ->
  get tag (fold_left (fun acc data =>
                        assign (name data) (description_value data) acc)
                     declared acc)
  = match last_named tag declared with
    | Some data => Some (description_value data)
    | None => get tag acc
    end.
Proof.
  intros Hp. revert acc. induction declared as [|d rest IH]; intros acc;
    [reflexivity|].
  cbn [fold_left last_named]. rewrite IH.
  destruct (last_named tag rest); [reflexivity|].
  unfold assign. destruct (String.eqb_spec (name d) "__proto__") as [He|_].
  - destruct (String.eqb_spec (name d) tag); [congruence | reflexivity].
  - rewrite get_set, String.eqb_sym.
    now destruct (String.eqb (name d) tag).
Qed.

Lemma last_named_declared (tag : string) (declared : list TagObject) :
  In tag (map name declared) -> last_named tag declared <> None.
Proof.
  induction declared as [|d rest IH]; [intros []|].
  cbn [map last_named]. intros [Hd|Hin].
  - destruct (last_named tag rest); [discriminate|].
    rewrite Hd, String.eqb_refl. discriminate.
  - destruct (last_named tag rest); [discriminate|]. now apply IH in Hin.
Qed.

Lemma tagDesc_last (tag : string) (declared : list TagObject) :
  tag <> "__proto__" -> In tag (map name declared) ->
  tagDesc (tagDescMap_of declared) tag = last_description tag declared.
Proof.
  intros Hp Hin. unfold tagDesc, tagDescMap_of, last_description.
  rewrite tagDescMap_get by exact Hp.
  apply last_named_declared in Hin.
  destruct (last_named tag declared); [reflexivity | congruence].
Qed.

Lemma tagDescMap_has (tag : string) (declared : list TagObject) :
  tag <> "__proto__" -> In tag (map name declared) ->
  In tag (keys (tagDescMap_of declared)).
Proof.
  intros Hp Hin. apply has_true_iff. unfold has, tagDescMap_of.
  rewrite tagDescMap_get by exact Hp.
  apply last_named_declared in Hin.
  destruct (last_named tag declared); [reflexivity | congruence].
Qed.

(** Along the calls of the tag strategy, a node holding a folder value
    is the folder of a tag and carries [tagDescMap[tag]]. *)
Lemma tags_folder_inv (tagDescMap : obj Value) (g : Graph) :
  steps (tags_ok tagDescMap)
    (setNode "root:collection" root_value new_Graph) g ->
  forall v l, node v g = Some l -> type l = "folder" ->
  exists tag path,
    v = "path:" ++ tag /\
    l = tag_folder path tag (tagDesc tagDescMap tag).
Proof.
  intros H. induction H as [|h u lu _ IH Hok|h a b _ IH _]; intros v l.
  - rewrite node_setNode.
    destruct (String.eqb v "root:collection"); [|discriminate].
    intros [= <-]. discriminate.
  - rewrite node_setNode.
    destruct (String.eqb_spec v u) as [->|_]; [|apply IH].
    intros [= <-] Hty.
    destruct Hok as [[tag [path [-> [-> _]]]]|[r [_ [_ Hr]]]].
    + now exists tag, path.
    + congruence.
  - rewrite node_setEdge. apply IH.
Qed.

(** After the first loop of the tag strategy every node but the root is
    the folder of a tag, with path [''] and [tagDescMap[tag]]. *)
Lemma tags_folders_only (tagDescMap declared : obj Value) :
  let t0 := forOwn declared (tags_folder tagDescMap)
              (setNode "root:collection" root_value new_Graph) in
  forall v, hasNode v t0 = true ->
    v = "root:collection" \/
    exists tag, v = "path:" ++ tag /\
                node v t0 = Some (tag_folder "" tag (tagDesc tagDescMap tag)).
Proof.
  cbv zeta. apply forOwn_inv.
  - intros tag desc t _ IH v. unfold tags_folder.
    destruct (hasNode ("path:" ++ tag) t) eqn:Hf; [apply IH|].
    rewrite hasNode_setEdge, hasEdge_setNode, hasNode_setNode.
    rewrite node_setEdge, node_setNode.
    destruct (String.eqb_spec v ("path:" ++ tag)) as [->|Hne].
    + intros _. right. now exists tag.
    + intros Hv.
      assert (Hv' : v = "root:collection" \/ hasNode v t = true).
      { destruct (hasEdge "root:collection" ("path:" ++ tag) t);
          [now right|].
        cbn [orb] in Hv. apply orb_true_iff in Hv.
        destruct Hv as [Hv|Hv]; [left; now apply String.eqb_eq | now right]. }
      destruct Hv' as [->|Hv']; [now left|]. now apply IH.
  - intros v. rewrite hasNode_setNode. cbn.
    rewrite orb_false_r. intros Hv. left. now apply String.eqb_eq.
Qed.

Lemma tags_folders_present (tagDescMap declared : obj Value)
    (tag : string) :
  In tag (keys declared) ->
  hasNode ("path:" ++ tag)
    (forOwn declared (tags_folder tagDescMap)
       (setNode "root:collection" root_value new_Graph)) = true.
Proof.
  intros Hin. apply in_map_iff in Hin. destruct Hin as [[T desc] [HT Hin]].
  simpl in HT. subst T. unfold forOwn.
  destruct root_present as [Hok Hroot].
  apply (@forEach_eventually _ (tags_ok tagDescMap)
           (fun g => hasNode ("path:" ++ tag) g = true)
           declared _ (tag, desc)); auto.
  - intros g g' Hs. now apply steps_hasNode with (ok := tags_ok tagDescMap).
  - intros [T d] t _ Ht. cbn [fst snd]. apply tags_folder_steps.
    + exact (steps_store_ok Ht Hok).
    + exact (steps_hasNode _ Ht Hroot).
  - intros t Ht. cbn [fst snd]. apply tags_folder_steps.
    + exact (steps_store_ok Ht Hok).
    + exact (steps_hasNode _ Ht Hroot).
Qed.

(** Along the calls of the tag strategy, the folder of a tag without
    colon is never written over. *)
Lemma tags_colonfree_stable (tagDescMap : obj Value)
    (g g' : Graph) (tag : string) (l : Label) :
  mentions ":" tag = false ->
  steps (tags_ok tagDescMap) g g' ->
  node ("path:" ++ tag) g = Some l -> node ("path:" ++ tag) g' = Some l.
Proof.
  intros Hc H Hv. induction H as [|h u lu _ IH Hok|h a b _ IH _].
  - exact Hv.
  - rewrite node_setNode.
    destruct (String.eqb_spec ("path:" ++ tag) u) as [<-|_]; [|exact IH].
    apply node_hasNode in IH.
    destruct Hok as [[T [path [_ [_ Hfresh]]]]|[r [Hr [Hm _]]]];
      [congruence|].
    apply app_inv_head in Hr. congruence.
  - now rewrite node_setEdge.
Qed.

(** C7, as the code has it.  Tag strategy, for a tag name (other than
    [__proto__], which [tagDescMap] cannot hold) that [openapi.tags]
    declares: [tagDescMap] maps it to the description of the LAST entry
    with that name, and its folder identifier is a node of the tree.
    Every node that holds a folder value is the folder of a tag and
    carries [tagDescMap[tag]]; and when the name has no colon the node is
    the folder created by the first loop, with the description of the
    last entry. *)
Theorem C7_last_description_wins (openapi : OpenAPI) (incl : bool) :
  let tree := _generateTreeFromTags openapi incl in
  let tagDescMap := tagDescMap_of (tags openapi) in
  (forall tag, tag <> "__proto__" -> In tag (map name (tags openapi)) ->
     tagDesc tagDescMap tag = last_description tag (tags openapi) /\
     hasNode ("path:" ++ tag) tree = true) /\
  (forall v l, node v tree = Some l -> type l = "folder" ->
     exists tag path,
       v = "path:" ++ tag /\
       l = tag_folder path tag (tagDesc tagDescMap tag)) /\
  (forall tag, tag <> "__proto__" -> In tag (map name (tags openapi)) ->
     mentions ":" tag = false ->
     node ("path:" ++ tag) tree
     = Some (tag_folder "" tag (last_description tag (tags openapi)))).
Proof.
  cbv zeta. set (M := tagDescMap_of (tags openapi)).
  set (t0 := forOwn M (tags_folder M)
               (setNode "root:collection" root_value new_Graph)).
  destruct root_present as [Hok Hroot].
  assert (H0 : steps (tags_ok M)
                 (setNode "root:collection" root_value new_Graph) t0)
    by now apply tags_folders_steps.
  assert (H1 : steps (tags_ok M) t0 (_generateTreeFromTags openapi incl)).
  { unfold _generateTreeFromTags. cbv zeta. apply tags_paths_steps.
    - exact (steps_store_ok H0 Hok).
    - exact (steps_hasNode _ H0 Hroot). }
  assert (Hvalue : forall tag, tag <> "__proto__" ->
             In tag (map name (tags openapi)) ->
             node ("path:" ++ tag) t0
             = Some (tag_folder "" tag (tagDesc M tag))).
  { intros tag Hp Hin. apply (@tagDescMap_has tag _ Hp) in Hin.
    assert (Hpres := @tags_folders_present M M tag Hin).
    destruct (@tags_folders_only M M _ Hpres) as [Hr|[T [HT Hn]]];
      [discriminate Hr|].
    apply app_inv_head in HT. now subst T. }
  split; [|split].
  - intros tag Hp Hin. split; [now apply tagDesc_last|].
    apply (steps_hasNode _ H1).
    exact (node_hasNode _ _ (Hvalue tag Hp Hin)).
  - intros v l Hv Hty.
    exact (@tags_folder_inv M _ (tags_steps openapi incl) v l Hv Hty).
  - intros tag Hp Hin Hc. rewrite <- (@tagDesc_last tag _ Hp Hin). fold M.
    apply (@tags_colonfree_stable M t0 _ tag _ Hc H1). now apply Hvalue.
Qed.

Lemma C7_witness :
  let openapi :=
    {| paths := [("/pets", [("get", {| deprecated := false;
                                       op_tags := ["Pet"] |})])];
       tags := [{| name := "Pet"; description := Some "old" |};
                {| name := "Store"; description := None |};
                {| name := "Pet"; description := Some "new" |}];
       webhooks := [] |} in
  node "path:Pet" (_generateTreeFromTags openapi false)
  = Some (tag_folder "" "Pet" (Str "new")).
Proof.
  cbv zeta.
  pose proof (C7_last_description_wins
                {| paths := [("/pets", [("get", {| deprecated := false;
                                                   op_tags := ["Pet"] |})])];
                   tags := [{| name := "Pet"; description := Some "old" |};
                            {| name := "Store"; description := None |};
                            {| name := "Pet"; description := Some "new" |}];
                   webhooks := [] |} false) as [_ [_ H]].
  apply (H "Pet"); [discriminate | simpl; auto | reflexivity].
Defined.

(** C7 as stated fails: with two entries named [A], the map and the
    folder carry the description of the second one, not of the first. *)
Lemma C7_counterexample :
  let declared := [{| name := "A"; description := Some "first" |};
                   {| name := "A"; description := Some "second" |}] in
  let openapi := {| paths := []; tags := declared; webhooks := [] |} in
  option_map description
    (find (fun data => String.eqb (name data) "A") declared)
  = Some (Some "first") /\
  tagDesc (tagDescMap_of declared) "A" = Str "second" /\
  node "path:A" (_generateTreeFromTags openapi false)
  = Some (tag_folder "" "A" (Str "second")) /\
  get "description" (meta (tag_folder "" "A" (Str "second")))
  <> Some (Str "first").
Proof.
  cbv zeta. split; [reflexivity|]. split; [reflexivity|].
  split; [reflexivity|]. discriminate.
Qed.

(** ** C8: which calls hit an existing target *)

(* From here on the lemmas take all their arguments explicitly. *)
Unset Implicit Arguments.

Lemma paths_ok_discipline (g : Graph) (c : Call) :
  paths_ok g c -> discipline g c.
Proof.
  destruct c as [v l|v w]; simpl.
  - intros [[s [_ [_ [_ Hf]]]]|[s [cp [m [_ [_ [_ ->]]]]]]]; auto.
  - intros [Hv [Hw [[s [_ [_ [_ He]]]]|[s [m [_ [_ [_ Hr]]]]]]]]; auto.
Qed.

Lemma tags_ok_discipline (tagDescMap : obj Value) (g : Graph)
    (c : Call) :
  tags_ok tagDescMap g c -> discipline g c.
Proof.
  destruct c as [v l|v w]; simpl; [|auto].
  intros [[tag [path [_ [_ Hf]]]]|[r [_ [_ Hty]]]]; [auto|].
  left. unfold request_type. now rewrite Hty.
Qed.

Lemma paths_ok_base (g : Graph) (c : Call) : paths_ok g c -> base_ok g c.
Proof.
  destruct c as [v l|v w]; simpl; [|tauto].
  intros [[s [_ [-> _]]]|[s [cp [m [_ [_ [-> _]]]]]]]; right.
  - now exists ("folder:" ++ join s).
  - now exists ("request:" ++ join s ++ ":" ++ m).
Qed.

Lemma tags_ok_base (tagDescMap : obj Value) (g : Graph)
    (c : Call) :
  tags_ok tagDescMap g c -> base_ok g c.
Proof.
  destruct c as [v l|v w]; simpl; [|tauto].
  intros [[tag [path [-> _]]]|[r [-> _]]]; right.
  - now exists tag.
  - now exists r.
Qed.

(** The folder strategies only create nodes named [root:collection] or
    [path:...]. *)
Lemma base_ids (g : Graph) :
  steps base_ok (setNode "root:collection" root_value new_Graph) g ->
  forall v, hasNode v g = true -> base_id v.
Proof.
  intros H. induction H as [|h u l _ IH Hok|h a b _ IH [Ha Hb]]; intros v.
  - rewrite hasNode_setNode. cbn. rewrite orb_false_r.
    intros Hv. left. now apply String.eqb_eq.
  - rewrite hasNode_setNode. intros Hv. apply orb_true_iff in Hv.
    destruct Hv as [Hv|Hv]; [|now apply IH].
    apply String.eqb_eq in Hv. now subst.
  - unfold hasNode. rewrite (@nodes_setEdge a b h Ha Hb). apply IH.
Qed.

Lemma webhook_not_base (r : string) : ~ base_id (PATH_WEBHOOK ++ r).
Proof. intros [H|[r' H]]; discriminate H. Qed.

(** What the calls of the discipline keep true. *)
Lemma discipline_inv (g0 g : Graph) :
  steps discipline g0 g ->
  (forall v, hasNode v g0 = true -> node v g0 <> None) ->
  (forall c, In (c, true) (_calls g0) ->
     match c with
     | SetNode _ l => request_type l = true
     | SetEdge _ w => is_request w g0
     end) ->
  (forall v l b, In (SetNode v l, b) (_calls g0) ->
     node v g0 = Some l \/ is_request v g0) ->
  (forall v, hasNode v g = true -> node v g <> None) /\
  (forall c, In (c, true) (_calls g) ->
     match c with
     | SetNode _ l => request_type l = true
     | SetEdge _ w => is_request w g
     end) /\
  (forall v l b, In (SetNode v l, b) (_calls g) ->
     node v g = Some l \/ is_request v g).
Proof.
  intros H Hval0 Hflag0 Hkeep0.
  induction H as [|h u l _ [IHv [IHf IHk]] Hok
                 |h a b _ [IHv [IHf IHk]] [Ha [Hb Hok]]].
  - auto.
  - assert (Hover : forall w, is_request w h ->
                              is_request w (setNode u l h)).
    { intros w Hw. unfold is_request. rewrite node_setNode.
      destruct (String.eqb_spec w u) as [->|_]; [|exact Hw].
      apply is_request_hasNode in Hw.
      destruct Hok as [Hr|Hf]; [|congruence]. now exists l. }
    split; [|split].
    + intros v. rewrite hasNode_setNode, node_setNode.
      destruct (String.eqb v u); [discriminate | apply IHv].
    + intros c. rewrite calls_setNode, in_app_iff.
      intros [Hin|[[= <- Hb]|[]]].
      * specialize (IHf c Hin). destruct c as [v l'|v w]; auto.
      * destruct Hok as [Hr|Hf]; [exact Hr | congruence].
    + intros v l' b. rewrite calls_setNode, in_app_iff, node_setNode.
      intros [Hin|[[= <- <- _]|[]]].
      * destruct (IHk v l' b Hin) as [Hv|Hv]; [|right; now apply Hover].
        destruct (String.eqb_spec v u) as [->|_]; [|now left].
        right. apply node_hasNode in Hv.
        destruct Hok as [Hr|Hf]; [|congruence].
        exists l. rewrite node_setNode, String.eqb_refl. auto.
      * rewrite String.eqb_refl. now left.
  - assert (Hsame : forall w, node w (setEdge a b h) = node w h)
      by (intros w; apply node_setEdge).
    split; [|split].
    + intros v. unfold hasNode. rewrite (@nodes_setEdge a b h Ha Hb).
      rewrite Hsame. apply IHv.
    + intros c. rewrite calls_setEdge, in_app_iff.
      intros [Hin|[[= <- He]|[]]].
      * specialize (IHf c Hin). destruct c as [v l'|v w]; auto.
        unfold is_request. now rewrite Hsame.
      * unfold is_request. rewrite Hsame.
        destruct Hok as [Hf|Hr]; [congruence | exact Hr].
    + intros v l' b'. rewrite calls_setEdge, in_app_iff.
      unfold is_request. rewrite Hsame.
      intros [Hin|[[=]|[]]]. exact (IHk v l' b' Hin).
Qed.

Lemma webhook_method_steps incl (path : string) data (method : string)
    (t : Graph) :
  hasNode (PATH_WEBHOOK ++ ":folder") t = true ->
  steps discipline t (webhook_method incl path data method t).
Proof.
  intros Hf. unfold webhook_method.
  destruct (negb incl && deprecated data); [apply steps_refl|].
  cbv zeta. apply steps_edge; [apply steps_node1|].
  - now left.
  - unfold discipline.
    rewrite !hasNode_setNode, Hf, String.eqb_refl, orb_true_r.
    do 2 (split; [reflexivity|]). right.
    exists (webhook_request path method).
    rewrite node_setNode, String.eqb_refl. auto.
Qed.

Lemma webhooks_steps openapi incl (t : Graph) :
  store_ok t -> hasNode "root:collection" t = true ->
  hasNode (PATH_WEBHOOK ++ ":folder") t = false ->
  steps discipline t (_generateWebhookEndpoints openapi t incl).
Proof.
  intros Hok Hroot Hf. unfold _generateWebhookEndpoints.
  destruct (webhooks openapi) as [|e ws] eqn:Hw; [apply steps_refl|].
  cbn [isEmpty negb]. cbv zeta.
  set (t1 := setEdge "root:collection" (PATH_WEBHOOK ++ ":folder")
               (setNode (PATH_WEBHOOK ++ ":folder") webhook_folder t)).
  assert (H1 : steps discipline t t1).
  { apply steps_edge; [apply steps_node1|].
    - now right.
    - unfold discipline.
      rewrite !hasNode_setNode, Hroot, String.eqb_refl, orb_true_r.
      do 2 (split; [reflexivity|]). left.
      rewrite hasEdge_setNode. apply hasEdge_false_iff. intros Hin.
      destruct (ok_ends Hok _ _ Hin). congruence. }
  assert (Hf1 : hasNode (PATH_WEBHOOK ++ ":folder") t1 = true).
  { apply hasNode_setEdge_mono. rewrite hasNode_setNode.
    now rewrite String.eqb_refl. }
  apply (steps_trans H1).
  apply steps_forOwn. intros path item u _ Hu.
  apply steps_forOwn. intros method data w _ Hw'.
  apply webhook_method_steps.
  exact (steps_hasNode _ Hw' (steps_hasNode _ Hu Hf1)).
Qed.

(** The tree returned is that of one of the two strategies, followed by
    the webhook pass when [includeWebhooks] is set. *)
Lemma module_exports_returned openapi options tree :
  module_exports openapi options = Returned tree ->
  exists base,
    (base = _generateTreeFromTags openapi (includeDeprecated options) \/
     base = _generateTreeFromPathsV2 openapi (includeDeprecated options)) /\
    tree = if includeWebhooks options
           then _generateWebhookEndpoints openapi base
                  (includeDeprecated options)
           else base.
Proof.
  unfold module_exports.
  destruct (folderStrategy options) as [s|]; [|discriminate].
  destruct (String.eqb s "tags").
  - intros [= <-]. eexists. split; [left; reflexivity | reflexivity].
  - destruct (String.eqb s "paths"); [|discriminate].
    intros [= <-]. eexists. split; [right; reflexivity | reflexivity].
Qed.

Lemma base_strategy_steps openapi incl (base : Graph) :
  base = _generateTreeFromTags openapi incl \/
  base = _generateTreeFromPathsV2 openapi incl ->
  steps discipline (setNode "root:collection" root_value new_Graph) base /\
  steps base_ok (setNode "root:collection" root_value new_Graph) base.
Proof.
  intros [->| ->].
  - split.
    + exact (@steps_weaken _ _ _ _ (@tags_ok_discipline _)
               (tags_steps openapi incl)).
    + exact (@steps_weaken _ _ _ _ (@tags_ok_base _)
               (tags_steps openapi incl)).
  - split.
    + exact (@steps_weaken _ _ _ _ paths_ok_discipline
               (pathsV2_steps openapi incl)).
    + exact (@steps_weaken _ _ _ _ paths_ok_base
               (pathsV2_steps openapi incl)).
Qed.

Lemma base_strategy_facts openapi incl (base : Graph) :
  base = _generateTreeFromTags openapi incl \/
  base = _generateTreeFromPathsV2 openapi incl ->
  store_ok base /\ hasNode "root:collection" base = true /\
  forall r, hasNode (PATH_WEBHOOK ++ r) base = false.
Proof.
  intros Hb. destruct (base_strategy_steps _ _ _ Hb) as [Hd Hbase].
  destruct root_present as [Hok Hroot].
  split; [exact (steps_store_ok Hd Hok)|].
  split; [exact (steps_hasNode _ Hd Hroot)|].
  intros r. apply not_true_is_false. intros Hv.
  exact (webhook_not_base _ (base_ids _ Hbase _ Hv)).
Qed.

Lemma module_exports_steps openapi options tree :
  module_exports openapi options = Returned tree ->
  steps discipline (setNode "root:collection" root_value new_Graph) tree.
Proof.
  intros H. destruct (module_exports_returned _ _ _ H) as [base [Hb ->]].
  destruct (base_strategy_steps _ _ _ Hb) as [Hd _].
  destruct (base_strategy_facts _ _ _ Hb) as [Hok [Hroot Hnw]].
  destruct (includeWebhooks options); [|exact Hd].
  apply (steps_trans Hd). apply webhooks_steps; auto.
Qed.

(** Under the discipline every node comes from exactly one [setNode]
    call that met its identifier absent, and every edge from exactly one
    such [setEdge] call. *)
Lemma discipline_created (g : Graph) :
  steps discipline (setNode "root:collection" root_value new_Graph) g ->
  NoDup (created_nodes (_calls g)) /\
  (forall v, In v (created_nodes (_calls g)) <-> hasNode v g = true) /\
  edges g = created_edges (_calls g).
Proof.
  intros H.
  induction H as [|h u l _ [IHd [IHn IHe]] Hok
                 |h a b _ [IHd [IHn IHe]] [Ha [Hb Hok]]].
  - split; [|split]; try reflexivity.
    + cbn. repeat constructor. intros [].
    + intros v. rewrite hasNode_setNode. cbn.
      rewrite orb_false_r, String.eqb_eq. intuition congruence.
  - rewrite calls_setNode. unfold created_nodes, created_edges in *.
    rewrite !flat_map_app. cbn [flat_map]. rewrite !List.app_nil_r.
    destruct (hasNode u h) eqn:Hu.
    + cbn [app]. rewrite !List.app_nil_r. split; [exact IHd|]. split.
      * intros v. rewrite IHn, hasNode_setNode.
        destruct (String.eqb_spec v u) as [->|_]; [|reflexivity].
        rewrite Hu. reflexivity.
      * exact IHe.
    + split; [|split].
      * apply NoDup_app; [exact IHd | repeat constructor; intros [] |].
        intros x Hx [<-|[]]. apply IHn in Hx. congruence.
      * intros v. rewrite in_app_iff, IHn, hasNode_setNode. cbn [In].
        rewrite orb_true_iff, String.eqb_eq. intuition congruence.
      * exact IHe.
  - rewrite calls_setEdge. unfold created_nodes, created_edges in *.
    rewrite !flat_map_app. cbn [flat_map]. rewrite !List.app_nil_r.
    split; [exact IHd|]. split.
    + intros v. unfold hasNode. rewrite (@nodes_setEdge a b h Ha Hb).
      apply IHn.
    + unfold edges in *. rewrite edges_setEdge.
      destruct (hasEdge a b h).
      * now rewrite List.app_nil_r.
      * now rewrite IHe.
Qed.

(** C8, as the code has it.  In the tree returned every node identifier
    and every edge is present once and every node has a value; every
    node was created by exactly one [setNode] call that met its
    identifier absent, and every edge by exactly one such [setEdge]
    call.  A call that hits a target already in the tree is never the
    writing of a folder, of the webhook folder or of the root: it is a
    [setNode] with a request value, or a [setEdge] towards a node holding
    a request value.  A value written by any [setNode] call is either
    still the value of its node at the end, or a request value has been
    written over it. *)
Theorem C8_only_requests_written_twice (openapi : OpenAPI)
    (options : Options) (tree : Graph) :
  module_exports openapi options = Returned tree ->
  NoDup (nodes tree) /\ NoDup (edges tree) /\
  (forall v, hasNode v tree = true -> node v tree <> None) /\
  NoDup (created_nodes (_calls tree)) /\
  (forall v, In v (created_nodes (_calls tree)) <-> In v (nodes tree)) /\
  edges tree = created_edges (_calls tree) /\
  (forall v l, In (SetNode v l, true) (_calls tree) ->
     request_type l = true) /\
  (forall v w, In (SetEdge v w, true) (_calls tree) ->
     is_request w tree) /\
  (forall v l b, In (SetNode v l, b) (_calls tree) ->
     node v tree = Some l \/ is_request v tree).
Proof.
  intros H. assert (Hs := module_exports_steps _ _ _ H).
  destruct root_present as [Hok0 _].
  assert (Hok := steps_store_ok Hs Hok0).
  destruct (discipline_created _ Hs) as [Hcd [Hcn Hce]].
  destruct (discipline_inv _ _ Hs) as [Hv [Hf Hk]].
  - intros v. rewrite hasNode_setNode, node_setNode.
    destruct (String.eqb v "root:collection"); discriminate.
  - intros c [[=]|[]].
  - intros v l b [[= <- <- _]|[]]. now left.
  - split; [exact (ok_nodes Hok)|]. split; [exact (ok_edges Hok)|].
    split; [exact Hv|]. split; [exact Hcd|].
    split; [intros v; rewrite Hcn; apply hasNode_true_iff|].
    split; [exact Hce|]. split; [|split].
    + intros v l Hin. exact (Hf _ Hin).
    + intros v w Hin. exact (Hf _ Hin).
    + exact Hk.
Qed.

Lemma C8_witness :
  let openapi :=
    {| paths := [("/pets", [("get", {| deprecated := false;
                                       op_tags := ["Pet"; "Pet"] |})])];
       tags := []; webhooks := [] |} in
  let tree := _generateTreeFromTags openapi false in
  NoDup (nodes tree) /\ NoDup (edges tree) /\
  edges tree = created_edges (_calls tree) /\
  is_request "path:Pet:/pets:get" tree.
Proof.
  cbv zeta.
  pose proof (C8_only_requests_written_twice
                {| paths := [("/pets", [("get", {| deprecated := false;
                                   op_tags := ["Pet"; "Pet"] |})])];
                   tags := []; webhooks := [] |}
                {| folderStrategy := Some "tags"; includeWebhooks := false;
                   includeDeprecated := false |} _ eq_refl)
    as [Hn [He [_ [_ [_ [Hce [_ [Hedge _]]]]]]]].
  split; [exact Hn|]. split; [exact He|]. split; [exact Hce|].
  apply (Hedge "path:Pet" "path:Pet:/pets:get").
  vm_compute. auto 10.
Defined.

(** C8 as stated fails: the paths [/user] and [/user/] have the same
    segments, so the second [get] writes the request node of the first
    again, with another value, and sets its edge again. *)
Lemma C8_counterexample :
  let operation := {| deprecated := false; op_tags := [] |} in
  let openapi :=
    {| paths := [("/user", [("get", operation)]);
                 ("/user/", [("get", operation)])];
       tags := []; webhooks := [] |} in
  exists tree,
    module_exports openapi
      {| folderStrategy := Some "paths"; includeWebhooks := false;
         includeDeprecated := false |} = Returned tree /\
    In (SetNode "path:request:user:get" (path_request "/user" "get" "user"),
        false) (_calls tree) /\
    In (SetNode "path:request:user:get" (path_request "/user/" "get" "user"),
        true) (_calls tree) /\
    In (SetEdge "path:folder:user" "path:request:user:get", true)
       (_calls tree) /\
    node "path:request:user:get" tree
    = Some (path_request "/user/" "get" "user") /\
    path_request "/user/" "get" "user" <> path_request "/user" "get" "user".
Proof.
  cbv zeta. eexists. split; [reflexivity|].
  split; [vm_compute; auto 10|]. split; [vm_compute; auto 10|].
  split; [vm_compute; auto 10|]. split; [reflexivity | discriminate].
Qed.

(** ** C6: the webhook pass *)

Lemma forEach_flat_map {A B St} (h : A -> list B) (l : list A)
    (f : B -> St -> St) (s : St) :
  forEach (flat_map h l) f s
  = forEach l (fun x t => forEach (h x) f t) s.
Proof.
  revert s. induction l as [|x l IH]; intros s; [reflexivity|].
  cbn [flat_map]. rewrite forEach_app, forEach_cons. apply IH.
Qed.

(** The two nested loops of the webhook pass run [webhook_add] on the
    operations that pass the deprecation test, in order. *)
Lemma webhook_loops_flat incl (hooks : obj (obj Operation)) (t : Graph) :
  forOwn hooks
    (fun methodData path =>
       forOwn methodData (webhook_method incl path)) t
  = forEach (webhook_operations incl hooks) webhook_add t.
Proof.
  unfold webhook_operations. rewrite forEach_flat_map. unfold forOwn.
  apply forEach_ext. intros [path item] u _. cbn [fst snd].
  rewrite forEach_map.
  rewrite <- (forEach_filter
                (fun kv => incl || negb (deprecated (snd kv))) item
                (fun kv => webhook_method incl path (snd kv) (fst kv))).
  - apply forEach_ext. intros [method data] w Hin. cbn [fst snd].
    apply filter_In in Hin. destruct Hin as [_ Hk]. cbn [snd] in Hk.
    unfold webhook_method, webhook_add, webhookId, webhookFolderId.
    cbn [fst snd].
    replace (negb incl && deprecated data) with false
      by (destruct incl, (deprecated data); simpl in *; congruence).
    reflexivity.
  - intros [method data] w _ Hk. cbn [fst snd] in *.
    unfold webhook_method.
    replace (negb incl && deprecated data) with true
      by (destruct incl, (deprecated data); simpl in *; congruence).
    reflexivity.
Qed.

Lemma webhookId_index (path method : string) :
  arrayIndex (webhookId path method) = None.
Proof. reflexivity. Qed.

Lemma webhookFolderId_index : arrayIndex webhookFolderId = None.
Proof. reflexivity. Qed.

Lemma webhookId_not_folder (path method : string) :
  String.eqb webhookFolderId (webhookId path method) = false.
Proof.
  apply String.eqb_neq. unfold webhookFolderId, webhookId. intros H.
  apply app_inv_head in H.
  change (":" ++ "folder" = ":" ++ (path ++ ":" ++ method)) in H.
  apply app_inv_head in H. apply (f_equal (mentions ":")) in H.
  rewrite mentions_app in H. cbn in H. rewrite orb_true_r in H.
  discriminate.
Qed.

Section WebhookAdd.

Variable t : Graph.
Hypothesis folder_present : hasNode webhookFolderId t = true.
Variable op : string * string.

Let id := webhookId (fst op) (snd op).

Lemma webhook_add_hasNode (v : string) :
  hasNode v (webhook_add op t) = String.eqb v id || hasNode v t.
Proof.
  unfold webhook_add. fold id. rewrite hasNode_setEdge, hasNode_setNode.
  destruct (hasEdge webhookFolderId id
              (setNode id (webhook_request (fst op) (snd op)) t));
    [reflexivity|].
  destruct (String.eqb_spec v id) as [->|_]; [reflexivity|]. cbn [orb].
  destruct (String.eqb_spec v webhookFolderId) as [->|_]; [|reflexivity].
  now rewrite folder_present.
Qed.

Lemma webhook_add_node (v : string) :
  node v (webhook_add op t)
  = if String.eqb v id then Some (webhook_request (fst op) (snd op))
    else node v t.
Proof. unfold webhook_add. fold id. now rewrite node_setEdge, node_setNode. Qed.

Lemma webhook_add_hasEdge (a b : string) :
  hasEdge a b (webhook_add op t)
  = edge_eqb (a, b) (webhookFolderId, id) || hasEdge a b t.
Proof. unfold webhook_add. fold id. now rewrite hasEdge_setEdge. Qed.

Lemma webhook_add_store_ok : store_ok t -> store_ok (webhook_add op t).
Proof. intros H. now apply store_ok_setEdge, store_ok_setNode. Qed.

Lemma webhook_add_fresh :
  store_ok t -> hasNode id t = false ->
  nodes (webhook_add op t) = (nodes t ++ [id])%list /\
  edges (webhook_add op t) = (edges t ++ [(webhookFolderId, id)])%list.
Proof.
  intros Hok Hfresh. unfold webhook_add. fold id.
  set (t1 := setNode id (webhook_request (fst op) (snd op)) t).
  assert (Hid : hasNode id t1 = true)
    by (unfold t1; rewrite hasNode_setNode; now rewrite String.eqb_refl).
  assert (Hf : hasNode webhookFolderId t1 = true)
    by (unfold t1; rewrite hasNode_setNode, folder_present;
        apply orb_true_r).
  assert (He : hasEdge webhookFolderId id t1 = false).
  { unfold t1. rewrite hasEdge_setNode. apply hasEdge_false_iff.
    intros Hin. destruct (ok_ends Hok _ _ Hin). congruence. }
  split.
  - unfold nodes. rewrite (@nodes_setEdge _ _ _ Hf Hid). unfold t1, setNode.
    cbn [_nodes]. rewrite set_append.
    + unfold keys. now rewrite map_app.
    + exact Hfresh.
    + apply webhookId_index.
  - unfold edges. now rewrite edges_setEdge, He.
Qed.

End WebhookAdd.

(** Running [webhook_add] on a list of operations. *)
Section WebhookRun.

Lemma webhook_run_hasNode (ops : list (string * string)) (t : Graph)
    (v : string) :
  hasNode webhookFolderId t = true ->
  hasNode v (forEach ops webhook_add t)
  = hasNode v t
    || existsb (fun op => String.eqb v (webhookId (fst op) (snd op))) ops.
Proof.
  revert t. induction ops as [|op ops IH]; intros t Hf.
  - cbn. now rewrite orb_false_r.
  - rewrite forEach_cons, IH.
    + rewrite webhook_add_hasNode by exact Hf. cbn [existsb].
      now rewrite (orb_comm (String.eqb _ _)), orb_assoc.
    + rewrite webhook_add_hasNode by exact Hf. rewrite Hf.
      apply orb_true_r.
Qed.

Lemma webhook_run_hasEdge (ops : list (string * string)) (t : Graph)
    (a b : string) :
  hasEdge a b (forEach ops webhook_add t)
  = hasEdge a b t
    || existsb (fun op => edge_eqb (a, b)
                            (webhookFolderId,
                             webhookId (fst op) (snd op))) ops.
Proof.
  revert t. induction ops as [|op ops IH]; intros t.
  - cbn. now rewrite orb_false_r.
  - rewrite forEach_cons, IH, webhook_add_hasEdge. cbn [existsb].
    now rewrite (orb_comm (edge_eqb _ _)), orb_assoc.
Qed.

Lemma webhook_run_node_other (ops : list (string * string)) (t : Graph)
    (v : string) :
  existsb (fun op => String.eqb v (webhookId (fst op) (snd op))) ops
  = false ->
  node v (forEach ops webhook_add t) = node v t.
Proof.
  revert t. induction ops as [|op ops IH]; intros t Hv; [reflexivity|].
  cbn [existsb] in Hv. apply orb_false_iff in Hv. destruct Hv as [Hv Hr].
  rewrite forEach_cons, IH by exact Hr.
  now rewrite webhook_add_node, Hv.
Qed.

Lemma webhook_run_node (ops : list (string * string)) (t : Graph)
    (op : string * string) :
  In op ops ->
  exists l, node (webhookId (fst op) (snd op)) (forEach ops webhook_add t)
            = Some l /\ type l = "webhook~request".
Proof.
  revert t op. induction ops as [|op' ops IH]; intros t op Hin;
    [destruct Hin|].
  rewrite forEach_cons.
  destruct (existsb (fun o => String.eqb (webhookId (fst op) (snd op))
                                (webhookId (fst o) (snd o))) ops) eqn:Hlater.
  - apply existsb_exists in Hlater. destruct Hlater as [o [Ho He]].
    apply String.eqb_eq in He. rewrite He. now apply IH.
  - destruct Hin as [->|Hin].
    + rewrite webhook_run_node_other by exact Hlater.
      rewrite webhook_add_node, String.eqb_refl. eauto.
    + exfalso. apply not_true_iff_false in Hlater. apply Hlater.
      apply existsb_exists. exists op. split; [exact Hin|].
      apply String.eqb_refl.
Qed.

Lemma webhook_run_exact (ops : list (string * string)) (t : Graph) :
  store_ok t -> hasNode webhookFolderId t = true ->
  NoDup (map (fun op => webhookId (fst op) (snd op)) ops) ->
  (forall op, In op ops ->
     hasNode (webhookId (fst op) (snd op)) t = false) ->
  nodes (forEach ops webhook_add t)
  = (nodes t ++ map (fun op => webhookId (fst op) (snd op)) ops)%list /\
  edges (forEach ops webhook_add t)
  = (edges t
     ++ map (fun op => (webhookFolderId, webhookId (fst op) (snd op)))
            ops)%list.
Proof.
  revert t. induction ops as [|op ops IH]; intros t Hok Hf Hnd Hfresh.
  - cbn. now rewrite !List.app_nil_r.
  - rewrite forEach_cons. cbn [map] in *.
    inversion Hnd as [|? ? Hnotin Hnd']; subst.
    destruct (webhook_add_fresh t Hf op Hok) as [Hn He].
    { apply Hfresh. now left. }
    destruct (IH (webhook_add op t)) as [Hn' He'].
    + now apply webhook_add_store_ok.
    + rewrite webhook_add_hasNode by exact Hf. rewrite Hf.
      apply orb_true_r.
    + exact Hnd'.
    + intros o Ho. rewrite webhook_add_hasNode by exact Hf.
      rewrite Hfresh by now right. rewrite orb_false_r.
      apply String.eqb_neq. intros Heq. apply Hnotin. rewrite <- Heq.
      now apply (in_map (fun op => webhookId (fst op) (snd op))).
    + rewrite Hn', He', Hn, He, <- !List.app_assoc. auto.
Qed.

End WebhookRun.

Lemma filter_unique {A} (p : A -> bool) (x : A) (l : list A) :
  NoDup l -> In x l -> p x = true ->
  (forall e, In e l -> p e = true -> e = x) ->
  filter p l = [x].
Proof.
  induction l as [|a l IH]; intros Hnd Hin Hpx Huniq; [destruct Hin|].
  inversion Hnd as [|? ? Hnotin Hnd']; subst. cbn [filter].
  destruct Hin as [->|Hin].
  - rewrite Hpx. f_equal.
    destruct (filter p l) as [|e r] eqn:Hf; [reflexivity|].
    assert (He : In e (filter p l)) by (rewrite Hf; now left).
    apply filter_In in He. destruct He as [He Hpe].
    assert (e = x) by (apply Huniq; [now right | exact Hpe]).
    subst. contradiction.
  - destruct (p a) eqn:Hpa.
    + assert (a = x) by (apply Huniq; [now left | exact Hpa]).
      subst. contradiction.
    + apply IH; auto. intros e He. apply Huniq. now right.
Qed.

Lemma module_exports_with_webhooks openapi fs incl base :
  module_exports openapi
    {| folderStrategy := fs; includeWebhooks := false;
       includeDeprecated := incl |} = Returned base ->
  (base = _generateTreeFromTags openapi incl \/
   base = _generateTreeFromPathsV2 openapi incl) /\
  module_exports openapi
    {| folderStrategy := fs; includeWebhooks := true;
       includeDeprecated := incl |}
  = Returned (_generateWebhookEndpoints openapi base incl).
Proof.
  unfold module_exports. cbn [folderStrategy includeWebhooks
                              includeDeprecated].
  destruct fs as [s|]; [|discriminate].
  destruct (String.eqb s "tags").
  - intros [= <-]. split; [now left | reflexivity].
  - destruct (String.eqb s "paths"); [|discriminate].
    intros [= <-]. split; [now right | reflexivity].
Qed.

(** C6. Let [base] be the tree the exported function returns without
    [includeWebhooks].  With [includeWebhooks] it returns a tree [tree]
    such that: if [openapi.webhooks] is empty, [tree] is [base]; if not,
    [tree] has the webhook folder, new, present once and linked from the
    root by the only edge that ends in it; for every webhook operation
    that passes the deprecation test (every operation that is not
    deprecated, and the deprecated ones too under [includeDeprecated]) a
    new node holding a webhook request value, linked from the webhook
    folder; no other node or edge is added and the nodes of [base] keep
    their values; and when the identifiers of those operations are
    pairwise distinct the nodes added are exactly the folder followed
    by one node per operation, in order, and likewise for the edges. *)
Theorem C6_webhook_augmentation (openapi : OpenAPI) (fs : option string)
    (incl : bool) (base : Graph) :
  module_exports openapi
    {| folderStrategy := fs; includeWebhooks := false;
       includeDeprecated := incl |} = Returned base ->
  let ops := webhook_operations incl (webhooks openapi) in
  let id := fun op : string * string => webhookId (fst op) (snd op) in
  exists tree,
    module_exports openapi
      {| folderStrategy := fs; includeWebhooks := true;
         includeDeprecated := incl |} = Returned tree /\
    (webhooks openapi = [] -> tree = base) /\
    (webhooks openapi <> [] ->
     hasNode webhookFolderId base = false /\
     node webhookFolderId tree = Some webhook_folder /\
     count_occ string_dec (nodes tree) webhookFolderId = 1 /\
     edges_into webhookFolderId tree
     = [("root:collection", webhookFolderId)] /\
     (forall op, In op ops ->
        hasNode (id op) base = false /\
        (exists l, node (id op) tree = Some l /\
                   type l = "webhook~request") /\
        In (webhookFolderId, id op) (edges tree)) /\
     (forall v, hasNode v tree = true <->
        hasNode v base = true \/ v = webhookFolderId \/
        exists op, In op ops /\ v = id op) /\
     (forall v w, In (v, w) (edges tree) <->
        In (v, w) (edges base) \/
        (v, w) = ("root:collection", webhookFolderId) \/
        exists op, In op ops /\ (v, w) = (webhookFolderId, id op)) /\
     (forall v, hasNode v base = true -> node v tree = node v base) /\
     (NoDup (map id ops) ->
      nodes tree = (nodes base ++ webhookFolderId :: map id ops)%list /\
      edges tree
      = (edges base
         ++ ("root:collection", webhookFolderId)
            :: map (fun op => (webhookFolderId, id op)) ops)%list)).
Proof.
  intros Hbase ops id.
  destruct (module_exports_with_webhooks _ _ _ _ Hbase) as [Hb Hret].
  destruct (base_strategy_facts _ _ _ Hb) as [Hok [Hroot Hnw]].
  exists (_generateWebhookEndpoints openapi base incl).
  split; [exact Hret|]. unfold _generateWebhookEndpoints.
  split.
  { intros ->. reflexivity. }
  intros Hne. destruct (webhooks openapi) as [|e ws] eqn:Hw; [congruence|].
  cbn [isEmpty negb]. cbv zeta.
  rewrite webhook_loops_flat. fold ops.
  change (PATH_WEBHOOK ++ ":folder") with webhookFolderId.
  set (t1 := setEdge "root:collection" webhookFolderId
               (setNode webhookFolderId webhook_folder base)).
  set (tree := forEach ops webhook_add t1).
  (* the tree with the folder *)
  assert (Hwf : hasNode webhookFolderId base = false) by apply Hnw.
  assert (He1 : hasEdge "root:collection" webhookFolderId
                  (setNode webhookFolderId webhook_folder base) = false).
  { rewrite hasEdge_setNode. apply hasEdge_false_iff. intros Hin.
    destruct (ok_ends Hok _ _ Hin). congruence. }
  assert (Hn1 : forall v, hasNode v t1
                          = String.eqb v webhookFolderId || hasNode v base).
  { intros v. unfold t1. rewrite hasNode_setEdge, He1, hasNode_setNode.
    destruct (String.eqb_spec v webhookFolderId) as [->|_]; [reflexivity|].
    cbn [orb].
    destruct (String.eqb_spec v "root:collection") as [->|_];
      [now rewrite Hroot | reflexivity]. }
  assert (Hv1 : forall v, node v t1
                          = if String.eqb v webhookFolderId
                            then Some webhook_folder else node v base).
  { intros v. unfold t1. now rewrite node_setEdge, node_setNode. }
  assert (Hf1 : hasNode webhookFolderId t1 = true)
    by (rewrite Hn1; now rewrite String.eqb_refl).
  assert (Hok1 : store_ok t1)
    by now apply store_ok_setEdge, store_ok_setNode.
  assert (Hnodes1 : nodes t1 = (nodes base ++ [webhookFolderId])%list).
  { unfold t1, nodes. rewrite nodes_setEdge.
    - unfold setNode. cbn [_nodes]. rewrite set_append.
      + unfold keys. now rewrite map_app.
      + exact Hwf.
      + apply webhookFolderId_index.
    - rewrite hasNode_setNode, Hroot. apply orb_true_r.
    - rewrite hasNode_setNode. now rewrite String.eqb_refl. }
  assert (Hedges1 : edges t1
            = (edges base ++ [("root:collection", webhookFolderId)])%list).
  { unfold t1, edges. now rewrite edges_setEdge, He1. }
  assert (Hoktree : store_ok tree).
  { unfold tree. apply (forEach_inv store_ok); [|exact Hok1].
    intros op u _ Hu. now apply webhook_add_store_ok. }
  assert (Hfresh : forall op, hasNode (id op) base = false)
    by (intros op; apply Hnw).
  assert (Hnot : forall op, String.eqb webhookFolderId (id op) = false)
    by (intros op; apply webhookId_not_folder).
  (* membership of nodes and edges *)
  assert (Hnodes : forall v, hasNode v tree = true <->
            hasNode v base = true \/ v = webhookFolderId \/
            exists op, In op ops /\ v = id op).
  { intros v. unfold tree. rewrite webhook_run_hasNode by exact Hf1.
    rewrite Hn1, !orb_true_iff, String.eqb_eq, existsb_exists.
    split.
    - intros [[H|H]|[op [Hin Hop]]]; auto.
      right. right. exists op. split; [exact Hin|].
      now apply String.eqb_eq.
    - intros [H|[H|[op [Hin Hop]]]]; auto.
      right. exists op. split; [exact Hin|]. now apply String.eqb_eq. }
  assert (Hedges : forall v w, In (v, w) (edges tree) <->
            In (v, w) (edges base) \/
            (v, w) = ("root:collection", webhookFolderId) \/
            exists op, In op ops /\ (v, w) = (webhookFolderId, id op)).
  { intros v w. unfold edges. rewrite <- !hasEdge_true_iff.
    unfold tree. rewrite webhook_run_hasEdge.
    unfold t1 at 1. rewrite hasEdge_setEdge, hasEdge_setNode.
    rewrite !orb_true_iff, edge_eqb_eq, existsb_exists.
    split.
    - intros [[H|H]|[op [Hin Hop]]]; auto.
      right. right. exists op. split; [exact Hin|].
      now apply edge_eqb_eq.
    - intros [H|[H|[op [Hin Hop]]]]; auto.
      right. exists op. split; [exact Hin|]. now apply edge_eqb_eq. }
  assert (Hfolder : node webhookFolderId tree = Some webhook_folder).
  { unfold tree. rewrite webhook_run_node_other.
    - now rewrite Hv1, String.eqb_refl.
    - apply not_true_is_false. intros Hex.
      apply existsb_exists in Hex. destruct Hex as [op [_ Hop]].
      change (String.eqb webhookFolderId (id op) = true) in Hop.
      now rewrite Hnot in Hop. }
  split; [exact Hwf|]. split; [exact Hfolder|].
  split.
  { apply NoDup_count_occ'; [apply (ok_nodes Hoktree)|].
    apply hasNode_true_iff. exact (@node_hasNode _ _ _ Hfolder). }
  split.
  { unfold edges_into. apply filter_unique.
    - apply (ok_edges Hoktree).
    - apply Hedges. right. now left.
    - apply String.eqb_refl.
    - intros [v w] Hin Hsnd. cbn [snd] in Hsnd.
      apply String.eqb_eq in Hsnd. subst w.
      apply Hedges in Hin. destruct Hin as [Hin|[Hin|[op [_ Hop]]]].
      + destruct (ok_ends Hok _ _ Hin). congruence.
      + exact Hin.
      + assert (Hx : webhookFolderId = id op) by congruence.
        apply String.eqb_eq in Hx. now rewrite Hnot in Hx. }
  split.
  { intros op Hin. split; [apply Hfresh|]. split.
    - unfold tree. now apply webhook_run_node.
    - apply Hedges. right. right. now exists op. }
  split; [exact Hnodes|]. split; [exact Hedges|].
  split.
  { intros v Hv. unfold tree. rewrite webhook_run_node_other.
    - rewrite Hv1.
      destruct (String.eqb_spec v webhookFolderId) as [->|_];
        [congruence | reflexivity].
    - apply not_true_is_false. intros Hex.
      apply existsb_exists in Hex. destruct Hex as [op [_ Hop]].
      apply String.eqb_eq in Hop. subst v.
      change (hasNode (id op) base = true) in Hv.
      now rewrite Hfresh in Hv. }
  intros Hnd.
  destruct (webhook_run_exact ops t1 Hok1 Hf1 Hnd) as [Hn He].
  { intros op _. rewrite Hn1. change (webhookId (fst op) (snd op))
      with (id op). rewrite Hfresh, orb_false_r, String.eqb_sym.
    apply Hnot. }
  fold tree in Hn, He. rewrite Hn, He, Hnodes1, Hedges1.
  now rewrite <- !List.app_assoc.
Qed.

Lemma C6_witness :
  let operation := {| deprecated := false; op_tags := [] |} in
  let openapi :=
    {| paths := [("/user", [("get", operation)])]; tags := [];
       webhooks := [("newPet", [("post", operation);
                                ("put", {| deprecated := true;
                                           op_tags := [] |})])] |} in
  exists base tree,
    module_exports openapi
      {| folderStrategy := Some "paths"; includeWebhooks := false;
         includeDeprecated := false |} = Returned base /\
    module_exports openapi
      {| folderStrategy := Some "paths"; includeWebhooks := true;
         includeDeprecated := false |} = Returned tree /\
    nodes tree
    = (nodes base ++ ["path~webhook:folder"; "path~webhook:newPet:post"])%list
    /\
    edges tree
    = (edges base
       ++ [("root:collection", "path~webhook:folder");
           ("path~webhook:folder", "path~webhook:newPet:post")])%list.
Proof.
  cbv zeta. eexists.
  destruct (C6_webhook_augmentation
              {| paths := [("/user", [("get", {| deprecated := false;
                                                 op_tags := [] |})])];
                 tags := [];
                 webhooks := [("newPet",
                               [("post", {| deprecated := false;
                                            op_tags := [] |});
                                ("put", {| deprecated := true;
                                           op_tags := [] |})])] |}
              (Some "paths") false _ eq_refl) as [tree [Hret [_ Hfull]]].
  exists tree. split; [reflexivity|]. split; [exact Hret|].
  destruct Hfull as [_ [_ [_ [_ [_ [_ [_ [_ Hexact]]]]]]]]; [discriminate|].
  apply Hexact. vm_compute. repeat constructor; simpl; intuition discriminate.
Defined.

(* ================================================================== *)
(** * Further properties *)
(* ================================================================== *)

Unset Implicit Arguments.

(** ** The segments of a path key *)

Lemma split_not_nil (sep : ascii) (s : string) : split sep s <> [].
Proof.
  induction s as [|c r IH]; simpl; [discriminate|].
  destruct (Ascii.eqb c sep); [discriminate|].
  destruct (split sep r); discriminate.
Qed.

(** Splitting cuts at every separator: the pieces of [a ++ sep ++ b] are
    those of [a] followed by those of [b]. *)
Lemma split_sep (sep : ascii) (a b : string) :
  split sep (a ++ String sep b) = (split sep a ++ split sep b)%list.
Proof.
  induction a as [|c a IH]; simpl.
  - now rewrite Ascii.eqb_refl.
  - destruct (Ascii.eqb c sep); [now rewrite IH|].
    rewrite IH. pose proof (split_not_nil sep a) as Hne.
    destruct (split sep a) as [|h t]; [congruence | reflexivity].
Qed.

Lemma compact_app (l1 l2 : list string) :
  compact (l1 ++ l2)%list = (compact l1 ++ compact l2)%list.
Proof. apply filter_app. Qed.

Lemma compact_id (l : list string) :
  forallb segment l = true -> compact l = l.
Proof.
  induction l as [|a l IH]; [reflexivity|]. simpl.
  unfold segment at 1. rewrite !andb_true_iff. intros [[Ha _] Hl].
  rewrite Ha. f_equal. auto.
Qed.

Lemma join_not_empty (l : list string) :
  l <> [] -> forallb segment l = true -> join l <> "".
Proof.
  intros Hne Hall Hj. destruct l as [|a l]; [congruence|].
  simpl in Hall. apply andb_true_iff in Hall. destruct Hall as [Ha _].
  unfold segment in Ha. apply andb_true_iff in Ha. destruct Ha as [Ha _].
  destruct a as [|c a]; [discriminate|].
  destruct l as [|b l]; [rewrite join_single in Hj | rewrite join_cons in Hj];
    discriminate.
Qed.

(** X1. Line 60: the path [/] is kept as the single segment [/]; for
    every other path key the segments are non-empty and free of slashes,
    and they are a normal form of the key: joined again with slashes,
    with or without a leading slash, they split into themselves. *)
Theorem pathSplit_of_normal_form (completePath : string) :
  let segs := pathSplit_of completePath in
  (completePath = "/" /\ segs = ["/"]) \/
  (completePath <> "/" /\ forallb segment segs = true /\
   (segs <> [] ->
    pathSplit_of (join segs) = segs /\
    pathSplit_of ("/" ++ join segs) = segs)).
Proof.
  cbv zeta. destruct (String.eqb_spec completePath "/") as [->|Hne].
  - left. split; reflexivity.
  - right. split; [exact Hne|].
    assert (Hseg : forallb segment (pathSplit_of completePath) = true).
    { unfold pathSplit_of.
      destruct (String.eqb_spec completePath "/") as [He|_]; [congruence|].
      apply compact_segments, split_slashfree. }
    split; [exact Hseg|]. intros Hn.
    set (segs := pathSplit_of completePath) in *.
    assert (Hsplit : compact (split "/" (join segs)) = segs).
    { rewrite split_join by (auto using segment_slashfree).
      now apply compact_id. }
    split.
    + unfold pathSplit_of.
      destruct (String.eqb_spec (join segs) "/") as [He|_];
        [now apply join_slash in He | exact Hsplit].
    + unfold pathSplit_of.
      destruct (String.eqb_spec ("/" ++ join segs) "/") as [He|_].
      * exfalso. injection He as He. now apply join_not_empty in He.
      * change ("/" ++ join segs) with ("" ++ String "/" (join segs)).
        rewrite split_sep, compact_app, Hsplit. reflexivity.
Qed.

Lemma pathSplit_of_sep (a b : string) :
  a ++ String "/" b <> "/" ->
  pathSplit_of (a ++ String "/" b)
  = (compact (split "/" a) ++ compact (split "/" b))%list.
Proof.
  intros Hne. unfold pathSplit_of.
  destruct (String.eqb_spec (a ++ String "/" b) "/") as [He|_];
    [congruence|].
  now rewrite split_sep, compact_app.
Qed.

(** X2. Line 60: slashes only separate.  A trailing slash, a leading
    slash and a doubled slash change nothing in the segments of a path
    key (away from the keys [""] and [/], which are special). *)
Theorem pathSplit_of_ignores_extra_slashes (a b : string) :
  (a <> "" -> a <> "/" -> pathSplit_of (a ++ "/") = pathSplit_of a) /\
  (b <> "" -> b <> "/" -> pathSplit_of ("/" ++ b) = pathSplit_of b) /\
  (a ++ b <> "" ->
   pathSplit_of (a ++ "//" ++ b) = pathSplit_of (a ++ "/" ++ b)).
Proof.
  split; [|split].
  - intros Ha Hs. rewrite pathSplit_of_sep.
    + simpl. rewrite List.app_nil_r. unfold pathSplit_of.
      now destruct (String.eqb_spec a "/").
    + destruct a as [|c [|c' a]]; simpl; congruence.
  - intros Hb Hs. change ("/" ++ b) with ("" ++ String "/" b).
    rewrite pathSplit_of_sep.
    + simpl. unfold pathSplit_of. now destruct (String.eqb_spec b "/").
    + simpl. congruence.
  - intros Hab.
    assert (Hne : a ++ String "/" b <> "/").
    { destruct a as [|c a]; simpl in *; [congruence|].
      intros [= _ H]. destruct a; discriminate. }
    change (a ++ "/" ++ b) with (a ++ String "/" b).
    change (a ++ "//" ++ b) with (a ++ String "/" (String "/" b)).
    rewrite !pathSplit_of_sep; try exact Hne.
    + change (String "/" b) with ("" ++ String "/" b).
      now rewrite split_sep, compact_app.
    + destruct a as [|c a]; simpl; [discriminate|].
      intros [= _ H]. destruct a; discriminate.
Qed.

Lemma only_slashes_split (s : string) :
  only_slashes s = true <-> compact (split "/" s) = [].
Proof.
  induction s as [|c r IH]; simpl; [tauto|].
  destruct (Ascii.eqb c "/") eqn:Hc; simpl.
  - exact IH.
  - pose proof (split_not_nil "/" r) as Hne.
    destruct (split "/" r) as [|h t]; [congruence|].
    simpl. split; discriminate.
Qed.

(** X3. Lines 60-71 and 115-116: a path key with no segment (the empty
    key, or two or more slashes and nothing else) takes the branch of the
    paths that do not have exactly one segment, whose loop then runs over
    no segment: whatever operations the key holds, the callback of the
    path strategy leaves the tree as it is.  Such keys are the only ones
    without a segment. *)
Theorem pathsV2_path_without_segments (openapi : OpenAPI) (incl : bool)
    (completePath : string) (tree : Graph) :
  only_slashes completePath = true -> completePath <> "/" ->
  pathSplit_of completePath = [] /\
  pathsV2_path openapi incl completePath tree = tree /\
  (forall p, pathSplit_of p = [] -> only_slashes p = true /\ p <> "/").
Proof.
  intros Hs Hne.
  assert (He : pathSplit_of completePath = []).
  { unfold pathSplit_of.
    destruct (String.eqb_spec completePath "/"); [congruence|].
    now apply only_slashes_split. }
  split; [exact He|]. split.
  - unfold pathsV2_path. now rewrite He.
  - intros p Hp. unfold pathSplit_of in Hp.
    destruct (String.eqb_spec p "/") as [Heq|Hn]; [discriminate|].
    split; [now apply only_slashes_split | exact Hn].
Qed.

Lemma pathsV2_path_without_segments_witness :
  pathSplit_of "//" = [] /\
  pathsV2_path
    {| paths := [("//", [("get", {| deprecated := false; op_tags := [] |})])];
       tags := []; webhooks := [] |} true "//"
    (setNode "root:collection" root_value new_Graph)
  = setNode "root:collection" root_value new_Graph /\
  (forall p, pathSplit_of p = [] -> only_slashes p = true /\ p <> "/").
Proof.
  apply (pathsV2_path_without_segments _ true "//"
           (setNode "root:collection" root_value new_Graph)).
  - reflexivity.
  - discriminate.
Defined.

(** ** The shape of the tree *)

Lemma reachable_setNode (g : Graph) (u v : string) (l : Label) :
  reachable g u -> reachable (setNode v l g) u.
Proof.
  intros H. induction H as [|a b _ IH Hin]; [apply reach_root|].
  apply reach_edge with a; [exact IH | exact Hin].
Qed.

Lemma in_edges_setEdge (g : Graph) (a b v w : string) :
  In (a, b) (edges (setEdge v w g))
  <-> (a, b) = (v, w) \/ In (a, b) (edges g).
Proof.
  rewrite <- !hasEdge_true_iff, hasEdge_setEdge, orb_true_iff.
  now rewrite edge_eqb_eq.
Qed.

Lemma reachable_setEdge (g : Graph) (u v w : string) :
  reachable g u -> reachable (setEdge v w g) u.
Proof.
  intros H. induction H as [|a b _ IH Hin]; [apply reach_root|].
  apply reach_edge with a; [exact IH|].
  apply in_edges_setEdge. now right.
Qed.

Lemma grows_refl (g : Graph) : grows g g.
Proof.
  split; [auto|]. split; [auto|]. split; [|auto].
  exists []. now rewrite List.app_nil_r.
Qed.

Lemma grows_trans (g g' g'' : Graph) :
  grows g g' -> grows g' g'' -> grows g g''.
Proof.
  intros [H1 [H2 [[r Hr] H4]]] [H1' [H2' [[r' Hr'] H4']]].
  split; [auto|]. split; [auto|]. split; [|auto].
  exists (r ++ r')%list. now rewrite Hr', Hr, List.app_assoc.
Qed.

Lemma nodes_setNode (g : Graph) (v : string) (l : Label) :
  arrayIndex v = None ->
  nodes (setNode v l g)
  = (nodes g ++ (if hasNode v g then [] else [v]))%list.
Proof.
  intros Hidx. unfold nodes, setNode, hasNode. cbn [_nodes].
  destruct (has v (_nodes g)) eqn:Hv.
  - unfold set. rewrite Hv, keys_replace. now rewrite List.app_nil_r.
  - rewrite (@set_append _ v (Some l) (_nodes g) Hv Hidx). unfold keys.
    now rewrite map_app.
Qed.

(** Writing a node keeps what is there when the value is a request
    value or the identifier is new. *)
Lemma grows_setNode (g : Graph) (v : string) (l : Label) :
  arrayIndex v = None -> request_type l = true \/ hasNode v g = false ->
  grows g (setNode v l g).
Proof.
  intros Hidx Hl. split; [|split; [|split]].
  - intros u Hu. rewrite hasNode_setNode, Hu. apply orb_true_r.
  - intros a b Hab. now rewrite hasEdge_setNode.
  - rewrite (nodes_setNode _ _ _ Hidx). eauto.
  - intros u [l0 [Hl0 Hr]]. unfold is_request. rewrite node_setNode.
    destruct (String.eqb_spec u v) as [->|_]; [|eauto].
    destruct Hl as [Hl|Hl]; [eauto|].
    apply node_hasNode in Hl0. congruence.
Qed.

Lemma grows_setEdge (g : Graph) (v w : string) :
  hasNode v g = true -> hasNode w g = true -> grows g (setEdge v w g).
Proof.
  intros Hv Hw. split; [|split; [|split]].
  - intros u Hu. now apply hasNode_setEdge_mono.
  - intros a b Hab. rewrite hasEdge_setEdge, Hab. apply orb_true_r.
  - exists []. unfold nodes. rewrite (nodes_setEdge v w g Hv Hw).
    now rewrite List.app_nil_r.
  - intros u. unfold is_request. now rewrite node_setEdge.
Qed.

Lemma grows_add (g : Graph) (u v : string) (l : Label) :
  hasNode u g = true -> arrayIndex v = None ->
  request_type l = true \/ hasNode v g = false ->
  grows g (setEdge u v (setNode v l g)).
Proof.
  intros Hu Hidx Hl.
  apply (grows_trans _ (setNode v l g));
    [now apply grows_setNode | apply grows_setEdge].
  - rewrite hasNode_setNode, Hu. apply orb_true_r.
  - rewrite hasNode_setNode, String.eqb_refl. reflexivity.
Qed.

Lemma added_present (g : Graph) (u v : string) (l : Label) :
  hasNode v (setEdge u v (setNode v l g)) = true /\
  hasEdge u v (setEdge u v (setNode v l g)) = true.
Proof.
  split.
  - apply hasNode_setEdge_mono. rewrite hasNode_setNode.
    now rewrite String.eqb_refl.
  - now rewrite hasEdge_setEdge, edge_eqb_refl.
Qed.

Section TreeInv.

Variable Q : string -> Label -> Prop.
Variable E : string -> string -> Prop.

Lemma tree_inv_root (X : list string) (g : Graph) :
  tree_inv Q E X g -> hasNode "root:collection" g = true.
Proof. intros H. exact (@node_hasNode _ _ _ (inv_root H)). Qed.

Lemma tree_inv_setNode (X : list string) (g : Graph) (v : string)
    (l : Label) :
  tree_inv Q E X g -> v <> "root:collection" -> arrayIndex v = None ->
  Q v l -> tree_inv Q E (v :: X) (setNode v l g).
Proof.
  intros [Hs Hr Hh Hn He Hx] Hv Hidx Hq. split.
  - now apply store_ok_setNode.
  - rewrite node_setNode.
    destruct (String.eqb_spec "root:collection" v); [congruence | exact Hr].
  - rewrite (nodes_setNode _ _ _ Hidx).
    destruct (nodes g); [discriminate | exact Hh].
  - intros u. rewrite hasNode_setNode, node_setNode.
    destruct (String.eqb_spec u v) as [->|_]; [eauto|]. exact (Hn u).
  - exact He.
  - intros u. rewrite hasNode_setNode.
    destruct (String.eqb_spec u v) as [->|_]; [left; now left|].
    cbn [orb]. intros Hu. destruct (Hx u Hu) as [Hin|Hre].
    + left. now right.
    + right. now apply reachable_setNode.
Qed.

Lemma tree_inv_setEdge (X Y : list string) (g : Graph) (u v : string) :
  tree_inv Q E X g -> hasNode u g = true -> hasNode v g = true ->
  ~ In u X -> E u v -> (forall x, In x X -> x = v \/ In x Y) ->
  tree_inv Q E Y (setEdge u v g).
Proof.
  intros [Hs Hr Hh Hn He Hx] Hu Hv Hnot Huv Hxy. split.
  - now apply store_ok_setEdge.
  - now rewrite node_setEdge.
  - unfold nodes. now rewrite (nodes_setEdge u v g Hu Hv).
  - intros x. unfold hasNode. rewrite (nodes_setEdge u v g Hu Hv).
    rewrite node_setEdge. exact (Hn x).
  - intros a b Hin. apply in_edges_setEdge in Hin.
    destruct Hin as [[= -> ->]|Hin]; [exact Huv | now apply He].
  - assert (Hru : reachable (setEdge u v g) u).
    { apply reachable_setEdge. destruct (Hx u Hu); tauto. }
    assert (Hrv : reachable (setEdge u v g) v).
    { apply reach_edge with u; [exact Hru|].
      apply in_edges_setEdge. now left. }
    intros x. unfold hasNode. rewrite (nodes_setEdge u v g Hu Hv).
    intros Hxn. destruct (Hx x Hxn) as [Hin|Hre].
    + destruct (Hxy x Hin) as [->|Hy]; [now right | now left].
    + right. now apply reachable_setEdge.
Qed.

(** A block of two calls: a node is written, then linked from a node
    that was there. *)
Lemma tree_inv_add (g : Graph) (u v : string) (l : Label) :
  tree_inv Q E [] g -> hasNode u g = true -> u <> v ->
  v <> "root:collection" -> arrayIndex v = None -> Q v l -> E u v ->
  tree_inv Q E [] (setEdge u v (setNode v l g)).
Proof.
  intros H Hu Huv Hv Hidx Hq He.
  apply (tree_inv_setEdge [v] []).
  - now apply tree_inv_setNode.
  - rewrite hasNode_setNode, Hu. apply orb_true_r.
  - rewrite hasNode_setNode, String.eqb_refl. reflexivity.
  - intros [->|[]]. congruence.
  - exact He.
  - intros x [<-|[]]. now left.
Qed.

End TreeInv.

Lemma tree_inv_weaken (Q Q' : string -> Label -> Prop)
    (E E' : string -> string -> Prop) (X : list string) (g : Graph) :
  (forall v l, Q v l -> Q' v l) -> (forall u v, E u v -> E' u v) ->
  tree_inv Q E X g -> tree_inv Q' E' X g.
Proof.
  intros HQ HE [Hs Hr Hh Hn He Hx]. split; auto.
  intros v Hv. destruct (Hn v Hv) as [l [Hl Hq]]. eauto.
Qed.

Lemma tree_inv_start (Q : string -> Label -> Prop)
    (E : string -> string -> Prop) :
  Q "root:collection" root_value ->
  tree_inv Q E [] (setNode "root:collection" root_value new_Graph).
Proof.
  intros Hq. split.
  - apply root_present.
  - reflexivity.
  - reflexivity.
  - intros v. rewrite hasNode_setNode, node_setNode.
    destruct (String.eqb_spec v "root:collection") as [->|_];
      [eauto | discriminate].
  - intros u v [].
  - intros v. rewrite hasNode_setNode.
    destruct (String.eqb_spec v "root:collection") as [->|_];
      [right; apply reach_root | discriminate].
Qed.

(** A loop whose callbacks only add to the tree: what the callback of
    one element leaves in place is still there at the end. *)
Lemma forEach_grows {A} (P R : Graph -> Prop) (l : list A)
    (f : A -> Graph -> Graph) (x0 : A) (s : Graph) :
  (forall x t, In x l -> P t -> P (f x t) /\ grows t (f x t)) ->
  (forall t, P t -> R (f x0 t)) ->
  (forall g g', grows g g' -> R g -> R g') ->
  In x0 l -> P s -> R (forEach l f s).
Proof.
  intros Hstep Hx Hmono Hin Hs.
  destruct (in_split _ _ Hin) as [l1 [l2 Hl]].
  assert (Hall : forall l' t, incl l' l -> P t ->
                   P (forEach l' f t) /\ grows t (forEach l' f t)).
  { induction l' as [|y l' IH]; intros t Hincl Ht.
    - split; [exact Ht | apply grows_refl].
    - rewrite forEach_cons.
      destruct (Hstep y t) as [Hp Hg]; [apply Hincl; now left | exact Ht|].
      destruct (IH (f y t)) as [Hp' Hg'];
        [intros z Hz; apply Hincl; now right | exact Hp|].
      split; [exact Hp' | exact (grows_trans _ _ _ Hg Hg')]. }
  rewrite Hl, forEach_app, forEach_cons.
  destruct (Hall l1 s) as [H1 _];
    [intros y Hy; rewrite Hl; apply in_or_app; now left | exact Hs|].
  destruct (Hstep x0 (forEach l1 f s) Hin H1) as [H2 _].
  destruct (Hall l2 (f x0 (forEach l1 f s))) as [_ Hg];
    [intros y Hy; rewrite Hl; apply in_or_app; right; now right
    | exact H2|].
  exact (Hmono _ _ Hg (Hx _ H1)).
Qed.

Lemma forOwn_grows {V} (P R : Graph -> Prop) (o : obj V)
    (f : V -> string -> Graph -> Graph) (k0 : string) (v0 : V)
    (s : Graph) :
  (forall k v t, In (k, v) o -> P t -> P (f v k t) /\ grows t (f v k t)) ->
  (forall t, P t -> R (f v0 k0 t)) ->
  (forall g g', grows g g' -> R g -> R g') ->
  In (k0, v0) o -> P s -> R (forOwn o f s).
Proof.
  intros Hstep Hx Hmono Hin Hs. unfold forOwn.
  apply (forEach_grows P R o (fun kv => f (snd kv) (fst kv)) (k0, v0));
    auto.
  intros [k v] t Hkv Ht. simpl. now apply Hstep.
Qed.

Lemma forEach_inv_grows {A} (P : Graph -> Prop) (l : list A)
    (f : A -> Graph -> Graph) (s : Graph) :
  (forall x t, In x l -> P t -> P (f x t) /\ grows t (f x t)) ->
  P s -> P (forEach l f s) /\ grows s (forEach l f s).
Proof.
  intros Hstep Hs.
  apply (forEach_inv (fun u => P u /\ grows s u) l f);
    [|split; [exact Hs | apply grows_refl]].
  intros x t Hx [Ht Hg]. destruct (Hstep x t Hx Ht) as [Ht' Hg'].
  split; [exact Ht' | exact (grows_trans _ _ _ Hg Hg')].
Qed.

Lemma forOwn_inv_grows {V} (P : Graph -> Prop) (o : obj V)
    (f : V -> string -> Graph -> Graph) (s : Graph) :
  (forall k v t, In (k, v) o -> P t -> P (f v k t) /\ grows t (f v k t)) ->
  P s -> P (forOwn o f s) /\ grows s (forOwn o f s).
Proof.
  intros Hstep Hs. unfold forOwn. apply forEach_inv_grows; [|exact Hs].
  intros [k v] t Hkv Ht. simpl. now apply Hstep.
Qed.

(** ** The tree of the path strategy *)

Lemma allowed_colonfree (method : string) :
  allowed method = true -> mentions ":" method = false.
Proof.
  intros H. apply allowed_iff in H. unfold http_methods in H.
  destruct H as [H|H]; simpl in H;
    repeat (destruct H as [H|H]; [subst method; reflexivity|]);
    destruct H.
Qed.

(** An identifier that ends in [:method] has one reading when the method
    has no colon. *)
Lemma colon_split (a a' m m' : string) :
  mentions ":" m = false -> mentions ":" m' = false ->
  a ++ ":" ++ m = a' ++ ":" ++ m' -> a = a' /\ m = m'.
Proof.
  intros Hm Hm'. revert a'.
  induction a as [|c a IH]; intros [|c' a'] H; simpl in H.
  - injection H as H. now split.
  - injection H as Hc H. exfalso. subst m.
    rewrite mentions_app in Hm. simpl in Hm.
    now rewrite orb_true_r in Hm.
  - injection H as Hc H. exfalso. subst m'.
    rewrite mentions_app in Hm'. simpl in Hm'.
    now rewrite orb_true_r in Hm'.
  - injection H as -> H. destruct (IH a' H) as [-> ->]. now split.
Qed.

Lemma requestId_inj (s s' : list string) (m m' : string) :
  segments s -> segments s' -> allowed m = true -> allowed m' = true ->
  requestId s m = requestId s' m' -> s = s' /\ m = m'.
Proof.
  intros Hs Hs' Hm Hm' H. unfold requestId in H.
  apply app_inv_head in H.
  apply colon_split in H; auto using allowed_colonfree.
  destruct H as [Hj ->]. split; [|reflexivity]. now apply join_inj.
Qed.

(** The source of an edge of the path strategy is fixed by its target. *)
Lemma paths_edge_fun (u u' v : string) :
  paths_edge u v -> paths_edge u' v -> u = u'.
Proof.
  intros [[s [Hs [Hv Hu]]]|[s [m [Hs [Hm [Hv Hu]]]]]]
         [[s' [Hs' [Hv' Hu']]]|[s' [m' [Hs' [Hm' [Hv' Hu']]]]]]; subst.
  - apply folderId_inj in Hv'; auto. now subst.
  - discriminate.
  - discriminate.
  - apply requestId_inj in Hv'; auto. destruct Hv' as [-> _]. reflexivity.
Qed.

Lemma reachable_inv (g : Graph) (v : string) :
  reachable g v -> v = "root:collection" \/ exists u, In (u, v) (edges g).
Proof. intros [|u w _ Hin]; [now left | right; now exists u]. Qed.

Section PathInv.

Variable openapi : OpenAPI.
Variable incl : bool.

Let Q := paths_node openapi incl.
Let E := paths_edge.

(** A folder in the tree is linked from its parent. *)
Lemma paths_folder_linked (s : list string) (t : Graph) :
  tree_inv Q E [] t -> segments s -> hasNode (folderId s) t = true ->
  hasEdge (parentId s) (folderId s) t = true.
Proof.
  intros Ht Hs Hf. destruct (inv_reach Ht _ Hf) as [[]|Hr].
  apply reachable_inv in Hr. destruct Hr as [Hr|[u Hin]]; [discriminate|].
  apply hasEdge_true_iff.
  assert (Hu : u = parentId s).
  { apply (paths_edge_fun u (parentId s) (folderId s)).
    - exact (inv_edges Ht _ _ Hin).
    - left. exists s. auto. }
  now subst u.
Qed.

Lemma paths_present_grows (s : list string) (m : string) (g g' : Graph) :
  grows g g' -> paths_present s m g -> paths_present s m g'.
Proof.
  intros [Hn [He _]] [H1 [H2 [H3 H4]]]. repeat split; auto.
Qed.

Lemma paths_last_method_inv (p : string) (i : nat) (item : obj Operation)
    (data : Operation) (method : string) (t : Graph) :
  In p (keys (paths openapi)) ->
  get p (paths openapi) = Some item -> In (method, data) item ->
  i + 1 = List.length (pathSplit_of p) ->
  tree_inv Q E [] t ->
  hasNode (parentId (firstn (i + 1) (pathSplit_of p))) t = true ->
  let t' := pathsV2_last_method incl p (nth i (pathSplit_of p) "") i
              (join (firstn i (pathSplit_of p)))
              (join (firstn (i + 1) (pathSplit_of p))) data method t in
  tree_inv Q E [] t' /\ grows t t' /\
  (kept incl method data = true ->
   paths_present (pathSplit_of p) method t').
Proof.
  intros Hp Hitem Hin Hi Ht Hparent. cbv zeta.
  unfold pathsV2_last_method, kept.
  destruct (allowed method) eqn:Ha; cbn [negb andb];
    [|split; [exact Ht | split; [apply grows_refl | discriminate]]].
  destruct (negb incl && deprecated data) eqn:Hd.
  { split; [exact Ht|]. split; [apply grows_refl|].
    destruct incl, (deprecated data); simpl in *; discriminate. }
  assert (Hkept : has_kept openapi incl p method).
  { exists item, data. split; [exact Hitem|]. split; [exact Hin|].
    unfold kept. rewrite Ha. cbn [andb].
    destruct incl, (deprecated data); simpl in *; congruence. }
  assert (Hlen : i < List.length (pathSplit_of p)) by lia.
  assert (Hsegs : segments (firstn (i + 1) (pathSplit_of p)))
    by (apply segments_firstn; lia).
  rewrite <- (parentId_firstn (pathSplit_of p) Hlen).
  rewrite <- (last_firstn (pathSplit_of p) "" Hlen).
  assert (Hall : firstn (i + 1) (pathSplit_of p) = pathSplit_of p)
    by (rewrite Hi; apply firstn_all).
  set (s := firstn (i + 1) (pathSplit_of p)) in *.
  change ("path:folder:" ++ join s) with (folderId s).
  change ("path:request:" ++ join s ++ ":" ++ method)
    with (requestId s method).
  assert (Hqf : Q (folderId s) (path_folder (last s "") (join s))).
  { right; left. exists p, (i + 1). split; [exact Hp|].
    split; [lia|]. split; [lia|]. split; [|split; reflexivity].
    intros _. now exists method. }
  assert (Hqr : Q (requestId s method) (path_request p method (join s))).
  { right; right. exists p, method. split; [exact Hkept|].
    split; [|rewrite <- Hall; split; reflexivity].
    intros He. rewrite He in Hi. simpl in Hi. lia. }
  assert (Her : E (folderId s) (requestId s method)).
  { right. exists s, method. auto. }
  assert (Hne : folderId s <> requestId s method).
  { intros He. apply String.eqb_eq in He.
    now rewrite String.eqb_sym, requestId_not_folderId in He. }
  assert (Hrr : requestId s method <> "root:collection") by discriminate.
  destruct (hasNode (folderId s) t) eqn:Hf; cbn [negb].
  - assert (Hg := grows_add t (folderId s) (requestId s method)
                    (path_request p method (join s)) Hf eq_refl
                    (or_introl eq_refl)).
    split; [now apply tree_inv_add|]. split; [exact Hg|].
    intros _. rewrite <- Hall. unfold paths_present.
    destruct (added_present t (folderId s) (requestId s method)
                (path_request p method (join s))) as [Hn He].
    destruct Hg as [Gn [Ge _]].
    repeat split; auto.
    apply Ge. now apply paths_folder_linked.
  - set (t1 := setEdge (parentId s) (folderId s)
                 (setNode (folderId s) (path_folder (last s "") (join s)) t)).
    assert (Ht1 : tree_inv Q E [] t1).
    { apply tree_inv_add; auto.
      - intros He. rewrite He in Hparent. congruence.
      - discriminate.
      - left. exists s. auto. }
    assert (Hg1 : grows t t1) by (apply grows_add; auto).
    destruct (added_present t (parentId s) (folderId s)
                (path_folder (last s "") (join s))) as [Hn1 He1].
    fold t1 in Hn1, He1.
    assert (Hg := grows_add t1 (folderId s) (requestId s method)
                    (path_request p method (join s)) Hn1 eq_refl
                    (or_introl eq_refl)).
    split; [now apply tree_inv_add|].
    split; [exact (grows_trans _ _ _ Hg1 Hg)|].
    intros _. rewrite <- Hall. unfold paths_present.
    destruct (added_present t1 (folderId s) (requestId s method)
                (path_request p method (join s))) as [Hn He].
    destruct Hg as [Gn [Ge _]].
    repeat split; auto.
Qed.

Lemma paths_segment_inner_inv (p : string) (i : nat) (t : Graph) :
  In p (keys (paths openapi)) ->
  i + 1 < List.length (pathSplit_of p) ->
  tree_inv Q E [] t ->
  hasNode (parentId (firstn (i + 1) (pathSplit_of p))) t = true ->
  let t' := pathsV2_segment openapi incl p (pathSplit_of p)
              (nth i (pathSplit_of p) "") i t in
  tree_inv Q E [] t' /\ grows t t' /\
  hasNode (folderId (firstn (i + 1) (pathSplit_of p))) t' = true.
Proof.
  intros Hp Hi Ht Hparent. cbv zeta. unfold pathsV2_segment, slice0.
  assert (Hlen : i < List.length (pathSplit_of p)) by lia.
  destruct (Nat.eqb_spec (i + 1) (List.length (pathSplit_of p)));
    [lia|].
  assert (Hsegs : segments (firstn (i + 1) (pathSplit_of p)))
    by (apply segments_firstn; lia).
  rewrite <- (parentId_firstn (pathSplit_of p) Hlen).
  rewrite <- (last_firstn (pathSplit_of p) "" Hlen).
  set (s := firstn (i + 1) (pathSplit_of p)) in *.
  change ("path:folder:" ++ join s) with (folderId s).
  assert (Hqf : Q (folderId s) (path_folder (last s "") (join s))).
  { right; left. exists p, (i + 1). split; [exact Hp|].
    split; [lia|]. split; [lia|]. split; [|split; reflexivity].
    intros He. lia. }
  assert (He : E (parentId s) (folderId s)) by (left; exists s; auto).
  destruct (hasNode (folderId s) t) eqn:Hf; cbn [negb].
  - destruct (hasEdge (parentId s) (folderId s) t) eqn:Hpf; cbn [negb].
    + split; [exact Ht|]. split; [apply grows_refl | exact Hf].
    + split; [|split; [now apply grows_setEdge
                      | now apply hasNode_setEdge_mono]].
      apply (tree_inv_setEdge Q E [] []); auto.
  - rewrite hasEdge_setNode.
    destruct (hasEdge (parentId s) (folderId s) t) eqn:Hpf; cbn [negb].
    + exfalso. apply hasEdge_true_iff in Hpf.
      destruct (ok_ends (inv_store Ht) _ _ Hpf) as [_ Hw]. congruence.
    + split; [|split].
      * apply tree_inv_add; auto; [|discriminate].
        intros Heq. rewrite Heq in Hparent. congruence.
      * apply grows_add; auto.
      * apply added_present.
Qed.

Lemma paths_path_inv (p : string) (t : Graph) :
  In p (keys (paths openapi)) -> tree_inv Q E [] t ->
  let t' := pathsV2_path openapi incl p t in
  tree_inv Q E [] t' /\ grows t t' /\
  (forall method, has_kept openapi incl p method ->
                  pathSplit_of p <> [] ->
                  paths_present (pathSplit_of p) method t').
Proof.
  intros Hp Ht. cbv zeta.
  assert (Hroot := tree_inv_root _ _ _ _ Ht).
  assert (Hlast : forall i u,
            i + 1 = List.length (pathSplit_of p) ->
            tree_inv Q E [] u ->
            hasNode (parentId (firstn (i + 1) (pathSplit_of p))) u = true ->
            let f := pathsV2_last_method incl p (nth i (pathSplit_of p) "")
                       i (join (firstn i (pathSplit_of p)))
                       (join (firstn (i + 1) (pathSplit_of p))) in
            let u' := match get p (paths openapi) with
                      | Some item => forOwn item f u
                      | None => u
                      end in
            tree_inv Q E [] u' /\ grows u u' /\
            (forall method, has_kept openapi incl p method ->
                            paths_present (pathSplit_of p) method u')).
  { intros i u Hi Hu Hpar. cbv zeta.
    destruct (get p (paths openapi)) as [item|] eqn:Hitem.
    2:{ split; [exact Hu|]. split; [apply grows_refl|].
        intros m [item [d [Hget _]]]. congruence. }
    set (P := fun w => tree_inv Q E [] w /\ grows u w).
    assert (Hstep : forall method data w,
               In (method, data) item -> P w ->
               P (pathsV2_last_method incl p (nth i (pathSplit_of p) "")
                    i (join (firstn i (pathSplit_of p)))
                    (join (firstn (i + 1) (pathSplit_of p))) data method w)
               /\ grows w
                    (pathsV2_last_method incl p
                       (nth i (pathSplit_of p) "")
                       i (join (firstn i (pathSplit_of p)))
                       (join (firstn (i + 1) (pathSplit_of p)))
                       data method w)).
    { intros method data w Hin [Hw Hgw].
      destruct (paths_last_method_inv p i item data method w)
        as [Hw' [Hg' _]]; auto; [now apply (proj1 Hgw)|].
      split; [|exact Hg'].
      split; [exact Hw' | exact (grows_trans _ _ _ Hgw Hg')]. }
    assert (HPu : P u) by (split; [exact Hu | apply grows_refl]).
    destruct (forOwn_inv_grows P item _ u Hstep HPu) as [[Hend _] Hg].
    split; [exact Hend|]. split; [exact Hg|].
    intros method [item' [data [Hget [Hin Hk]]]].
    assert (item' = item) by congruence. subst item'.
    apply (forOwn_grows P (paths_present (pathSplit_of p) method) item _
             method data u Hstep); auto.
    - intros w [Hw Hgw].
      destruct (paths_last_method_inv p i item data method w)
        as [_ [_ Hpres]]; auto. now apply (proj1 Hgw).
    - intros g g'. apply paths_present_grows. }
  unfold pathsV2_path.
  destruct (Nat.eqb_spec (List.length (pathSplit_of p)) 1) as [H1|Hn1].
  - assert (H01 : 0 + 1 = List.length (pathSplit_of p))
      by (now rewrite H1).
    assert (Hpar : hasNode (parentId (firstn (0 + 1) (pathSplit_of p))) t
                   = true)
      by (rewrite parentId_firstn by lia; exact Hroot).
    destruct (Hlast 0 t H01 Ht Hpar) as [Ht' [Hg Hpres]].
    assert (Heq : match get p (paths openapi) with
                  | Some methods =>
                      forOwn methods
                        (pathsV2_single_method incl p (pathSplit_of p)) t
                  | None => t
                  end
                  = match get p (paths openapi) with
                    | Some item =>
                        forOwn item
                          (pathsV2_last_method incl p
                             (nth 0 (pathSplit_of p) "") 0
                             (join (firstn 0 (pathSplit_of p)))
                             (join (firstn (0 + 1) (pathSplit_of p)))) t
                    | None => t
                    end).
    { destruct (get p (paths openapi)); [|reflexivity].
      apply forOwn_ext. intros k v w _.
      now apply pathsV2_single_as_last. }
    rewrite Heq. split; [exact Ht'|]. split; [exact Hg|]. auto.
  - set (segs := pathSplit_of p) in *.
    set (P := fun (i : nat) (u : Graph) =>
                tree_inv Q E [] u /\ grows t u /\
                (forall k, 1 <= k -> k <= i -> k < List.length segs ->
                   hasNode (folderId (firstn k segs)) u = true) /\
                (i = List.length segs ->
                 forall method, has_kept openapi incl p method ->
                                segs <> [] ->
                                paths_present segs method u)).
    assert (HP : P (List.length segs)
                   (forEachIdx segs 0
                      (pathsV2_segment openapi incl p segs) t)).
    { apply (@forEachIdx_nth _ _ P _ segs "").
      - intros i u Hi [Hu [Hg [Hex _]]].
        assert (Hparent : hasNode (parentId (firstn (i + 1) segs)) u = true).
        { rewrite parentId_firstn by exact Hi.
          destruct i as [|i]; cbn [Nat.eqb].
          - now apply (proj1 Hg).
          - apply (Hex (S i)); lia. }
        destruct (Nat.eq_dec (i + 1) (List.length segs)) as [Hl|Hmid].
        + destruct (Hlast i u Hl Hu Hparent) as [Hu' [Hg' Hpres]].
          assert (Heq : pathsV2_segment openapi incl p segs (nth i segs "")
                          i u
                        = match get p (paths openapi) with
                          | Some item =>
                              forOwn item
                                (pathsV2_last_method incl p
                                   (nth i segs "") i
                                   (join (firstn i segs))
                                   (join (firstn (i + 1) segs))) u
                          | None => u
                          end).
          { unfold pathsV2_segment, slice0.
            now rewrite (proj2 (Nat.eqb_eq _ _) Hl). }
          rewrite Heq.
          split; [exact Hu'|]. split; [exact (grows_trans _ _ _ Hg Hg')|].
          split.
          * intros k Hk1 Hk2 Hk3. apply (proj1 Hg'). apply Hex; lia.
          * intros _ method Hm _. now apply Hpres.
        + destruct (paths_segment_inner_inv p i u) as [Hu' [Hg' Hf]];
            auto; [fold segs; lia|].
          split; [exact Hu'|]. split; [exact (grows_trans _ _ _ Hg Hg')|].
          split.
          * intros k Hk1 Hk2 Hk3.
            destruct (Nat.eq_dec k (i + 1)) as [->|Hne]; [exact Hf|].
            apply (proj1 Hg'). apply Hex; lia.
          * intros Hend. lia.
      - split; [exact Ht|]. split; [apply grows_refl|].
        split; [intros; lia|].
        intros Hz method _ Hne. destruct segs; [congruence | discriminate]. }
    destruct HP as [Hu [Hg [_ Hpres]]].
    split; [exact Hu|]. split; [exact Hg|]. intros method Hm Hne.
    now apply Hpres.
Qed.

Lemma paths_tree_inv :
  tree_inv Q E [] (_generateTreeFromPathsV2 openapi incl).
Proof.
  rewrite pathsV2_as_forEach.
  apply (forEach_inv (fun u => tree_inv Q E [] u)
           (keys (paths openapi)) (pathsV2_path openapi incl)).
  - intros p u Hp Hu. now apply paths_path_inv.
  - apply tree_inv_start. left. now split.
Qed.

(** Every operation of a declared path that passes the filters has its
    request in place. *)
Lemma paths_request_present (p method : string) :
  has_kept openapi incl p method -> pathSplit_of p <> [] ->
  paths_present (pathSplit_of p) method
    (_generateTreeFromPathsV2 openapi incl).
Proof.
  intros Hk Hne. rewrite pathsV2_as_forEach.
  assert (Hp : In p (keys (paths openapi))).
  { destruct Hk as [item [d [Hget _]]]. apply get_in in Hget.
    change p with (fst (p, item)). now apply in_map. }
  apply (forEach_grows (fun u => tree_inv Q E [] u)
           (paths_present (pathSplit_of p) method)
           (keys (paths openapi)) (pathsV2_path openapi incl) p).
  - intros q u Hq Hu. destruct (paths_path_inv q u Hq Hu) as [H1 [H2 _]].
    now split.
  - intros u Hu. destruct (paths_path_inv p u Hp Hu) as [_ [_ H3]].
    now apply H3.
  - intros g g'. apply paths_present_grows.
  - exact Hp.
  - apply tree_inv_start. left. now split.
Qed.

End PathInv.

Lemma segments_pathSplit (p : string) :
  pathSplit_of p <> [] -> segments (pathSplit_of p).
Proof.
  intros Hne.
  rewrite <- (firstn_all (pathSplit_of p)). apply segments_firstn; [|lia].
  destruct (pathSplit_of p); simpl; [congruence | lia].
Qed.

Lemma has_kept_declared (openapi : OpenAPI) (incl : bool)
    (p method : string) :
  has_kept openapi incl p method ->
  In p (keys (paths openapi)) /\ allowed method = true.
Proof.
  intros [item [d [Hget [_ Hk]]]]. split.
  - apply get_in in Hget. change p with (fst (p, item)). now apply in_map.
  - unfold kept in Hk. now apply andb_true_iff in Hk.
Qed.

Lemma singleton_list {A} (x : A) (l : list A) :
  NoDup l -> In x l -> (forall y, In y l -> y = x) -> l = [x].
Proof.
  intros Hnd Hin Hall. destruct l as [|a l]; [destruct Hin|].
  assert (a = x) by (apply Hall; now left). subst a.
  destruct l as [|b l]; [reflexivity|].
  assert (b = x) by (apply Hall; right; now left). subst b.
  apply NoDup_cons_iff in Hnd. destruct Hnd as [Hnot _].
  exfalso. apply Hnot. now left.
Qed.

Lemma filter_nil {A} (f : A -> bool) (l : list A) :
  (forall x, In x l -> f x = false) -> filter f l = [].
Proof.
  induction l as [|a l IH]; intros H; [reflexivity|]. simpl.
  rewrite (H a) by now left. apply IH. intros x Hx. apply H. now right.
Qed.

(** In a tree whose edges have one source per target, every node other
    than the root has exactly one edge into it, and the root has none
    when no edge is allowed into it. *)
Lemma tree_inv_one_parent (Q : string -> Label -> Prop)
    (E : string -> string -> Prop) (g : Graph) :
  tree_inv Q E [] g ->
  (forall u u' v, E u v -> E u' v -> u = u') ->
  forall v, hasNode v g = true -> v <> "root:collection" ->
  exists u, edges_into v g = [(u, v)] /\ hasNode u g = true.
Proof.
  intros Hg Hfun v Hv Hne.
  destruct (inv_reach Hg _ Hv) as [[]|Hr].
  apply reachable_inv in Hr. destruct Hr as [Hr|[u Hin]]; [congruence|].
  exists u. split.
  - apply singleton_list.
    + apply NoDup_filter. exact (ok_edges (inv_store Hg)).
    + apply filter_In. split; [exact Hin | apply String.eqb_refl].
    + intros [a b] Hy. apply filter_In in Hy. destruct Hy as [Hy Hb].
      simpl in Hb. apply String.eqb_eq in Hb. subst b.
      f_equal. apply (Hfun a u v); now apply (inv_edges Hg).
  - now destruct (ok_ends (inv_store Hg) _ _ Hin).
Qed.

Lemma tree_inv_root_no_parent (Q : string -> Label -> Prop)
    (E : string -> string -> Prop) (g : Graph) :
  tree_inv Q E [] g -> (forall u, ~ E u "root:collection") ->
  edges_into "root:collection" g = [].
Proof.
  intros Hg Hno. apply filter_nil. intros [a b] Hin. simpl.
  apply not_true_is_false. intros Hb. apply String.eqb_eq in Hb. subst b.
  exact (Hno a (inv_edges Hg _ _ Hin)).
Qed.

(** ** C1: the folder of a shared prefix *)

(** The folder of [s] is in the tree of the path strategy exactly when
    a declared path goes beyond [s], or a declared path with the
    segments [s] has an operation that passes the filters. *)
Lemma paths_folder_iff (openapi : OpenAPI) (incl : bool)
    (s : list string) :
  segments s ->
  (hasNode (folderId s) (_generateTreeFromPathsV2 openapi incl) = true <->
   exists r, In r (keys (paths openapi)) /\
     ((prefix_of s (pathSplit_of r) /\
       List.length s < List.length (pathSplit_of r)) \/
      (pathSplit_of r = s /\
       exists method, has_kept openapi incl r method))).
Proof.
  intros Hs. split.
  - intros Hv.
    destruct (inv_nodes (paths_tree_inv openapi incl) _ Hv) as [l [_ Hq]].
    destruct Hq as [[Hroot _]
                   |[[r [k [Hr [H1 [H2 [Hk [Hid _]]]]]]]
                    |[r [m [_ [_ [Hid _]]]]]]].
    + pose proof (folderId_not_root s) as Hn.
      rewrite Hroot in Hn. discriminate.
    + apply folderId_inj in Hid; auto; [|now apply segments_firstn].
      exists r. split; [exact Hr|].
      destruct (Nat.eq_dec k (List.length (pathSplit_of r))) as [He|Hlt].
      * right. split; [now rewrite Hid, He, firstn_all | now apply Hk].
      * left. split.
        -- exists (skipn k (pathSplit_of r)). rewrite Hid.
           symmetry. apply firstn_skipn.
        -- rewrite Hid, length_firstn. lia.
    + pose proof (requestId_not_folderId s (pathSplit_of r) m) as Hn.
      rewrite <- Hid, String.eqb_refl in Hn. discriminate.
  - intros [r [Hr [[Hpre Hlen]|[Heq [m Hm]]]]].
    + apply (@pathsV2_proper_prefix openapi incl r s); auto.
      now destruct Hs.
    + subst s.
      apply (paths_request_present openapi incl r m Hm). now destruct Hs.
Qed.

(** C1, as the code has it.  Path strategy: two declared paths share a
    prefix [s] of segments, in whichever order they are declared.  The
    folder of [s] is created when a declared path goes beyond [s] or a
    declared path with exactly the segments [s] has an operation that
    passes the filters, which is the case as soon as the two paths have
    different segments.  The tree then has exactly one node under the
    folder identifier of [s], it is the folder of [s], it was written by
    exactly one [setNode] call, made when the identifier was not yet in
    the tree, and exactly one edge ends in it, coming from its parent
    (the root for a one-segment prefix, the folder of the shorter prefix
    otherwise).  When no declared path creates it (no path goes beyond
    [s] and every operation of the paths with the segments [s] is
    filtered out), there is no node under that identifier, no call wrote
    one and no edge ends in it. *)
Theorem C1_shared_prefix_one_folder (openapi : OpenAPI) (incl : bool)
    (p q : string) (s : list string) :
  In p (keys (paths openapi)) -> In q (keys (paths openapi)) ->
  s <> [] ->
  prefix_of s (pathSplit_of p) -> prefix_of s (pathSplit_of q) ->
  let tree := _generateTreeFromPathsV2 openapi incl in
  let created :=
    exists r, In r (keys (paths openapi)) /\
      ((prefix_of s (pathSplit_of r) /\
        List.length s < List.length (pathSplit_of r)) \/
       (pathSplit_of r = s /\
        exists method, has_kept openapi incl r method)) in
  (pathSplit_of p <> pathSplit_of q -> created) /\
  (created ->
   count_occ string_dec (nodes tree) (folderId s) = 1 /\
   node (folderId s) tree = Some (path_folder (last s "") (join s)) /\
   setNode_calls (folderId s) (_calls tree)
   = [(SetNode (folderId s) (path_folder (last s "") (join s)), false)] /\
   edges_into (folderId s) tree = [(parentId s, folderId s)]) /\
  (~ created ->
   count_occ string_dec (nodes tree) (folderId s) = 0 /\
   setNode_calls (folderId s) (_calls tree) = [] /\
   edges_into (folderId s) tree = []).
Proof.
  intros Hp Hq Hne Hsp Hsq tree created.
  assert (Hs : segments s).
  { destruct (prefix_of_firstn Hsp) as [Hfirst Hle].
    rewrite <- Hfirst. apply segments_firstn; [|exact Hle].
    destruct s; simpl; [congruence | lia]. }
  pose proof (paths_folder_iff openapi incl s Hs) as Hiff.
  fold tree in Hiff. fold created in Hiff.
  destruct root_present as [Hok0 _].
  assert (Hok := steps_store_ok (pathsV2_steps openapi incl) Hok0).
  fold tree in Hok.
  destruct (@paths_folder_inv s tree Hs (pathsV2_steps openapi incl))
    as [Hnode [Hcalls Hedges]].
  split; [|split].
  - intros Hdiff. destruct Hsp as [rp Hrp], Hsq as [rq Hrq].
    destruct rp as [|a rp].
    + destruct rq as [|b rq];
        [rewrite List.app_nil_r in Hrp, Hrq; congruence|].
      exists q. split; [exact Hq|]. left. split; [now exists (b :: rq)|].
      rewrite Hrq, List.length_app. simpl. lia.
    + exists p. split; [exact Hp|]. left. split; [now exists (a :: rp)|].
      rewrite Hrp, List.length_app. simpl. lia.
  - intros Hc. apply Hiff in Hc.
    assert (He : hasEdge (parentId s) (folderId s) tree = true)
      by exact (paths_folder_linked openapi incl s tree
                  (paths_tree_inv openapi incl) Hs Hc).
    rewrite Hc in Hcalls. rewrite He in Hedges.
    split; [|split; [|split]]; auto.
    apply NoDup_count_occ'; [apply (ok_nodes Hok)|].
    now apply hasNode_true_iff.
  - intros Hno.
    assert (Hc : hasNode (folderId s) tree = false).
    { destruct (hasNode (folderId s) tree) eqn:Hc; [|reflexivity].
      exfalso. apply Hno. now apply Hiff. }
    assert (He : hasEdge (parentId s) (folderId s) tree = false).
    { apply hasEdge_false_iff. intros Hin.
      destruct (ok_ends Hok _ _ Hin). congruence. }
    rewrite Hc in Hcalls. rewrite He in Hedges.
    split; [|split]; auto.
    apply count_occ_not_In. intros Hin.
    apply hasNode_true_iff in Hin. congruence.
Qed.

Lemma C1_witness :
  let openapi :=
    {| paths := [("/user/{id}", [("get", {| deprecated := false;
                                            op_tags := [] |})]);
                 ("/user", [("get", {| deprecated := false;
                                       op_tags := [] |})])];
       tags := []; webhooks := [] |} in
  let tree := _generateTreeFromPathsV2 openapi false in
  count_occ string_dec (nodes tree) "path:folder:user" = 1 /\
  node "path:folder:user" tree = Some (path_folder "user" "user") /\
  setNode_calls "path:folder:user" (_calls tree)
  = [(SetNode "path:folder:user" (path_folder "user" "user"), false)] /\
  edges_into "path:folder:user" tree
  = [("root:collection", "path:folder:user")].
Proof.
  cbv zeta.
  destruct (C1_shared_prefix_one_folder
              {| paths := [("/user/{id}", [("get", {| deprecated := false;
                                                      op_tags := [] |})]);
                           ("/user", [("get", {| deprecated := false;
                                                 op_tags := [] |})])];
                 tags := []; webhooks := [] |}
              false "/user" "/user/{id}" ["user"])
    as [Hcreated [Hone _]].
  - simpl. auto.
  - simpl. auto.
  - discriminate.
  - exists []. reflexivity.
  - exists ["{id}"]. reflexivity.
  - apply Hone, Hcreated. vm_compute. discriminate.
Defined.

(** C1 as stated fails: the paths [/user] and [/user/] share the prefix
    [user], which is all the segments of both; with their operations
    filtered out (here deprecated, while deprecated operations are left
    out) neither reaches the creation of the folder, and the tree has no
    node under the folder identifier of the shared prefix. *)
Lemma C1_counterexample :
  let operation := {| deprecated := true; op_tags := [] |} in
  let openapi :=
    {| paths := [("/user", [("get", operation)]);
                 ("/user/", [("get", operation)])];
       tags := []; webhooks := [] |} in
  let tree := _generateTreeFromPathsV2 openapi false in
  "/user" <> "/user/" /\
  prefix_of ["user"] (pathSplit_of "/user") /\
  prefix_of ["user"] (pathSplit_of "/user/") /\
  nodes tree = ["root:collection"] /\
  count_occ string_dec (nodes tree) (folderId ["user"]) = 0.
Proof.
  cbv zeta. split; [discriminate|].
  split; [exists []; reflexivity|]. split; [exists []; reflexivity|].
  split; reflexivity.
Qed.

Lemma paths_edge_not_root (u : string) : ~ paths_edge u "root:collection".
Proof.
  intros [[s [_ [H _]]]|[s [m [_ [_ [H _]]]]]]; discriminate.
Qed.

(** X4. The nodes of the tree of the path strategy are exactly: the
    root; for every declared path, the folder of every proper non-empty
    prefix of its segments; and, for every operation of a declared path
    that passes both filters (allowed method, deprecation), the folder of
    all the segments of the path and the request of the operation.  A
    path with segments of which no operation passes the filters gets no
    folder of its own, and nothing else is ever a node. *)
Theorem pathsV2_nodes_exact (openapi : OpenAPI) (incl : bool)
    (v : string) :
  let tree := _generateTreeFromPathsV2 openapi incl in
  hasNode v tree = true <->
  v = "root:collection" \/
  (exists p k,
      In p (keys (paths openapi)) /\
      1 <= k /\ k < List.length (pathSplit_of p) /\
      v = folderId (firstn k (pathSplit_of p))) \/
  (exists p method,
      has_kept openapi incl p method /\ pathSplit_of p <> [] /\
      (v = folderId (pathSplit_of p) \/
       v = requestId (pathSplit_of p) method)).
Proof.
  cbv zeta. pose proof (paths_tree_inv openapi incl) as Hinv. split.
  - intros Hv. destruct (inv_nodes Hinv _ Hv) as [l [_ Hq]].
    destruct Hq as [[-> _]
                   |[[p [k [Hp [H1 [H2 [Hk [-> _]]]]]]]
                    |[p [m [Hk [Hne [-> _]]]]]]].
    + now left.
    + destruct (Nat.eq_dec k (List.length (pathSplit_of p))) as [He|Hlt].
      * destruct (Hk He) as [m Hm]. right; right. exists p, m.
        split; [exact Hm|]. split.
        -- intros Hnil. rewrite Hnil in He. simpl in He. lia.
        -- left. now rewrite He, firstn_all.
      * right; left. exists p, k. repeat split; auto. lia.
    + right; right. exists p, m. auto.
  - intros [->|[[p [k [Hp [H1 [H2 ->]]]]]|[p [m [Hk [Hne Hv]]]]]].
    + exact (tree_inv_root _ _ _ _ Hinv).
    + apply (@pathsV2_proper_prefix openapi incl p
               (firstn k (pathSplit_of p))); auto.
      * destruct (pathSplit_of p); simpl in *; [lia|].
        destruct k; [lia | discriminate].
      * exists (skipn k (pathSplit_of p)). symmetry. apply firstn_skipn.
      * rewrite length_firstn. lia.
    + destruct (paths_request_present openapi incl p m Hk Hne)
        as [Hf [Hr _]].
      destruct Hv as [->| ->]; assumption.
Qed.

(** X5. Path strategy: every node of the tree holds a value, and it is
    the value the strategy writes for that identifier: the collection
    value for the root; for the folder of a prefix of the segments of a
    declared path, the folder value named after the last segment of the
    prefix and identified by the joined prefix; for a request, the
    request value of an operation that passes the filters, with its
    method, the key of a declared path with these segments, and the
    joined segments as identifier. *)
Theorem pathsV2_node_values (openapi : OpenAPI) (incl : bool)
    (v : string) :
  let tree := _generateTreeFromPathsV2 openapi incl in
  hasNode v tree = true ->
  exists l, node v tree = Some l /\ paths_node openapi incl v l.
Proof.
  cbv zeta. intros Hv.
  exact (inv_nodes (paths_tree_inv openapi incl) _ Hv).
Qed.

Lemma pathsV2_node_values_witness :
  let tree := _generateTreeFromPathsV2 pets_document false in
  hasNode "path:folder:pets/{id}" tree = true /\
  exists l, node "path:folder:pets/{id}" tree = Some l /\
            paths_node pets_document false "path:folder:pets/{id}" l.
Proof.
  cbv zeta. split; [reflexivity|].
  apply (pathsV2_node_values pets_document false "path:folder:pets/{id}").
  reflexivity.
Defined.

(** X6. Path strategy, lines 74-112 and 123-169: an operation of a
    declared path (with at least one segment) that passes both filters
    has its request node, linked from the folder of all the segments of
    the path, itself holding its folder value and linked from its parent.
    The request node holds the request value of its method and of its
    joined segments; the path it records is the key of a declared path
    with the same segments and such an operation (the last one
    processed). *)
Theorem pathsV2_request_placed (openapi : OpenAPI) (incl : bool)
    (p method : string) :
  has_kept openapi incl p method -> pathSplit_of p <> [] ->
  let segs := pathSplit_of p in
  let tree := _generateTreeFromPathsV2 openapi incl in
  node (folderId segs) tree
  = Some (path_folder (last segs "") (join segs)) /\
  In (parentId segs, folderId segs) (edges tree) /\
  In (folderId segs, requestId segs method) (edges tree) /\
  exists completePath,
    has_kept openapi incl completePath method /\
    pathSplit_of completePath = segs /\
    node (requestId segs method) tree
    = Some (path_request completePath method (join segs)).
Proof.
  intros Hk Hne. cbv zeta.
  pose proof (paths_tree_inv openapi incl) as Hinv.
  destruct (paths_request_present openapi incl p method Hk Hne)
    as [Hf [Hr [Hpf Hfr]]].
  assert (Hs := segments_pathSplit p Hne).
  destruct (has_kept_declared _ _ _ _ Hk) as [_ Ha].
  split; [|split; [now apply hasEdge_true_iff
                  |split; [now apply hasEdge_true_iff|]]].
  - destruct (inv_nodes Hinv _ Hf) as [l [Hl Hq]]. rewrite Hl. f_equal.
    destruct Hq as [[Hv _]
                   |[[q [k [Hq [H1 [H2 [_ [Hv ->]]]]]]]
                    |[q [m [_ [_ [Hv _]]]]]]]; try discriminate.
    apply folderId_inj in Hv; auto.
    + now rewrite <- Hv.
    + now apply segments_firstn.
  - destruct (inv_nodes Hinv _ Hr) as [l [Hl Hq]].
    destruct Hq as [[Hv _]
                   |[[q [k [_ [_ [_ [_ [Hv _]]]]]]]
                    |[q [m [Hkq [Hneq [Hv ->]]]]]]]; try discriminate.
    destruct (has_kept_declared _ _ _ _ Hkq) as [_ Haq].
    apply requestId_inj in Hv; auto using segments_pathSplit.
    destruct Hv as [Hv ->]. exists q. rewrite Hv in Hl |- *. auto.
Qed.

Lemma pathsV2_request_placed_witness :
  let segs := ["pets"; "{id}"; "photo"] in
  let tree := _generateTreeFromPathsV2 pets_document false in
  node (folderId segs) tree
  = Some (path_folder "photo" "pets/{id}/photo") /\
  In (parentId segs, folderId segs) (edges tree) /\
  In (folderId segs, requestId segs "get") (edges tree) /\
  exists completePath,
    has_kept pets_document false completePath "get" /\
    pathSplit_of completePath = segs /\
    node (requestId segs "get") tree
    = Some (path_request completePath "get" (join segs)).
Proof.
  apply (pathsV2_request_placed pets_document false "/pets/{id}/photo"
           "get").
  - exists [ ("get", {| deprecated := false; op_tags := [] |});
             ("delete", {| deprecated := true; op_tags := ["admin"] |});
             ("parameters", {| deprecated := false; op_tags := [] |}) ],
           {| deprecated := false; op_tags := [] |}.
    split; [reflexivity|]. split; [now left | reflexivity].
  - discriminate.
Defined.

(** X7. The path strategy builds a tree: no edge ends in the root, every
    other node has exactly one edge into it, coming from a node of the
    tree, and every node is reached from the root along edges. *)
Theorem pathsV2_is_a_tree (openapi : OpenAPI) (incl : bool) :
  let tree := _generateTreeFromPathsV2 openapi incl in
  edges_into "root:collection" tree = [] /\
  (forall v, hasNode v tree = true -> v <> "root:collection" ->
     exists u, edges_into v tree = [(u, v)] /\ hasNode u tree = true) /\
  (forall v, hasNode v tree = true -> reachable tree v).
Proof.
  cbv zeta. pose proof (paths_tree_inv openapi incl) as Hinv.
  split; [|split].
  - exact (tree_inv_root_no_parent _ _ _ Hinv paths_edge_not_root).
  - apply (tree_inv_one_parent _ _ _ Hinv). intros u u' v.
    apply paths_edge_fun.
  - intros v Hv. destruct (inv_reach Hinv _ Hv) as [[]|Hr]. exact Hr.
Qed.

(** ** The tree of the tag strategy *)

Lemma added_request (g : Graph) (u v : string) (l : Label) :
  request_type l = true -> is_request v (setEdge u v (setNode v l g)).
Proof.
  intros Hl. exists l. rewrite node_setEdge, node_setNode.
  now rewrite String.eqb_refl.
Qed.

Lemma tagRequestId_not_folder (tag path method : string) :
  tagFolderId tag <> tagRequestId tag path method.
Proof.
  unfold tagFolderId, tagRequestId. intros H.
  apply app_inv_head in H. apply (f_equal String.length) in H.
  rewrite !length_app in H. simpl in H. lia.
Qed.

Section TagInv.

Variable openapi : OpenAPI.
Variable incl : bool.

Let M := tagDescMap_of (tags openapi).
Let Q := tags_node openapi incl.
Let E := tags_edge openapi incl.

Lemma tag_present_grows (tag path method : string) (g g' : Graph) :
  grows g g' -> tag_present tag path method g ->
  tag_present tag path method g'.
Proof.
  intros [Hn [He [_ Hr]]] [H1 [H2 H3]]. repeat split; auto.
Qed.

Lemma untagged_present_grows (path method : string) (g g' : Graph) :
  grows g g' -> untagged_present path method g ->
  untagged_present path method g'.
Proof.
  intros [Hn [He [_ Hr]]] [H1 H2]. split; auto.
Qed.

(** Lines 372-391. *)
Lemma tags_folder_block_inv (desc : Value) (tag : string) (t : Graph) :
  In tag (keys M) -> tree_inv Q E [] t ->
  let t' := tags_folder M desc tag t in
  tree_inv Q E [] t' /\ grows t t' /\ hasNode (tagFolderId tag) t' = true.
Proof.
  intros Hin Ht. cbv zeta. unfold tags_folder.
  change ("path:" ++ tag) with (tagFolderId tag).
  destruct (hasNode (tagFolderId tag) t) eqn:Hf.
  - split; [exact Ht|]. split; [apply grows_refl | exact Hf].
  - assert (Hroot := tree_inv_root _ _ _ _ Ht).
    split; [|split].
    + apply tree_inv_add; auto; try discriminate.
      * right; left. exists tag. auto.
      * left. split; [reflexivity|]. left. now exists tag.
    + apply grows_add; auto.
    + apply added_present.
Qed.

(** Lines 412-439. *)
Lemma tags_tag_inv (path method : string) (data : Operation)
    (tag : string) (t : Graph) :
  tag_kept openapi incl path method data -> In tag (op_tags data) ->
  tree_inv Q E [] t ->
  let t' := tags_tag M path method tag t in
  tree_inv Q E [] t' /\ grows t t' /\ tag_present tag path method t'.
Proof.
  intros Hk Hin Ht. cbv zeta. unfold tags_tag, tag_present.
  change ("path:" ++ tag ++ ":" ++ path ++ ":" ++ method)
    with (tagRequestId tag path method).
  change ("path:" ++ tag) with (tagFolderId tag).
  set (rid := tagRequestId tag path method).
  set (fid := tagFolderId tag).
  set (lr := tag_request tag path method).
  set (lf := tag_folder path tag (tagDesc M tag)).
  assert (Hroot := tree_inv_root _ _ _ _ Ht).
  assert (Hne : fid <> rid) by apply tagRequestId_not_folder.
  assert (Hqr : Q rid lr).
  { right; right; left. exists path, method, data, tag. auto. }
  assert (Hqf : Q fid lf).
  { right; right; left. exists path, method, data, tag. auto. }
  assert (Her : E fid rid).
  { right. exists path, method, data, tag. auto. }
  assert (Hef : E "root:collection" fid).
  { left. split; [reflexivity|]. right; left.
    exists path, method, data, tag. auto. }
  rewrite hasNode_setNode.
  replace (String.eqb fid rid) with false
    by (symmetry; now apply String.eqb_neq).
  cbn [orb].
  destruct (hasNode fid t) eqn:Hf; cbn [negb].
  - split; [|split].
    + apply tree_inv_add; auto. discriminate.
    + apply grows_add; auto.
    + split; [|split].
      * apply hasNode_setEdge_mono. rewrite hasNode_setNode, Hf.
        apply orb_true_r.
      * now apply added_request.
      * apply added_present.
  - set (t1 := setNode rid lr t).
    set (t2 := setNode fid lf t1).
    set (t3 := setEdge "root:collection" fid t2).
    assert (H1 : tree_inv Q E [rid] t1)
      by (apply tree_inv_setNode; auto; discriminate).
    assert (H2 : tree_inv Q E [fid; rid] t2)
      by (apply tree_inv_setNode; auto; discriminate).
    assert (Hf1 : hasNode fid t1 = false).
    { unfold t1. rewrite hasNode_setNode, Hf.
      now replace (String.eqb fid rid) with false
        by (symmetry; now apply String.eqb_neq). }
    assert (Hr2 : hasNode "root:collection" t2 = true).
    { unfold t2, t1. rewrite !hasNode_setNode, Hroot.
      now rewrite !orb_true_r. }
    assert (Hf2 : hasNode fid t2 = true).
    { unfold t2. rewrite hasNode_setNode. now rewrite String.eqb_refl. }
    assert (Hrid2 : hasNode rid t2 = true).
    { unfold t2, t1. rewrite !hasNode_setNode, String.eqb_refl.
      now rewrite orb_true_r. }
    assert (H3 : tree_inv Q E [rid] t3).
    { apply (tree_inv_setEdge Q E [fid; rid] [rid]); auto.
      - intros [H|[H|[]]]; discriminate.
      - intros x [<-|[<-|[]]]; [now left | right; now left]. }
    assert (G1 : grows t t1) by (apply grows_setNode; auto).
    assert (G2 : grows t1 t2) by (apply grows_setNode; auto).
    assert (G3 : grows t2 t3) by (apply grows_setEdge; auto).
    assert (G4 : grows t3 (setEdge fid rid t3)).
    { apply grows_setEdge; now apply (proj1 G3). }
    split; [|split].
    + apply (tree_inv_setEdge Q E [rid] []); auto.
      * now apply (proj1 G3).
      * now apply (proj1 G3).
      * intros [H|[]]. congruence.
      * intros x [<-|[]]. now left.
    + exact (grows_trans _ _ _ G1
               (grows_trans _ _ _ G2 (grows_trans _ _ _ G3 G4))).
    + split; [|split].
      * apply (proj1 G4). now apply (proj1 G3).
      * exists lr. rewrite node_setEdge. unfold t3.
        rewrite node_setEdge. unfold t2. rewrite node_setNode.
        replace (String.eqb rid fid) with false
          by (symmetry; apply String.eqb_neq; congruence).
        unfold t1. rewrite node_setNode, String.eqb_refl. now split.
      * now rewrite hasEdge_setEdge, edge_eqb_refl.
Qed.

(** Lines 394-454. *)
Lemma tags_method_inv (path method : string) (data : Operation)
    (item : obj Operation) (t : Graph) :
  In (path, item) (paths openapi) -> In (method, data) item ->
  tree_inv Q E [] t ->
  let t' := tags_method M incl path data method t in
  tree_inv Q E [] t' /\ grows t t' /\
  (kept incl method data = true ->
   (forall tag, In tag (op_tags data) -> tag_present tag path method t') /\
   (op_tags data = [] -> untagged_present path method t')).
Proof.
  intros Hp Hm Ht. cbv zeta. unfold tags_method, kept.
  destruct (allowed method) eqn:Ha; cbn [negb andb];
    [|split; [exact Ht | split; [apply grows_refl | discriminate]]].
  destruct (negb incl && deprecated data) eqn:Hd.
  { split; [exact Ht|]. split; [apply grows_refl|].
    destruct incl, (deprecated data); simpl in *; discriminate. }
  assert (Hk : tag_kept openapi incl path method data).
  { exists item. split; [exact Hp|]. split; [exact Hm|].
    unfold kept. rewrite Ha. cbn [andb].
    destruct incl, (deprecated data); simpl in *; congruence. }
  destruct (op_tags data) as [|tag0 rest] eqn:Htags; cbn [isEmpty negb].
  - change ("path:" ++ path ++ ":" ++ method) with (untaggedId path method).
    assert (Hroot := tree_inv_root _ _ _ _ Ht).
    split; [|split].
    + apply tree_inv_add; auto; try discriminate.
      * right; right; right. exists path, method, data. auto.
      * left. split; [reflexivity|]. right; right.
        exists path, method, data. auto.
    + apply grows_add; auto.
    + intros _. split; [intros tag []|]. intros _. split.
      * now apply added_request.
      * apply added_present.
  - rewrite <- Htags.
    assert (Hstep : forall tag u,
               In tag (op_tags data) -> tree_inv Q E [] u ->
               tree_inv Q E [] (tags_tag M path method tag u) /\
               grows u (tags_tag M path method tag u)).
    { intros tag u Hin Hu.
      destruct (tags_tag_inv path method data tag u Hk Hin Hu)
        as [H1 [H2 _]]. now split. }
    destruct (forEach_inv_grows (fun u => tree_inv Q E [] u)
                (op_tags data) (tags_tag M path method) t Hstep Ht)
      as [Hend Hg].
    split; [exact Hend|]. split; [exact Hg|]. intros _.
    split; [|rewrite Htags; discriminate].
    intros tag Hin.
    apply (forEach_grows (fun u => tree_inv Q E [] u)
             (tag_present tag path method) (op_tags data)
             (tags_tag M path method) tag t Hstep); auto.
    + intros u Hu.
      now destruct (tags_tag_inv path method data tag u Hk Hin Hu)
        as [_ [_ H3]].
    + intros g g'. apply tag_present_grows.
Qed.

(** The callback run on one entry of [openapi.paths]. *)
Lemma tags_item_inv (path : string) (item : obj Operation) (t : Graph) :
  In (path, item) (paths openapi) -> tree_inv Q E [] t ->
  let t' := forOwn item (tags_method M incl path) t in
  tree_inv Q E [] t' /\ grows t t' /\
  (forall method data,
     In (method, data) item -> kept incl method data = true ->
     (forall tag, In tag (op_tags data) ->
                  tag_present tag path method t') /\
     (op_tags data = [] -> untagged_present path method t')).
Proof.
  intros Hp Ht. cbv zeta.
  assert (Hstep : forall method data u,
             In (method, data) item -> tree_inv Q E [] u ->
             tree_inv Q E [] (tags_method M incl path data method u) /\
             grows u (tags_method M incl path data method u)).
  { intros method data u Hin Hu.
    destruct (tags_method_inv path method data item u Hp Hin Hu)
      as [H1 [H2 _]]. now split. }
  destruct (forOwn_inv_grows (fun u => tree_inv Q E [] u) item
              (tags_method M incl path) t Hstep Ht) as [Hend Hg].
  split; [exact Hend|]. split; [exact Hg|].
  intros method data Hin Hk.
  apply (forOwn_grows (fun u => tree_inv Q E [] u)
           (fun g =>
              (forall tag, In tag (op_tags data) ->
                           tag_present tag path method g) /\
              (op_tags data = [] -> untagged_present path method g))
           item (tags_method M incl path) method data t Hstep); auto.
  - intros u Hu.
    destruct (tags_method_inv path method data item u Hp Hin Hu)
      as [_ [_ H3]]. now apply H3.
  - intros g g' Hgg [H1 H2]. split.
    + intros tag Htag. apply (tag_present_grows _ _ _ _ _ Hgg). auto.
    + intros He. apply (untagged_present_grows _ _ _ _ Hgg). auto.
Qed.

Lemma tags_folders_inv :
  let t0 := forOwn M (tags_folder M)
              (setNode "root:collection" root_value new_Graph) in
  tree_inv Q E [] t0 /\
  (forall tag, In tag (keys M) -> hasNode (tagFolderId tag) t0 = true).
Proof.
  cbv zeta.
  assert (Hstart : tree_inv Q E []
                     (setNode "root:collection" root_value new_Graph)).
  { apply tree_inv_start. left. now split. }
  assert (Hstep : forall tag desc u,
             In (tag, desc) M -> tree_inv Q E [] u ->
             tree_inv Q E [] (tags_folder M desc tag u) /\
             grows u (tags_folder M desc tag u)).
  { intros tag desc u Hin Hu.
    destruct (tags_folder_block_inv desc tag u) as [H1 [H2 _]]; auto.
    change tag with (fst (tag, desc)). now apply in_map. }
  split.
  - now apply (forOwn_inv_grows (fun u => tree_inv Q E [] u) M
                 (tags_folder M) _ Hstep).
  - intros tag Hin. apply in_map_iff in Hin.
    destruct Hin as [[tag' desc] [Hfst Hin]]. simpl in Hfst. subst tag'.
    apply (forOwn_grows (fun u => tree_inv Q E [] u)
             (fun g => hasNode (tagFolderId tag) g = true)
             M (tags_folder M) tag desc _ Hstep); auto.
    + intros u Hu.
      destruct (tags_folder_block_inv desc tag u) as [_ [_ H3]]; auto.
      change tag with (fst (tag, desc)). now apply in_map.
    + intros g g' [Hn _]. apply Hn.
Qed.

Lemma tags_tree_inv :
  let tree := _generateTreeFromTags openapi incl in
  tree_inv Q E [] tree /\
  grows (forOwn M (tags_folder M)
           (setNode "root:collection" root_value new_Graph)) tree /\
  (forall tag, In tag (keys M) -> hasNode (tagFolderId tag) tree = true) /\
  (forall path method data,
     tag_kept openapi incl path method data ->
     (forall tag, In tag (op_tags data) ->
                  tag_present tag path method tree) /\
     (op_tags data = [] -> untagged_present path method tree)).
Proof.
  cbv zeta. unfold _generateTreeFromTags. cbv zeta. fold M.
  destruct tags_folders_inv as [H0 Hf0].
  set (t0 := forOwn M (tags_folder M)
               (setNode "root:collection" root_value new_Graph)) in *.
  set (f := fun (methods : obj Operation) (path : string) =>
              forOwn methods (tags_method M incl path)).
  assert (Hstep : forall path item u,
             In (path, item) (paths openapi) -> tree_inv Q E [] u ->
             tree_inv Q E [] (f item path u) /\ grows u (f item path u)).
  { intros path item u Hin Hu.
    destruct (tags_item_inv path item u Hin Hu) as [H1 [H2 _]].
    now split. }
  destruct (forOwn_inv_grows (fun u => tree_inv Q E [] u) (paths openapi)
              f t0 Hstep H0) as [Hend Hg].
  split; [exact Hend|]. split; [exact Hg|]. split.
  - intros tag Hin. apply (proj1 Hg). now apply Hf0.
  - intros path method data [item [Hp [Hm Hk]]].
    apply (forOwn_grows (fun u => tree_inv Q E [] u)
             (fun g =>
                (forall tag, In tag (op_tags data) ->
                             tag_present tag path method g) /\
                (op_tags data = [] -> untagged_present path method g))
             (paths openapi) f path item t0 Hstep); auto.
    + intros u Hu.
      destruct (tags_item_inv path item u Hp Hu) as [_ [_ H3]].
      now apply H3.
    + intros g g' Hgg [H1 H2]. split.
      * intros tag Htag. apply (tag_present_grows _ _ _ _ _ Hgg). auto.
      * intros He. apply (untagged_present_grows _ _ _ _ Hgg). auto.
Qed.

End TagInv.

(** X8. The nodes of the tree of the tag strategy are exactly: the
    root; the folder of every key of [tagDescMap] (every declared tag,
    used or not); and, for every operation under [openapi.paths] that
    passes both filters, the folder and the request of each tag it
    lists, or its one request when it lists none. *)
Theorem tags_nodes_exact (openapi : OpenAPI) (incl : bool) (v : string) :
  let tree := _generateTreeFromTags openapi incl in
  hasNode v tree = true <->
  v = "root:collection" \/
  (exists tag,
      In tag (keys (tagDescMap_of (tags openapi))) /\ v = tagFolderId tag) \/
  (exists path method data tag,
      tag_kept openapi incl path method data /\ In tag (op_tags data) /\
      (v = tagFolderId tag \/ v = tagRequestId tag path method)) \/
  (exists path method data,
      tag_kept openapi incl path method data /\ op_tags data = [] /\
      v = untaggedId path method).
Proof.
  cbv zeta. destruct (tags_tree_inv openapi incl) as [Hinv [_ [Hdecl Hops]]].
  split.
  - intros Hv. destruct (inv_nodes Hinv _ Hv) as [l [_ Hq]].
    destruct Hq as [[-> _]
                   |[[tag [Hin [-> _]]]
                    |[[path [m [d [tag [Hk [Hin Hv']]]]]]
                     |[path [m [d [Hk [Ht [-> _]]]]]]]]].
    + now left.
    + right; left. now exists tag.
    + right; right; left. exists path, m, d, tag.
      split; [exact Hk|]. split; [exact Hin|].
      destruct Hv' as [[-> _]|[-> _]]; auto.
    + right; right; right. exists path, m, d. auto.
  - intros [->|[[tag [Hin ->]]
               |[[path [m [d [tag [Hk [Hin Hv]]]]]]
                |[path [m [d [Hk [Ht ->]]]]]]]].
    + exact (tree_inv_root _ _ _ _ Hinv).
    + now apply Hdecl.
    + destruct (Hops path m d Hk) as [Htagged _].
      destruct (Htagged tag Hin) as [Hf [Hr _]].
      destruct Hv as [->| ->]; [exact Hf | now apply is_request_hasNode].
    + destruct (Hops path m d Hk) as [_ Hun].
      destruct (Hun Ht) as [Hr _]. now apply is_request_hasNode.
Qed.

Lemma tags_edge_not_root (openapi : OpenAPI) (incl : bool) (u : string) :
  ~ tags_edge openapi incl u "root:collection".
Proof.
  intros [[_ [[tag [_ H]]|[[p [m [d [tag [_ [_ H]]]]]]
                          |[p [m [d [_ [_ H]]]]]]]]
         |[p [m [d [tag [_ [_ [_ H]]]]]]]]; discriminate.
Qed.

(** X9. The edges of the tree of the tag strategy.  Every edge either
    leaves the root, into the folder of a declared or listed tag or into
    the request of an operation without tags, or leaves the folder
    identifier of a tag into the request of an operation that lists this
    tag; no edge ends in the root; and every node is reached from the
    root.  The folder identifier of a tag whose name has no colon, when
    it is a node, hangs from the root, so that the requests under such a
    tag are two levels under the root.  (With a colon in its name the
    folder identifier of a tag can be the identifier of a request, and
    the tree can be deeper.) *)
Theorem tags_edges_and_levels (openapi : OpenAPI) (incl : bool) :
  let tree := _generateTreeFromTags openapi incl in
  (forall u v, In (u, v) (edges tree) -> tags_edge openapi incl u v) /\
  edges_into "root:collection" tree = [] /\
  (forall v, hasNode v tree = true -> reachable tree v) /\
  (forall tag,
     mentions ":" tag = false -> hasNode (tagFolderId tag) tree = true ->
     edges_into (tagFolderId tag) tree
     = [("root:collection", tagFolderId tag)]).
Proof.
  cbv zeta. destruct (tags_tree_inv openapi incl) as [Hinv _].
  split; [|split; [|split]].
  - exact (inv_edges Hinv).
  - exact (tree_inv_root_no_parent _ _ _ Hinv
             (tags_edge_not_root openapi incl)).
  - intros v Hv. destruct (inv_reach Hinv _ Hv) as [[]|Hr]. exact Hr.
  - intros tag Hc Hv.
    assert (Hroot : forall u,
               In (u, tagFolderId tag)
                  (edges (_generateTreeFromTags openapi incl)) ->
               u = "root:collection").
    { intros u Hin.
      destruct (inv_edges Hinv _ _ Hin)
        as [[Hu _]|[p [m [d [T [_ [_ [_ Hid]]]]]]]]; [exact Hu|].
      unfold tagFolderId, tagRequestId in Hid.
      apply app_inv_head in Hid. subst tag.
      rewrite mentions_app in Hc. apply orb_false_iff in Hc.
      destruct Hc as [_ Hc]. discriminate. }
    destruct (inv_reach Hinv _ Hv) as [[]|Hr].
    apply reachable_inv in Hr. destruct Hr as [Hr|[u Hin]]; [discriminate|].
    pose proof (Hroot u Hin) as Hu. subst u.
    apply singleton_list.
    + apply NoDup_filter. exact (ok_edges (inv_store Hinv)).
    + apply filter_In. split; [exact Hin | apply String.eqb_refl].
    + intros [a b] Hy. apply filter_In in Hy. destruct Hy as [Hy Hb].
      cbn [snd] in Hb. apply String.eqb_eq in Hb. subst b.
      now rewrite (Hroot a Hy).
Qed.

(** X10. Tag strategy, lines 442-453: an operation that passes both
    filters and lists no tag gets one request node, linked from the
    root.  The node holds a request value: that of the path and method
    of the operation, or that of an operation with tags that has the
    same identifier (whichever of the two is written last).  When the
    path has no colon, no operation with tags has the same identifier and
    the node holds the request value of the operation itself. *)
Theorem tags_untagged_under_root (openapi : OpenAPI) (incl : bool)
    (path method : string) (data : Operation) :
  tag_kept openapi incl path method data -> op_tags data = [] ->
  let tree := _generateTreeFromTags openapi incl in
  let id := untaggedId path method in
  In ("root:collection", id) (edges tree) /\
  (node id tree = Some (untagged_request path method) \/
   exists tag path' method',
     id = tagRequestId tag path' method' /\
     node id tree = Some (tag_request tag path' method')) /\
  (mentions ":" path = false ->
   node id tree = Some (untagged_request path method)).
Proof.
  intros Hk Ht. cbv zeta.
  destruct (tags_tree_inv openapi incl) as [Hinv [_ [_ Hops]]].
  destruct (Hops path method data Hk) as [_ Hun].
  destruct (Hun Ht) as [[l [Hl Hreq]] He].
  split; [now apply hasEdge_true_iff|].
  destruct (inv_nodes Hinv _ (@node_hasNode _ _ _ Hl)) as [l' [Hl' Hq]].
  assert (l' = l) by congruence. subst l'.
  assert (Hm : mentions ":" method = false).
  { destruct Hk as [_ [_ [_ Hkept]]]. unfold kept in Hkept.
    apply andb_true_iff in Hkept. apply allowed_colonfree; tauto. }
  destruct Hq as [[Hv _]
                 |[[tag [_ [_ ->]]]
                  |[[p [m [d [tag [Hk' [Hin [[_ ->]|[Hv ->]]]]]]]]
                   |[p [m [d [Hk' [_ [Hv ->]]]]]]]]]; try discriminate.
  - split; [right; exists tag, p, m; now split|].
    intros Hc. exfalso.
    assert (Hm' : mentions ":" m = false).
    { destruct Hk' as [_ [_ [_ Hkept']]]. unfold kept in Hkept'.
      apply andb_true_iff in Hkept'. apply allowed_colonfree; tauto. }
    unfold untaggedId, tagRequestId in Hv. apply app_inv_head in Hv.
    replace (tag ++ ":" ++ p ++ ":" ++ m)
      with ((tag ++ ":" ++ p) ++ ":" ++ m) in Hv
      by (rewrite !app_assoc; reflexivity).
    apply colon_split in Hv; auto.
    destruct Hv as [Hv _]. rewrite Hv, !mentions_app in Hc.
    cbn in Hc. rewrite orb_true_r in Hc. discriminate.
  - assert (Hm' : mentions ":" m = false).
    { destruct Hk' as [_ [_ [_ Hkept']]]. unfold kept in Hkept'.
      apply andb_true_iff in Hkept'. apply allowed_colonfree; tauto. }
    unfold untaggedId in Hv. apply app_inv_head in Hv.
    apply colon_split in Hv; auto.
    destruct Hv as [-> ->]. split; [now left | now intros _].
Qed.

Lemma tags_untagged_under_root_witness :
  let tree := _generateTreeFromTags pets_document false in
  let id := untaggedId "/pets/{id}/photo" "get" in
  In ("root:collection", id) (edges tree) /\
  (node id tree = Some (untagged_request "/pets/{id}/photo" "get") \/
   exists tag path' method',
     id = tagRequestId tag path' method' /\
     node id tree = Some (tag_request tag path' method')) /\
  (mentions ":" "/pets/{id}/photo" = false ->
   node id tree = Some (untagged_request "/pets/{id}/photo" "get")).
Proof.
  apply (tags_untagged_under_root pets_document false "/pets/{id}/photo"
           "get" {| deprecated := false; op_tags := [] |}).
  - eexists. split; [right; left; reflexivity|].
    split; [now left | reflexivity].
  - reflexivity.
Defined.

(** *** The order of the tag folders *)

Lemma in_keys_set {V} (k k' : string) (v : V) (o : obj V) :
  In k' (keys (set k v o)) <-> k' = k \/ In k' (keys o).
Proof.
  rewrite <- !has_true_iff, has_set, orb_true_iff.
  now rewrite String.eqb_eq.
Qed.

Lemma existsb_has {V} (k : string) (o : obj V) :
  existsb (String.eqb k) (keys o) = has k o.
Proof.
  unfold has. induction o as [|[k0 v0] o IH]; [reflexivity|].
  simpl. destruct (String.eqb k k0); [reflexivity | exact IH].
Qed.

Lemma tagDescMap_keys (declared : list TagObject) (acc : obj Value) :
  let M := fold_left (fun acc data =>
                        assign (name data) (description_value data) acc)
                     declared acc in
  (wf acc -> wf M) /\
  (forall tag, In tag (keys M) <->
               In tag (keys acc) \/ In tag (declared_names declared)) /\
  ((forall d, In d declared -> arrayIndex (name d) = None) ->
   keys M
   = (keys acc ++ first_occurrences (keys acc) (declared_names declared))
     %list).
Proof.
  cbv zeta. revert acc. induction declared as [|d rest IH]; intros acc.
  - simpl. split; [auto|]. split; [tauto|]. intros _.
    now rewrite List.app_nil_r.
  - cbn [fold_left]. unfold declared_names. cbn [map filter].
    fold (declared_names rest).
    destruct (IH (assign (name d) (description_value d) acc))
      as [Hwf [Hin Hkeys]].
    unfold assign in *.
    destruct (String.eqb_spec (name d) "__proto__") as [Hp|Hp];
      cbn [negb].
    + split; [exact Hwf|]. split; [exact Hin|].
      intros Hidx. apply Hkeys. intros d' Hd'. apply Hidx. now right.
    + split; [intros Hacc; now apply Hwf, wf_set|]. split.
      * intros tag. rewrite Hin, in_keys_set. simpl. intuition congruence.
      * intros Hidx. rewrite Hkeys by (intros d' Hd'; apply Hidx; now right).
        cbn [first_occurrences]. rewrite existsb_has. unfold set.
        destruct (has (name d) acc) eqn:Hhas.
        -- now rewrite keys_replace.
        -- rewrite (Hidx d (or_introl eq_refl)).
           unfold keys. rewrite map_app. simpl.
           now rewrite <- List.app_assoc.
Qed.

Lemma tagFolderId_inj (tag tag' : string) :
  tagFolderId tag = tagFolderId tag' -> tag = tag'.
Proof. unfold tagFolderId. apply app_inv_head. Qed.

(** The first loop of the tag strategy adds one node per key, in
    order. *)
Lemma tags_folders_nodes (M declared : obj Value) (t : Graph) :
  NoDup (keys declared) -> hasNode "root:collection" t = true ->
  (forall tag, In tag (keys declared) ->
               hasNode (tagFolderId tag) t = false) ->
  nodes (forOwn declared (tags_folder M) t)
  = (nodes t ++ map tagFolderId (keys declared))%list.
Proof.
  revert t. induction declared as [|[tag desc] rest IH];
    intros t Hnd Hroot Hfresh.
  - simpl. now rewrite List.app_nil_r.
  - unfold forOwn. rewrite forEach_cons. fold (forOwn rest (tags_folder M)).
    cbn [fst snd]. simpl in Hnd. apply NoDup_cons_iff in Hnd.
    destruct Hnd as [Hnot Hnd].
    unfold tags_folder at 2.
    change ("path:" ++ tag) with (tagFolderId tag).
    rewrite (Hfresh tag) by now left.
    set (t' := setEdge "root:collection" (tagFolderId tag)
                 (setNode (tagFolderId tag)
                    (tag_folder "" tag (tagDesc M tag)) t)).
    assert (Hnodes : _nodes t'
                     = _nodes (setNode (tagFolderId tag)
                                 (tag_folder "" tag (tagDesc M tag)) t)).
    { apply nodes_setEdge; rewrite hasNode_setNode.
      - rewrite Hroot. apply orb_true_r.
      - now rewrite String.eqb_refl. }
    change (forEach rest (fun kv => tags_folder M (snd kv) (fst kv)) t')
      with (forOwn rest (tags_folder M) t').
    rewrite IH.
    + unfold nodes at 1. rewrite Hnodes. fold (nodes (setNode (tagFolderId tag)
                                 (tag_folder "" tag (tagDesc M tag)) t)).
      rewrite nodes_setNode by reflexivity.
      rewrite (Hfresh tag) by now left.
      simpl. now rewrite <- List.app_assoc.
    + exact Hnd.
    + unfold hasNode. rewrite Hnodes. fold (hasNode "root:collection"
        (setNode (tagFolderId tag) (tag_folder "" tag (tagDesc M tag)) t)).
      rewrite hasNode_setNode, Hroot. apply orb_true_r.
    + intros tag' Hin. unfold hasNode. rewrite Hnodes.
      fold (hasNode (tagFolderId tag')
              (setNode (tagFolderId tag)
                 (tag_folder "" tag (tagDesc M tag)) t)).
      rewrite hasNode_setNode, (Hfresh tag') by now right.
      rewrite orb_false_r. apply String.eqb_neq. intros He.
      apply tagFolderId_inj in He. subst tag'. contradiction.
Qed.

(** X11. Tag strategy, lines 357-391: [graph.nodes()] lists the root
    first and then one folder per key of [tagDescMap], in the order in
    which JavaScript enumerates the keys, before any node made for an
    operation.  The keys are the declared names (apart from
    [__proto__]), each once; when no declared name spells an array
    index, their order is that of the first declaration of each name. *)
Theorem tags_folders_first (openapi : OpenAPI) (incl : bool) :
  let tree := _generateTreeFromTags openapi incl in
  let tagDescMap := tagDescMap_of (tags openapi) in
  (exists rest,
      nodes tree
      = ("root:collection" :: map tagFolderId (keys tagDescMap) ++ rest)
        %list) /\
  NoDup (keys tagDescMap) /\
  (forall tag, In tag (keys tagDescMap) <->
               In tag (declared_names (tags openapi))) /\
  ((forall d, In d (tags openapi) -> arrayIndex (name d) = None) ->
   keys tagDescMap = first_occurrences [] (declared_names (tags openapi))).
Proof.
  cbv zeta.
  destruct (tagDescMap_keys (tags openapi) []) as [Hwf [Hin Hkeys]].
  fold (tagDescMap_of (tags openapi)) in Hwf, Hin, Hkeys.
  assert (Hnd : NoDup (keys (tagDescMap_of (tags openapi))))
    by (apply Hwf; constructor).
  split; [|split; [exact Hnd|split]].
  - destruct (tags_tree_inv openapi incl) as [_ [[_ [_ [[rest Hr] _]]] _]].
    exists rest. rewrite Hr, tags_folders_nodes; auto.
  - intros tag. rewrite Hin. simpl. tauto.
  - intros Hidx. now rewrite Hkeys.
Qed.

(** ** Every returned tree hangs from its root *)

Lemma webhooks_tree_inv (openapi : OpenAPI) (incl : bool) (t : Graph) :
  let Q := fun (_ : string) (_ : Label) => True in
  let E := fun (_ v : string) => v <> "root:collection" in
  tree_inv Q E [] t ->
  tree_inv Q E [] (_generateWebhookEndpoints openapi t incl).
Proof.
  intros Q E Ht. unfold _generateWebhookEndpoints.
  destruct (webhooks openapi) as [|hook hooks] eqn:Hw;
    [exact Ht|]. cbn [isEmpty negb]. rewrite <- Hw.
  fold webhookFolderId.
  set (t0 := setEdge "root:collection" webhookFolderId
               (setNode webhookFolderId webhook_folder t)).
  assert (H0 : tree_inv Q E [] t0).
  { apply tree_inv_add; auto; try discriminate; try exact I.
    exact (tree_inv_root _ _ _ _ Ht). }
  assert (Hf0 : hasNode webhookFolderId t0 = true) by apply added_present.
  set (P := fun u => tree_inv Q E [] u /\ hasNode webhookFolderId u = true).
  apply (forOwn_inv P); [|now split].
  intros path methodData u _ Hu.
  apply (forOwn_inv P); [|exact Hu].
  intros method data w _ [Hw1 Hw2]. unfold webhook_method.
  destruct (negb incl && deprecated data); [now split|].
  fold (webhookId path method). fold webhookFolderId. split.
  - apply tree_inv_add; auto; try discriminate; try exact I.
    apply String.eqb_neq, webhookId_not_folder.
  - apply hasNode_setEdge_mono. rewrite hasNode_setNode, Hw2.
    apply orb_true_r.
Qed.

(** X12. Whatever the strategy and the options, in the tree the exported
    function returns the root is the first node [graph.nodes()] lists
    and holds the collection value, no edge ends in the root, and every
    node is reached from the root along edges. *)
Theorem module_exports_rooted (openapi : OpenAPI) (options : Options)
    (tree : Graph) :
  module_exports openapi options = Returned tree ->
  hd_error (nodes tree) = Some "root:collection" /\
  node "root:collection" tree = Some root_value /\
  edges_into "root:collection" tree = [] /\
  (forall v, hasNode v tree = true -> reachable tree v).
Proof.
  intros H. destruct (module_exports_returned _ _ _ H) as [base [Hb ->]].
  set (Q := fun (_ : string) (_ : Label) => True).
  set (E := fun (_ v : string) => v <> "root:collection").
  assert (Hbase : tree_inv Q E [] base).
  { destruct Hb as [-> | ->].
    - destruct (tags_tree_inv openapi (includeDeprecated options))
        as [Hinv _].
      apply (tree_inv_weaken _ Q _ E _ _) in Hinv; [exact Hinv|easy|].
      intros u v Huv Hv. subst v. exact (tags_edge_not_root _ _ _ Huv).
    - pose proof (paths_tree_inv openapi (includeDeprecated options))
        as Hinv.
      apply (tree_inv_weaken _ Q _ E _ _) in Hinv; [exact Hinv|easy|].
      intros u v Huv Hv. subst v. exact (paths_edge_not_root _ Huv). }
  assert (Hinv : tree_inv Q E []
                   (if includeWebhooks options
                    then _generateWebhookEndpoints openapi base
                           (includeDeprecated options)
                    else base)).
  { destruct (includeWebhooks options); [|exact Hbase].
    now apply webhooks_tree_inv. }
  split; [exact (inv_first Hinv)|]. split; [exact (inv_root Hinv)|].
  split.
  - apply (tree_inv_root_no_parent _ _ _ Hinv). intros u Hu. now apply Hu.
  - intros v Hv. destruct (inv_reach Hinv _ Hv) as [[]|Hr]. exact Hr.
Qed.

Lemma module_exports_rooted_witness :
  let tree := _generateWebhookEndpoints pets_document
                (_generateTreeFromTags pets_document true) true in
  hd_error (nodes tree) = Some "root:collection" /\
  node "root:collection" tree = Some root_value /\
  edges_into "root:collection" tree = [] /\
  (forall v, hasNode v tree = true -> reachable tree v).
Proof.
  apply (module_exports_rooted pets_document
           {| folderStrategy := Some "tags"; includeWebhooks := true;
              includeDeprecated := true |}).
  reflexivity.
Defined.

(** ** [indentContent] *)

Lemma concat_split (sep : ascii) (s : string) :
  String.concat (String sep "") (split sep s) = s.
Proof.
  induction s as [|c r IH]; [reflexivity|]. simpl.
  pose proof (split_not_nil sep r) as Hne.
  destruct (Ascii.eqb_spec c sep) as [->|Hc].
  - destruct (split sep r) as [|h t]; [congruence|].
    simpl in *. now rewrite IH.
  - destruct (split sep r) as [|h t]; [congruence|].
    destruct t; simpl in *; now rewrite <- IH.
Qed.

Lemma split_free (sep : ascii) (a : string) :
  mentions sep a = false -> split sep a = [a].
Proof.
  induction a as [|c a IH]; [reflexivity|]. simpl.
  intros H. apply orb_false_iff in H. destruct H as [Hc Ha].
  rewrite Hc, (IH Ha). reflexivity.
Qed.

Lemma split_pieces_free (sep : ascii) (s : string) :
  Forall (fun x => mentions sep x = false) (split sep s).
Proof.
  induction s as [|c r IH]; simpl; [now constructor|].
  destruct (Ascii.eqb c sep) eqn:Hc; [now constructor|].
  pose proof (split_not_nil sep r) as Hne.
  destruct (split sep r) as [|h t]; [congruence|].
  inversion IH as [|? ? Hh Ht]; subst. constructor; [|exact Ht].
  simpl. now rewrite Hc, Hh.
Qed.

Lemma split_concat (sep : ascii) (l : list string) :
  l <> [] -> Forall (fun x => mentions sep x = false) l ->
  split sep (String.concat (String sep "") l) = l.
Proof.
  induction l as [|a l IH]; intros Hne Hall; [congruence|].
  inversion Hall as [|? ? Ha Hl]; subst.
  destruct l as [|b l]; [now apply split_free|].
  change (String.concat (String sep "") (a :: b :: l))
    with (a ++ String sep (String.concat (String sep "") (b :: l))).
  rewrite split_sep, (split_free _ _ Ha), IH; [reflexivity | discriminate|].
  exact Hl.
Qed.

Lemma length_concat_map (sep ind : string) (l : list string) :
  l <> [] ->
  String.length (String.concat sep (map (fun x => ind ++ x) l))
  = String.length (String.concat sep l)
    + List.length l * String.length ind.
Proof.
  induction l as [|a l IH]; intros Hne; [congruence|].
  destruct l as [|b l].
  - simpl. rewrite length_app. lia.
  - change (map (fun x => ind ++ x) (a :: b :: l))
      with ((ind ++ a) :: map (fun x => ind ++ x) (b :: l)).
    assert (Hm : map (fun x => ind ++ x) (b :: l) <> []) by discriminate.
    destruct (map (fun x => ind ++ x) (b :: l)) as [|b' l'] eqn:Hmap;
      [congruence|].
    change (String.concat sep ((ind ++ a) :: b' :: l'))
      with ((ind ++ a) ++ sep ++ String.concat sep (b' :: l')).
    change (String.concat sep (a :: b :: l))
      with (a ++ sep ++ String.concat sep (b :: l)).
    rewrite !length_app, IH by discriminate.
    cbn [List.length]. lia.
Qed.

(** X13. [indentContent] with an empty indent gives the content back
    (cutting at line feeds and joining with line feeds is a round trip),
    and in general the result is longer than the content by one indent
    per line, a content without line feed counting as one line. *)
Theorem indentContent_round_trip (content initialIndent : string) :
  indentContent content "" = content /\
  String.length (indentContent content initialIndent)
  = String.length content
    + List.length (split newline content) * String.length initialIndent.
Proof.
  unfold indentContent. cbv zeta. split.
  - rewrite map_id. apply concat_split.
  - rewrite length_concat_map by apply split_not_nil.
    now rewrite concat_split.
Qed.

(** X14. [indentContent] with an indent that has no line feed works line
    by line: the lines of the result are the lines of the content, in
    order, each with the indent in front; and indenting twice is
    indenting once with both indents, the second in front. *)
Theorem indentContent_line_by_line (content a b : string) :
  mentions newline a = false ->
  split newline (indentContent content a)
  = map (fun line => a ++ line) (split newline content) /\
  indentContent (indentContent content a) b
  = indentContent content (b ++ a).
Proof.
  intros Ha.
  assert (Hlines : split newline (indentContent content a)
                   = map (fun line => a ++ line) (split newline content)).
  { unfold indentContent. cbv zeta. apply split_concat.
    - pose proof (split_not_nil newline content) as Hne.
      destruct (split newline content); [congruence | discriminate].
    - apply Forall_map.
      eapply Forall_impl; [|apply split_pieces_free].
      intros x Hx. cbv beta in *. now rewrite mentions_app, Ha, Hx. }
  split; [exact Hlines|].
  unfold indentContent at 1. cbv zeta. rewrite Hlines, map_map.
  unfold indentContent. cbv zeta. f_equal.
  apply map_ext. intros x. now rewrite app_assoc.
Qed.

Lemma indentContent_line_by_line_witness :
  let content := String "<" (String "a" (String ">" (String newline
                   (String "<" (String "b" (String ">" ""))))))  in
  split newline (indentContent content "  ")
  = ["  <a>"; "  <b>"] /\
  indentContent (indentContent content "  ") "    "
  = indentContent content "      ".
Proof.
  exact (indentContent_line_by_line
           (String "<" (String "a" (String ">" (String newline
              (String "<" (String "b" (String ">" "")))))))
           "  " "    " eq_refl).
Defined.

(** ** String helpers of the conversion *)

Lemma removeBraces_app (a b : string) :
  removeBraces (a ++ b) = removeBraces a ++ removeBraces b.
Proof.
  induction a as [|c a IH]; [reflexivity|]. simpl.
  destruct (Ascii.eqb c "{" || Ascii.eqb c "}"); simpl; now rewrite IH.
Qed.

Lemma replaceSlashes_app (a b : string) :
  replaceSlashes (a ++ b) = replaceSlashes a ++ replaceSlashes b.
Proof.
  induction a as [|c a IH]; [reflexivity|]. simpl. now rewrite IH.
Qed.

Lemma removeBraces_clean (s : string) :
  mentions "{" (removeBraces s) = false /\
  mentions "}" (removeBraces s) = false /\
  (mentions "/" s = false -> mentions "/" (removeBraces s) = false) /\
  String.length (removeBraces s) + braces s = String.length s.
Proof.
  induction s as [|c s [IH1 [IH2 [IH3 IH4]]]]; [repeat split|].
  cbn [removeBraces braces mentions String.length].
  destruct (Ascii.eqb c "{" || Ascii.eqb c "}") eqn:Hb.
  - split; [exact IH1|]. split; [exact IH2|]. split; [|lia].
    intros H. apply orb_false_iff in H. now apply IH3.
  - apply orb_false_iff in Hb. destruct Hb as [H1 H2].
    cbn [mentions String.length]. rewrite H1, H2, IH1, IH2.
    split; [reflexivity|]. split; [reflexivity|]. split; [|lia].
    intros H. apply orb_false_iff in H. destruct H as [-> H].
    now apply IH3.
Qed.

Lemma replaceSlashes_clean (s : string) :
  mentions "/" (replaceSlashes s) = false /\
  braces (replaceSlashes s) = braces s /\
  String.length (replaceSlashes s) = String.length s.
Proof.
  induction s as [|c s [IH1 [IH2 IH3]]]; [repeat split|]. simpl.
  destruct (Ascii.eqb_spec c "/") as [->|Hc].
  - simpl. auto.
  - rewrite IH1, IH2, IH3.
    now rewrite (proj2 (Ascii.eqb_neq _ _) Hc).
Qed.

(** X15. [fixPathVariableName]: the name it returns has no slash and no
    brace, ends in [-Url], and is as long as the path without its braces
    plus four.  It tells apart neither a slash from a dash nor a path
    with braces from the same path without them: such paths get the same
    name. *)
Theorem fixPathVariableName_clean (path a b : string) :
  let name := fixPathVariableName path in
  mentions "/" name = false /\ mentions "{" name = false /\
  mentions "}" name = false /\
  (exists stem, name = stem ++ "-Url") /\
  String.length name + braces path = String.length path + 4 /\
  fixPathVariableName (a ++ "/" ++ b) = fixPathVariableName (a ++ "-" ++ b) /\
  fixPathVariableName path = fixPathVariableName (removeBraces path).
Proof.
  cbv zeta. unfold fixPathVariableName.
  destruct (replaceSlashes_clean path) as [Hs [Hb Hl]].
  destruct (removeBraces_clean (replaceSlashes path)) as [H1 [H2 [H3 H4]]].
  rewrite !mentions_app, H1, H2, (H3 Hs).
  split; [reflexivity|]. split; [reflexivity|]. split; [reflexivity|].
  split; [eauto|]. split.
  - rewrite length_app. simpl. rewrite Hb, Hl in H4. lia.
  - split.
    + now rewrite !replaceSlashes_app.
    + f_equal. clear. induction path as [|c s IH]; [reflexivity|].
      simpl. destruct (Ascii.eqb_spec c "/") as [->|Hc]; simpl.
      * now rewrite IH.
      * destruct (Ascii.eqb c "{" || Ascii.eqb c "}") eqn:Hbr; simpl.
        -- exact IH.
        -- rewrite (proj2 (Ascii.eqb_neq _ _) Hc), Hbr. now rewrite IH.
Qed.

Lemma substring_prefix (n : nat) (s : string) :
  exists rest,
    s = String.substring 0 n s ++ rest /\
    String.length (String.substring 0 n s) = Nat.min n (String.length s).
Proof.
  revert s. induction n as [|n IH]; intros s.
  - exists s. destruct s; now split.
  - destruct s as [|c s]; [exists ""; now split|].
    destruct (IH s) as [rest [Hs Hl]]. exists rest.
    cbn [String.substring String.length]. split.
    + cbn [append]. now rewrite <- Hs.
    + rewrite Hl. reflexivity.
Qed.

Lemma substring_short (n : nat) (s : string) :
  String.length s <= n -> String.substring 0 n s = s.
Proof.
  revert s. induction n as [|n IH]; intros s Hl.
  - destruct s; [reflexivity | simpl in Hl; lia].
  - destruct s as [|c s]; [reflexivity|].
    cbn [String.substring]. f_equal. apply IH. simpl in Hl. lia.
Qed.

(** X16. [trimRequestName]: a string is cut to its first 255 characters
    (and left alone when it has no more than that); trimming twice is
    trimming once; an argument that is not a string comes back as it
    is. *)
Theorem trimRequestName_bound (A : Type) (reqName : Arg A) :
  trimRequestName (trimRequestName reqName) = trimRequestName reqName /\
  match reqName with
  | AOther a => trimRequestName reqName = AOther a
  | AString s =>
      exists name rest,
        trimRequestName reqName = AString name /\ s = name ++ rest /\
        String.length name = Nat.min 255 (String.length s) /\
        (String.length s <= 255 -> name = s)
  end.
Proof.
  destruct reqName as [s|a]; [|now split].
  destruct (substring_prefix 255 s) as [rest [Hs Hl]].
  split.
  - unfold trimRequestName. f_equal. apply substring_short.
    rewrite Hl. apply Nat.le_min_l.
  - exists (String.substring 0 255 s), rest.
    split; [reflexivity|]. split; [exact Hs|]. split; [exact Hl|].
    apply substring_short.
Qed.

(** *** [insertSpacesInName] *)

Lemma spaceLowerUpper_cons (a b : ascii) (r : string) :
  spaceLowerUpper (String a (String b r))
  = if is_lower a && is_upper b
    then String a (String " " (String b (spaceLowerUpper r)))
    else String a (spaceLowerUpper (String b r)).
Proof. reflexivity. Qed.

Lemma spaceUpperWord_cons (a b c : ascii) (r : string) :
  spaceUpperWord (String a (String b (String c r)))
  = if is_upper a && is_upper b && is_lower c
    then String a (String " " (String b (String c (spaceUpperWord r))))
    else String a (spaceUpperWord (String b (String c r))).
Proof. reflexivity. Qed.

Lemma letters_space (s : string) : letters (String " " s) = letters s.
Proof. reflexivity. Qed.

Lemma letters_cons (c : ascii) (s s' : string) :
  letters s = letters s' -> letters (String c s) = letters (String c s').
Proof. intros H. cbn [letters]. now rewrite H. Qed.

Lemma letters_spaceLowerUpper (s : string) :
  letters (spaceLowerUpper s) = letters s.
Proof.
  assert (H : letters (spaceLowerUpper s) = letters s /\
              forall a, letters (spaceLowerUpper (String a s))
                        = letters (String a s)).
  { induction s as [|b r [IH1 IH2]]; [split; reflexivity|].
    split; [apply IH2|]. intros a. rewrite spaceLowerUpper_cons.
    destruct (is_lower a && is_upper b).
    - apply letters_cons. rewrite letters_space. now apply letters_cons.
    - apply letters_cons, IH2. }
  apply H.
Qed.

Lemma letters_spaceUpperWord (s : string) :
  letters (spaceUpperWord s) = letters s.
Proof.
  assert (H : letters (spaceUpperWord s) = letters s /\
              (forall a, letters (spaceUpperWord (String a s))
                         = letters (String a s)) /\
              (forall a b, letters (spaceUpperWord (String a (String b s)))
                           = letters (String a (String b s)))).
  { induction s as [|c r [IH1 [IH2 IH3]]]; [repeat split|].
    split; [apply IH2|]. split; [intros a; exact (IH3 a c)|]. intros a b.
    rewrite spaceUpperWord_cons.
    destruct (is_upper a && is_upper b && is_lower c).
    - apply letters_cons. rewrite letters_space.
      now apply letters_cons, letters_cons.
    - apply letters_cons. exact (IH3 b c). }
  apply H.
Qed.

Lemma letters_underscores (n : nat) (s : string) :
  letters (underscores n ++ s) = letters s.
Proof. induction n as [|n IH]; [reflexivity | exact IH]. Qed.

Lemma letters_spaceUnderscores (n : nat) (s : string) :
  letters (spaceUnderscores n s) = letters s.
Proof.
  revert n. induction s as [|c r IH]; intros n.
  - simpl. rewrite <- (app_nil_r (underscores n)).
    apply letters_underscores.
  - cbn [spaceUnderscores letters].
    destruct (Ascii.eqb c "_") eqn:Hc; [rewrite orb_true_r; apply IH|].
    rewrite orb_false_r. destruct n as [|n].
    + cbn [letters]. rewrite Hc, orb_false_r. now rewrite IH.
    + destruct (is_alnum c).
      * cbn [letters]. change (Ascii.eqb " " " " || Ascii.eqb " " "_")
          with true. cbv iota. rewrite Hc, orb_false_r. now rewrite IH.
      * rewrite letters_underscores. cbn [letters].
        rewrite Hc, orb_false_r. now rewrite IH.
Qed.

Lemma adjacent_cons (p : ascii -> ascii -> bool) (a : ascii) (s : string) :
  adjacent p (String a s) = follows p a s || adjacent p s.
Proof. destruct s; reflexivity. Qed.

Lemma upper_not_lower (c : ascii) : is_upper c = true -> is_lower c = false.
Proof.
  unfold is_upper, is_lower. cbv zeta. intros H.
  apply andb_true_iff in H. destruct H as [_ H]. apply N.leb_le in H.
  apply andb_false_iff. left. apply N.leb_gt. lia.
Qed.

Lemma spaceLowerUpper_head (p : ascii -> ascii -> bool) (a : ascii)
    (s : string) :
  follows p a (spaceLowerUpper s) = follows p a s.
Proof.
  destruct s as [|b [|c r]]; try reflexivity.
  rewrite spaceLowerUpper_cons. now destruct (is_lower b && is_upper c).
Qed.

Lemma spaceUpperWord_head (p : ascii -> ascii -> bool) (a : ascii)
    (s : string) :
  follows p a (spaceUpperWord s) = follows p a s.
Proof.
  destruct s as [|b [|c [|d r]]]; try reflexivity.
  rewrite spaceUpperWord_cons.
  now destruct (is_upper b && is_upper c && is_lower d).
Qed.

(** After the first replacement no lower-case letter is directly
    followed by an upper-case one. *)
Lemma spaceLowerUpper_separates (s : string) :
  adjacent lower_upper (spaceLowerUpper s) = false.
Proof.
  assert (H : adjacent lower_upper (spaceLowerUpper s) = false /\
              forall a, adjacent lower_upper (spaceLowerUpper (String a s))
                        = false).
  { induction s as [|b r [IH1 IH2]]; [split; reflexivity|].
    split; [apply IH2|]. intros a. rewrite spaceLowerUpper_cons.
    destruct (is_lower a && is_upper b) eqn:Hc.
    - apply andb_true_iff in Hc. destruct Hc as [_ Hb].
      rewrite !adjacent_cons, IH1, spaceLowerUpper_head.
      cbn [follows]. unfold lower_upper at 1 2.
      change (is_upper " ") with false. change (is_lower " ") with false.
      rewrite andb_false_r. cbn [andb orb]. rewrite orb_false_r.
      destruct r as [|c r]; [reflexivity|]. cbn [follows].
      unfold lower_upper. now rewrite (upper_not_lower _ Hb).
    - rewrite adjacent_cons, IH2, spaceLowerUpper_head. cbn [follows].
      unfold lower_upper. now rewrite Hc. }
  apply H.
Qed.

Lemma adjacent_false_cons (p : ascii -> ascii -> bool) (a : ascii)
    (s : string) :
  adjacent p (String a s) = false ->
  follows p a s = false /\ adjacent p s = false.
Proof. rewrite adjacent_cons. apply orb_false_iff. Qed.

Lemma spaceUpperWord_keeps (s : string) :
  adjacent lower_upper s = false ->
  adjacent lower_upper (spaceUpperWord s) = false.
Proof.
  set (P := fun s => adjacent lower_upper s = false ->
                     adjacent lower_upper (spaceUpperWord s) = false).
  assert (H : P s /\ (forall a, P (String a s)) /\
              (forall a b, P (String a (String b s)))).
  { induction s as [|c r [IH1 [IH2 IH3]]].
    - unfold P. repeat split; auto.
    - split; [apply IH2|]. split; [intros a; exact (IH3 a c)|].
      intros a b H. rewrite spaceUpperWord_cons.
      apply adjacent_false_cons in H. destruct H as [Hab H].
      destruct (is_upper a && is_upper b && is_lower c) eqn:Hc.
      + apply adjacent_false_cons in H. destruct H as [Hbc H].
        apply adjacent_false_cons in H. destruct H as [Hcr H].
        rewrite !adjacent_cons, (IH1 H), spaceUpperWord_head, Hcr.
        cbn [follows] in *. rewrite Hbc. unfold lower_upper at 1 2.
        change (is_upper " ") with false. change (is_lower " ") with false.
        now rewrite andb_false_r.
      + rewrite adjacent_cons, (IH3 b c H), spaceUpperWord_head.
        cbn [follows] in *. now rewrite Hab. }
  apply H.
Qed.

Lemma lower_upper_underscore (c : ascii) :
  lower_upper c "_" = false /\ lower_upper c " " = false /\
  lower_upper "_" c = false /\ lower_upper " " c = false.
Proof.
  unfold lower_upper. change (is_upper "_") with false.
  change (is_upper " ") with false. now rewrite andb_false_r.
Qed.

Lemma adjacent_underscores (p : ascii -> ascii -> bool) (n : nat)
    (s : string) :
  (forall c, p "_"%char c = false) ->
  adjacent p (underscores n ++ s) = adjacent p s.
Proof.
  intros Hp. induction n as [|n IH]; [reflexivity|].
  cbn [underscores append]. rewrite adjacent_cons, IH.
  destruct (underscores n ++ s); cbn [follows]; [reflexivity|].
  now rewrite Hp.
Qed.

Lemma spaceUnderscores_head (c : ascii) (n : nat) (s : string) :
  0 < n -> follows lower_upper c (spaceUnderscores n s) = false.
Proof.
  revert n. induction s as [|d r IH]; intros n Hn.
  - destruct n; [lia|]. cbn. apply lower_upper_underscore.
  - cbn [spaceUnderscores]. destruct (Ascii.eqb d "_"); [apply IH; lia|].
    destruct n as [|n]; [lia|]. destruct (is_alnum d); cbn.
    + apply lower_upper_underscore.
    + apply lower_upper_underscore.
Qed.

Lemma spaceUnderscores_head0 (c : ascii) (s : string) :
  follows lower_upper c s = false ->
  follows lower_upper c (spaceUnderscores 0 s) = false.
Proof.
  destruct s as [|d r]; [reflexivity|]. cbn [spaceUnderscores follows].
  destruct (Ascii.eqb d "_"); [intros _; apply spaceUnderscores_head; lia|].
  trivial.
Qed.

Lemma spaceUnderscores_keeps (n : nat) (s : string) :
  adjacent lower_upper s = false ->
  adjacent lower_upper (spaceUnderscores n s) = false.
Proof.
  revert n. induction s as [|c r IH]; intros n H.
  - cbn [spaceUnderscores]. rewrite <- (app_nil_r (underscores n)).
    rewrite adjacent_underscores; [reflexivity|].
    intros d. apply lower_upper_underscore.
  - apply adjacent_false_cons in H. destruct H as [Hcr H].
    cbn [spaceUnderscores].
    destruct (Ascii.eqb c "_"); [now apply IH|].
    assert (Hgo : adjacent lower_upper (String c (spaceUnderscores 0 r))
                  = false).
    { rewrite adjacent_cons, (IH 0 H).
      now rewrite spaceUnderscores_head0. }
    destruct n as [|n]; [exact Hgo|]. destruct (is_alnum c).
    + rewrite adjacent_cons, Hgo. cbn [follows].
      now rewrite (proj2 (proj2 (proj2 (lower_upper_underscore c)))).
    + rewrite adjacent_underscores; [exact Hgo|].
      intros d. apply lower_upper_underscore.
Qed.

Lemma underscore_alnum_not (c d : ascii) :
  Ascii.eqb c "_" = false -> underscore_alnum c d = false.
Proof. unfold underscore_alnum. now intros ->. Qed.

Lemma adjacent_underscores_kept (n : nat) (c : ascii) (s : string) :
  is_alnum c = false ->
  adjacent underscore_alnum (underscores n ++ String c s)
  = adjacent underscore_alnum (String c s).
Proof.
  intros Hc. induction n as [|n IH]; [reflexivity|].
  cbn [underscores append]. rewrite adjacent_cons, IH.
  destruct n as [|n]; cbn [underscores append follows].
  - unfold underscore_alnum at 1. now rewrite Hc, andb_false_r.
  - reflexivity.
Qed.

(** After the last replacement no underscore is directly followed by a
    letter or a digit. *)
Lemma spaceUnderscores_separates (n : nat) (s : string) :
  adjacent underscore_alnum (spaceUnderscores n s) = false.
Proof.
  revert n. induction s as [|c r IH]; intros n.
  - cbn [spaceUnderscores]. induction n as [|n IHn]; [reflexivity|].
    cbn [underscores]. rewrite adjacent_cons, IHn.
    now destruct n.
  - cbn [spaceUnderscores].
    destruct (Ascii.eqb c "_") eqn:Hc; [apply IH|].
    assert (Hgo : adjacent underscore_alnum
                    (String c (spaceUnderscores 0 r)) = false).
    { rewrite adjacent_cons, IH.
      destruct (spaceUnderscores 0 r); cbn [follows]; [reflexivity|].
      now rewrite underscore_alnum_not. }
    destruct n as [|n]; [exact Hgo|]. destruct (is_alnum c) eqn:Ha.
    + rewrite adjacent_cons, Hgo. reflexivity.
    + now rewrite adjacent_underscores_kept.
Qed.

Lemma plain_unchanged (s : string) :
  all_chars plain s = true ->
  spaceLowerUpper s = s /\ spaceUpperWord s = s /\
  spaceUnderscores 0 s = s.
Proof.
  intros H. split; [|split].
  - assert (G : (all_chars plain s = true -> spaceLowerUpper s = s) /\
                forall a, all_chars plain (String a s) = true ->
                          spaceLowerUpper (String a s) = String a s).
    { clear H. induction s as [|b r [IH1 IH2]]; [split; reflexivity|].
      split; [apply IH2|]. intros a Ha. rewrite spaceLowerUpper_cons.
      cbn [all_chars] in Ha. apply andb_true_iff in Ha.
      destruct Ha as [_ Ha]. pose proof Ha as Hb.
      apply andb_true_iff in Hb. destruct Hb as [Hb _].
      unfold plain in Hb. apply andb_true_iff in Hb.
      destruct Hb as [Hb _]. apply negb_true_iff in Hb.
      rewrite Hb, andb_false_r. f_equal. now apply IH2. }
    now apply G.
  - assert (G : (all_chars plain s = true -> spaceUpperWord s = s) /\
                (forall a, all_chars plain (String a s) = true ->
                           spaceUpperWord (String a s) = String a s) /\
                (forall a b,
                   all_chars plain (String a (String b s)) = true ->
                   spaceUpperWord (String a (String b s))
                   = String a (String b s))).
    { clear H. induction s as [|c r [IH1 [IH2 IH3]]]; [repeat split|].
      split; [apply IH2|]. split; [intros a; exact (IH3 a c)|].
      intros a b Ha. rewrite spaceUpperWord_cons.
      cbn [all_chars] in Ha. apply andb_true_iff in Ha.
      destruct Ha as [Hpa Ha]. unfold plain in Hpa.
      apply andb_true_iff in Hpa. destruct Hpa as [Hpa _].
      apply negb_true_iff in Hpa. rewrite Hpa. cbn [andb].
      f_equal. apply IH3. exact Ha. }
    now apply G.
  - induction s as [|c r IH]; [reflexivity|].
    cbn [all_chars] in H. apply andb_true_iff in H. destruct H as [Hc H].
    unfold plain in Hc. apply andb_true_iff in Hc. destruct Hc as [_ Hc].
    apply negb_true_iff in Hc. cbn [spaceUnderscores].
    rewrite Hc. f_equal. now apply IH.
Qed.

(** X17. [insertSpacesInName] adds spaces and removes underscores, and
    nothing else: without its spaces and underscores the result reads as
    the name does.  In the result no lower-case letter is directly
    followed by an upper-case one and no underscore by a letter or a
    digit.  A name without upper-case letter and without underscore
    comes back as it is; an argument that is not a string, like the
    empty string, gives the empty string. *)
Theorem insertSpacesInName_separates (A : Type) (text : Arg A) :
  match text with
  | AOther _ => insertSpacesInName text = ""
  | AString s =>
      let spaced := insertSpacesInName text in
      letters spaced = letters s /\
      adjacent lower_upper spaced = false /\
      adjacent underscore_alnum spaced = false /\
      (all_chars plain s = true -> spaced = s)
  end.
Proof.
  destruct text as [s|a]; [|reflexivity]. cbv zeta.
  unfold insertSpacesInName.
  destruct (String.eqb_spec s "") as [->|Hne]; [repeat split|].
  split; [|split; [|split]].
  - now rewrite letters_spaceUnderscores, letters_spaceUpperWord,
      letters_spaceLowerUpper.
  - apply spaceUnderscores_keeps, spaceUpperWord_keeps,
      spaceLowerUpper_separates.
  - apply spaceUnderscores_separates.
  - intros Hp. destruct (plain_unchanged s Hp) as [H1 [H2 H3]].
    now rewrite H1, H2, H3.
Qed.

(** *** [fixPathVariablesInUrl] *)

(** The braces already read and not yet written. *)
Lemma scanUrl_removeBraces (prev : option ascii)
    (group : option (option ascii * string)) (s : string) :
  removeBraces (scanUrl prev group s)
  = removeBraces (match group with
                  | Some (_, body) => body
                  | None => ""
                  end) ++ removeBraces s.
Proof.
  revert prev group. induction s as [|c r IH]; intros prev group.
  - destruct group as [[before body]|]; [|reflexivity].
    cbn [scanUrl]. rewrite removeBraces_app. cbn.
    now rewrite app_nil_r.
  - destruct group as [[before body]|]; cbn [scanUrl].
    + destruct (Ascii.eqb_spec c "}") as [->|Hc1].
      * destruct (String.eqb_spec body "") as [->|Hb].
        -- rewrite removeBraces_app. cbn. now rewrite IH.
        -- cbv zeta.
           destruct (match before with
                     | Some b =>
                         match charAt 1 r with
                         | Some a => Ascii.eqb b "{" && negb (Ascii.eqb a "}")
                         | None => Ascii.eqb b "{"
                         end
                     | None => false
                     end);
             rewrite !removeBraces_app, IH; cbn;
             rewrite ?removeBraces_app; cbn; now rewrite ?app_nil_r.
      * destruct (Ascii.eqb_spec c "{") as [->|Hc2].
        -- rewrite !removeBraces_app, IH. cbn. reflexivity.
        -- destruct (Ascii.eqb_spec c "/") as [->|Hc3].
           ++ rewrite !removeBraces_app. cbn. now rewrite IH.
           ++ rewrite IH, removeBraces_app. cbn [removeBraces].
              rewrite (proj2 (Ascii.eqb_neq _ _) Hc1).
              rewrite (proj2 (Ascii.eqb_neq _ _) Hc2). cbn [orb].
              now rewrite app_assoc.
    + destruct (Ascii.eqb_spec c "{") as [->|Hc].
      * rewrite IH. reflexivity.
      * cbn [removeBraces]. rewrite (proj2 (Ascii.eqb_neq _ _) Hc), IH.
        cbn [orb]. now destruct (Ascii.eqb c "}").
Qed.

Lemma scanUrl_plain (prev : option ascii) (s : string) :
  mentions "{" s = false -> scanUrl prev None s = s.
Proof.
  revert prev. induction s as [|c r IH]; intros prev H; [reflexivity|].
  cbn [mentions] in H. apply orb_false_iff in H. destruct H as [Hc H].
  cbn [scanUrl]. rewrite Hc. f_equal. now apply IH.
Qed.

(** X18. [fixPathVariablesInUrl] only adds braces: without its braces
    the result reads as the URL does.  A URL without opening brace comes
    back as it is, and an argument that is not a string gives the empty
    string. *)
Theorem fixPathVariablesInUrl_adds_braces (A : Type) (url : Arg A) :
  match url with
  | AOther _ => fixPathVariablesInUrl url = ""
  | AString s =>
      removeBraces (fixPathVariablesInUrl url) = removeBraces s /\
      (mentions "{" s = false -> fixPathVariablesInUrl url = s)
  end.
Proof.
  destruct url as [s|a]; [|reflexivity]. unfold fixPathVariablesInUrl.
  split; [apply scanUrl_removeBraces | apply scanUrl_plain].
Qed.

(** What comes in front of an opening brace only matters when it is an
    opening brace itself. *)
Lemma scanUrl_before (prev : option ascii) (before before' : option ascii)
    (body s : string) :
  before <> Some "{"%char -> before' <> Some "{"%char ->
  scanUrl prev (Some (before, body)) s
  = scanUrl prev (Some (before', body)) s.
Proof.
  intros Hb Hb'. revert prev body.
  induction s as [|c r IH]; intros prev body; [reflexivity|].
  cbn [scanUrl]. destruct (Ascii.eqb c "}").
  - destruct (String.eqb body ""); [reflexivity|]. cbv zeta.
    assert (Hk : forall bf : option ascii, bf <> Some "{"%char ->
               match bf with
               | Some b =>
                   match charAt 1 r with
                   | Some a => Ascii.eqb b "{" && negb (Ascii.eqb a "}")
                   | None => Ascii.eqb b "{"
                   end
               | None => false
               end = false).
    { intros [b|] Hbf; [|reflexivity].
      assert (Hne : Ascii.eqb b "{" = false).
      { apply Ascii.eqb_neq. intros ->. now apply Hbf. }
      rewrite Hne. now destruct (charAt 1 r). }
    now rewrite (Hk before Hb), (Hk before' Hb').
  - destruct (Ascii.eqb c "{"); [reflexivity|].
    destruct (Ascii.eqb c "/"); [reflexivity|]. apply IH.
Qed.

Lemma scanUrl_prev (prev prev' : option ascii) (s : string) :
  prev <> Some "{"%char -> prev' <> Some "{"%char ->
  scanUrl prev None s = scanUrl prev' None s.
Proof.
  intros Hp Hp'. destruct s as [|c r]; [reflexivity|]. cbn [scanUrl].
  destruct (Ascii.eqb c "{"); [|reflexivity].
  now apply scanUrl_before.
Qed.

(** Reading a stretch without opening brace, outside a candidate. *)
Lemma scanUrl_outside (prev : option ascii) (a rest : string) :
  mentions "{" a = false -> prev <> Some "{"%char ->
  exists prev', prev' <> Some "{"%char /\
    scanUrl prev None (a ++ rest) = a ++ scanUrl prev' None rest.
Proof.
  revert prev. induction a as [|c a IH]; intros prev Ha Hp.
  - exists prev. now split.
  - cbn [mentions] in Ha. apply orb_false_iff in Ha.
    destruct Ha as [Hc Ha].
    destruct (IH (Some c) Ha) as [prev' [Hp' He]].
    { intros [= ->]. discriminate. }
    exists prev'. split; [exact Hp'|].
    cbn [append scanUrl]. rewrite Hc. now rewrite He.
Qed.

(** Reading the body of a candidate. *)
Lemma scanUrl_inside (prev before : option ascii) (acc body rest : string) :
  all_chars is_body body = true ->
  exists prev',
    scanUrl prev (Some (before, acc)) (body ++ rest)
    = scanUrl prev' (Some (before, acc ++ body)) rest.
Proof.
  revert prev acc. induction body as [|c body IH]; intros prev acc Hb.
  - exists prev. now rewrite app_nil_r.
  - cbn [all_chars] in Hb. apply andb_true_iff in Hb.
    destruct Hb as [Hc Hb]. unfold is_body in Hc.
    apply negb_true_iff in Hc. apply orb_false_iff in Hc.
    destruct Hc as [Hc H3]. apply orb_false_iff in Hc.
    destruct Hc as [H1 H2].
    destruct (IH (Some c) (acc ++ String c "") Hb) as [prev' He].
    exists prev'. cbn [append scanUrl]. rewrite H3, H2, H1, He.
    now rewrite app_assoc.
Qed.

Lemma append_not_empty (a b : string) : b <> "" -> a ++ b <> "".
Proof. destruct a; [auto | discriminate]. Qed.

(** X19. [fixPathVariablesInUrl] on one variable.  After a stretch
    without opening brace, a variable in single braces is put in double
    braces, and the rest of the URL is treated as a URL of its own; a
    variable already in double braces is left as it is, provided the
    character behind it is not a closing brace. *)
Theorem fixPathVariablesInUrl_variable (A : Type) (a body b : string) :
  mentions "{" a = false -> all_chars is_body body = true -> body <> "" ->
  @fixPathVariablesInUrl A (AString (a ++ "{" ++ body ++ "}" ++ b))
  = a ++ "{{" ++ body ++ "}}" ++ @fixPathVariablesInUrl A (AString b) /\
  (charAt 0 b <> Some "}"%char ->
   @fixPathVariablesInUrl A (AString (a ++ "{{" ++ body ++ "}}" ++ b))
   = a ++ "{{" ++ body ++ "}}" ++ @fixPathVariablesInUrl A (AString b)).
Proof.
  intros Ha Hbody Hne. unfold fixPathVariablesInUrl.
  assert (Hnone : @None ascii <> Some "{"%char) by discriminate.
  assert (Hclose : Some "}"%char <> Some "{"%char) by discriminate.
  destruct (String.eqb_spec body "") as [|_]; [contradiction|].
  split.
  - destruct (scanUrl_outside None a ("{" ++ body ++ "}" ++ b) Ha Hnone)
      as [p [Hp ->]].
    f_equal. cbn [append scanUrl Ascii.eqb Bool.eqb].
    destruct (scanUrl_inside (Some "{"%char) p "" body (String "}" b)
                Hbody) as [q ->].
    cbn [append scanUrl Ascii.eqb Bool.eqb].
    destruct (String.eqb_spec body "") as [|_]; [contradiction|].
    cbv zeta.
    replace (match p with
             | Some b0 =>
                 match charAt 1 b with
                 | Some a0 => Ascii.eqb b0 "{" && negb (Ascii.eqb a0 "}")
                 | None => Ascii.eqb b0 "{"
                 end
             | None => false
             end) with false.
    + cbn [append]. rewrite !app_assoc. cbn [append].
      do 2 f_equal. f_equal. do 2 f_equal.
      now apply scanUrl_prev.
    + destruct p as [c|]; [|reflexivity].
      assert (Hc : Ascii.eqb c "{" = false).
      { apply Ascii.eqb_neq. intros ->. now apply Hp. }
      rewrite Hc. now destruct (charAt 1 b).
  - intros Hb0.
    destruct (scanUrl_outside None a ("{{" ++ body ++ "}}" ++ b) Ha Hnone)
      as [p [Hp ->]].
    f_equal. cbn [append scanUrl Ascii.eqb Bool.eqb String.eqb].
    destruct (scanUrl_inside (Some "{"%char) (Some "{"%char) "" body
                (String "}" (String "}" b)) Hbody) as [q ->].
    cbn [append scanUrl Ascii.eqb Bool.eqb].
    destruct (String.eqb_spec body "") as [|_]; [contradiction|].
    cbv zeta.
    replace (match charAt 1 (String "}" b) with
             | Some a0 => true && negb (Ascii.eqb a0 "}")
             | None => true
             end) with true.
    + rewrite ?app_assoc. cbn [append scanUrl Ascii.eqb Bool.eqb].
      do 2 f_equal. rewrite app_assoc. cbn [append]. do 3 f_equal.
      now apply scanUrl_prev.
    + unfold charAt in *. cbn [String.get]. symmetry.
      destruct b as [|c b]; [reflexivity|]. cbn [String.get] in *.
      cbn [andb]. apply negb_true_iff, Ascii.eqb_neq. intros ->.
      now apply Hb0.
Qed.

Lemma fixPathVariablesInUrl_variable_witness :
  @fixPathVariablesInUrl unit (AString "/pets/{petId}/toys/{toyId}")
  = "/pets/{{petId}}/toys/{{toyId}}" /\
  (charAt 0 "/toys/{toyId}" <> Some "}"%char ->
   @fixPathVariablesInUrl unit (AString "/pets/{{petId}}/toys/{toyId}")
   = "/pets/{{petId}}/toys/{{toyId}}").
Proof.
  apply (fixPathVariablesInUrl_variable unit "/pets/" "petId"
           "/toys/{toyId}").
  - reflexivity.
  - reflexivity.
  - discriminate.
Defined.

(** ** [convertSchemaToXML] *)

(** Case analysis on what a hypothesis still tests. *)
Ltac split_cases H :=
  repeat match type of H with
         | context [match ?x with _ => _ end] => destruct x eqn:?
         end.

Lemma eqb_example (resolveTo : string) :
  resolveTo <> "example" -> String.eqb resolveTo "example" = false.
Proof. apply String.eqb_neq. Qed.

(** Names the loop over the properties again after [cbn]. *)
Ltac fold_properties H loop :=
  match type of H with
  | context [match ?X with
             | Some _ => _
             | None => ThrowsTypeError
             end] => change X with loop in H
  end.

Section ConvertFacts.

Variable J : Type.
Variable js2xml : string -> J -> string -> string.
Variable indentChar : string.
Variable resolveTo : string.

(** What is returned for an element is empty or starts a new line. *)
Lemma convert_leading (schema : Schema J) :
  forall xml name indent r,
    convert js2xml indentChar resolveTo schema xml name false indent
    = Returns r ->
    r = "" \/ exists rest, r = String newline rest.
Proof.
  induction schema using Schema_mut
    with (P0 := fun _ => True)
         (P1 := fun items =>
                  match items with
                  | ItemsSchema s =>
                      forall xml name indent r,
                        convert js2xml indentChar resolveTo s xml name
                          false indent = Returns r ->
                        r = "" \/ exists rest, r = String newline rest
                  | NoItems => True
                  end); auto.
  intros xml0 name indent r H. cbn in H.
  split_cases H; try discriminate; try (injection H as <-); eauto;
    match goal with
    | Hc : convert _ _ _ _ _ _ _ _ = Returns ?v |- _ =>
        destruct (IHschema0 _ _ _ _ Hc) as [->|[rest ->]];
          [left; reflexivity | right; eexists; reflexivity]
    end.
Qed.

(** Away from the examples, it starts with its own indentation and an
    opening tag. *)
Lemma convert_first_line (schema : Schema J) :
  resolveTo <> "example" ->
  forall xml name indent r,
    convert js2xml indentChar resolveTo schema xml name false indent
    = Returns r ->
    r = "" \/
    exists rest, r = String newline (times indent indentChar ++ "<" ++ rest).
Proof.
  intros Hr. apply eqb_example in Hr.
  induction schema using Schema_mut
    with (P0 := fun _ => True)
         (P1 := fun items =>
                  match items with
                  | ItemsSchema s =>
                      forall xml name indent r,
                        convert js2xml indentChar resolveTo s xml name
                          false indent = Returns r ->
                        r = "" \/
                        exists rest,
                          r = String newline
                                (times indent indentChar ++ "<" ++ rest)
                  | NoItems => True
                  end); auto.
  intros xml0 name indent r H. cbn in H. rewrite Hr in H.
  split_cases H; try discriminate; try (injection H as <-);
    try (left; reflexivity);
    try (right; cbn [append]; rewrite ?app_assoc; cbn [append];
         eexists; reflexivity);
    match goal with
    | Hc : convert _ _ _ _ _ _ _ _ = Returns ?v |- _ =>
        rewrite Nat.add_0_r in Hc;
        destruct (IHschema0 _ _ _ _ Hc) as [->|[rest ->]];
          [left; reflexivity
          | right; cbn [append]; rewrite ?app_assoc; cbn [append];
            eexists; reflexivity]
    end.
Qed.

Lemma convertProperties_cons (key : string) (value : Schema J)
    (rest : Properties J) (indent : nat) :
  convertProperties js2xml indentChar resolveTo (Property key value rest)
    indent
  = match convert js2xml indentChar resolveTo value (schema_xml value) key
            (get_xml_attribute (schema_xml value)) (indent + 1) with
    | ThrowsTypeError => None
    | Returns propVal =>
        match convertProperties js2xml indentChar resolveTo rest indent with
        | None => None
        | Some (attributes, childNodes) =>
            if get_xml_attribute (schema_xml value)
            then Some ((key ++ "=" ++ quote ++ propVal ++ quote)
                         :: attributes, childNodes)
            else Some (attributes, propVal ++ childNodes)
        end
    end.
Proof. reflexivity. Qed.

(** A schema whose arrays all have their items is converted. *)
Lemma convert_returns (schema : Schema J) :
  arrays_have_items schema = true ->
  forall xml name attribute indent,
    convert js2xml indentChar resolveTo schema xml name attribute indent
    <> ThrowsTypeError.
Proof.
  induction schema using Schema_mut
    with (P0 := fun properties =>
                  properties_have_items properties = true ->
                  forall indent,
                    convertProperties js2xml indentChar resolveTo
                      properties indent <> None)
         (P1 := fun items =>
                  match items with
                  | ItemsSchema s =>
                      arrays_have_items s = true ->
                      forall xml name attribute indent,
                        convert js2xml indentChar resolveTo s xml name
                          attribute indent <> ThrowsTypeError
                  | NoItems => True
                  end); auto.
  - intros Hok xml0 name attribute indent H.
    match goal with ty : option string |- _ => rename ty into otype end.
    cbn [arrays_have_items] in Hok.
    apply andb_true_iff in Hok. destruct Hok as [Hok Hi].
    apply andb_true_iff in Hok. destruct Hok as [Ht Hp].
    specialize (IHschema Hp indent).
    cbn in H.
    fold_properties H (convertProperties js2xml indentChar resolveTo
                         properties indent).
    split_cases H; try discriminate; subst;
      first [ contradiction
            | destruct otype as [t|];
              [destruct (String.eqb t "array")|]; discriminate
            | eapply IHschema0; eauto ].
  - intros _ indent. discriminate.
  - intros Hok indent. cbn [properties_have_items] in Hok.
    apply andb_true_iff in Hok. destruct Hok as [Hv Hr].
    rewrite convertProperties_cons.
    destruct (convert js2xml indentChar resolveTo schema (schema_xml schema)
                key (get_xml_attribute (schema_xml schema)) (indent + 1))
      eqn:Hc; [|now apply IHschema in Hc].
    destruct (convertProperties js2xml indentChar resolveTo rest indent)
      as [[attrs kids]|] eqn:Hc'; [|now apply IHschema0 in Hc'].
    now destruct (get_xml_attribute (schema_xml schema)).
Qed.

End ConvertFacts.

Section ConvertThrows.

Variable J : Type.
Variable js2xml : string -> J -> string -> string.
Variable indentChar : string.
Variable resolveTo : string.

Lemma convert_throws_meets (schema : Schema J) :
  forall xml name attribute indent,
    convert js2xml indentChar resolveTo schema xml name attribute indent
    = ThrowsTypeError ->
    meets_array_without_items resolveTo schema = true.
Proof.
  induction schema using Schema_mut
    with (P0 := fun properties =>
                  forall indent,
                    convertProperties js2xml indentChar resolveTo
                      properties indent = None ->
                    property_meets_array_without_items resolveTo properties
                    = true)
         (P1 := fun items =>
                  match items with
                  | ItemsSchema s =>
                      forall xml name attribute indent,
                        convert js2xml indentChar resolveTo s xml name
                          attribute indent = ThrowsTypeError ->
                        meets_array_without_items resolveTo s = true
                  | NoItems => True
                  end); auto.
  - intros xml0 name attribute indent H.
    match goal with ty : option string |- _ => rename ty into otype end.
    destruct otype as [t|]; [|discriminate].
    cbn [meets_array_without_items].
    destruct (String.eqb_spec t "object") as [->|Ho];
      [|destruct (String.eqb_spec t "array") as [->|Ha]].
    + cbn in H.
      fold_properties H (convertProperties js2xml indentChar resolveTo
                           properties indent).
      unfold example_used.
      split_cases H; try discriminate; cbn; eauto.
    + cbn in H. unfold example_used.
      split_cases H; try discriminate; cbn; eauto.
    + apply String.eqb_neq in Ho, Ha. cbn in H. rewrite Ho, Ha in H.
      split_cases H; discriminate.
  - discriminate.
  - intros indent H. rewrite convertProperties_cons in H.
    cbn [property_meets_array_without_items]. apply orb_true_iff.
    split_cases H; try discriminate; eauto.
Qed.

Lemma convert_returns_meets (schema : Schema J) :
  forall xml name attribute indent r,
    convert js2xml indentChar resolveTo schema xml name attribute indent
    = Returns r ->
    meets_array_without_items resolveTo schema = false.
Proof.
  induction schema using Schema_mut
    with (P0 := fun properties =>
                  forall indent p,
                    convertProperties js2xml indentChar resolveTo
                      properties indent = Some p ->
                    property_meets_array_without_items resolveTo properties
                    = false)
         (P1 := fun items =>
                  match items with
                  | ItemsSchema s =>
                      forall xml name attribute indent r,
                        convert js2xml indentChar resolveTo s xml name
                          attribute indent = Returns r ->
                        meets_array_without_items resolveTo s = false
                  | NoItems => True
                  end); auto.
  - intros xml0 name attribute indent r H.
    match goal with ty : option string |- _ => rename ty into otype end.
    destruct otype as [t|]; [|reflexivity].
    cbn [meets_array_without_items].
    destruct (String.eqb_spec t "object") as [->|Ho];
      [|destruct (String.eqb_spec t "array") as [->|Ha]].
    + cbn in H.
      fold_properties H (convertProperties js2xml indentChar resolveTo
                           properties indent).
      unfold example_used.
      split_cases H; try discriminate; cbn; eauto.
    + cbn in H. unfold example_used.
      split_cases H; try discriminate; cbn; eauto.
    + reflexivity.
  - intros indent p H. rewrite convertProperties_cons in H.
    cbn [property_meets_array_without_items]. apply orb_false_iff.
    split_cases H; try discriminate; eauto.
Qed.

End ConvertThrows.

Section ConvertExamples.

Variable J : Type.
Variables js2xml js2xml' : string -> J -> string -> string.
Variable indentChar : string.
Variables resolveTo resolveTo' : string.
Hypothesis Hr : resolveTo <> "example".

Lemma schema_xml_without_examples (schema : Schema J) :
  schema_xml (without_examples schema) = schema_xml schema.
Proof. now destruct schema. Qed.

Lemma convert_without_examples (schema : Schema J) :
  forall xml name attribute indent,
    convert js2xml indentChar resolveTo schema xml name attribute indent
    = convert js2xml' indentChar resolveTo' (without_examples schema) xml
        name attribute indent.
Proof.
  apply eqb_example in Hr.
  induction schema using Schema_mut
    with (P0 := fun properties =>
                  forall indent,
                    convertProperties js2xml indentChar resolveTo
                      properties indent
                    = convertProperties js2xml' indentChar resolveTo'
                        (properties_without_examples properties) indent)
         (P1 := fun items =>
                  match items with
                  | ItemsSchema s =>
                      forall xml name attribute indent,
                        convert js2xml indentChar resolveTo s xml name
                          attribute indent
                        = convert js2xml' indentChar resolveTo'
                            (without_examples s) xml name attribute indent
                  | NoItems => True
                  end); auto.
  - intros xml0 name attribute indent.
    cbn.
    repeat match goal with
           | |- context [match ?X with
                         | Some _ => _
                         | None => ThrowsTypeError
                         end] =>
               lazymatch X with
               | convertProperties _ _ _ _ _ => fail
               | ?f ?p indent =>
                   first [ change X with
                             (convertProperties js2xml indentChar resolveTo
                                p indent)
                         | change X with
                             (convertProperties js2xml' indentChar
                                resolveTo' p indent) ]
               end
           end.
    rewrite ?Hr, <- ?IHschema.
    destruct items as [|s]; cbn; rewrite ?schema_xml_without_examples;
      try rewrite <- IHschema0;
      destruct example, (resolveTo' =? "example"); reflexivity.
  - intros indent. cbn [properties_without_examples].
    rewrite !convertProperties_cons, schema_xml_without_examples.
    now rewrite <- IHschema, <- IHschema0.
Qed.

End ConvertExamples.

(** X20. The module's function gives what [convertSchemaToXML] returns
    at indentation 0 without its first character, and that character is
    the line feed in front of the first line: put behind a line feed, the
    result is what [convertSchemaToXML] returned, unless that was
    empty. *)
Theorem convertSchemaToXML_exported_trims (J : Type)
    (js2xml : string -> J -> string -> string)
    (indentChar resolveTo name : string) (schema : option (Schema J))
    (out : string) :
  convertSchemaToXML_exported js2xml indentChar resolveTo name schema
  = Returns out ->
  convertSchemaToXML js2xml indentChar resolveTo name schema false 0
  = Returns (String newline out)
  \/ (out = "" /\
      convertSchemaToXML js2xml indentChar resolveTo name schema false 0
      = Returns "").
Proof.
  unfold convertSchemaToXML_exported. intros H.
  destruct (convertSchemaToXML js2xml indentChar resolveTo name schema
              false 0) as [xml|] eqn:Hc; [|discriminate].
  injection H as <-.
  destruct schema as [s|]; cbn in Hc.
  - destruct (convert_leading J js2xml indentChar resolveTo s _ _ _ _ Hc)
      as [->|[rest ->]]; [right|left]; auto.
  - injection Hc as <-. right. auto.
Qed.

Lemma convertSchemaToXML_exported_trims_witness :
  convertSchemaToXML (fun _ (_ : unit) _ => "") "  " "schema" "id"
    (Some (mkSchema (Some "integer") NoExample None NoProperties NoItems))
    false 0
  = Returns (String newline "<id>(integer)</id>")
  \/ ("<id>(integer)</id>" = "" /\
      convertSchemaToXML (fun _ (_ : unit) _ => "") "  " "schema" "id"
        (Some (mkSchema (Some "integer") NoExample None NoProperties
                 NoItems)) false 0
      = Returns "").
Proof.
  apply (convertSchemaToXML_exported_trims unit (fun _ _ _ => "") "  "
           "schema" "id"
           (Some (mkSchema (Some "integer") NoExample None NoProperties
                    NoItems))).
  reflexivity.
Defined.

(** X21. When [resolveTo] is not ['example'], what [convertSchemaToXML]
    returns for an element (not an attribute) is empty, or starts with a
    line feed, [indent] times [indentChar] and the [<] of an opening
    tag. *)
Theorem convertSchemaToXML_first_line (J : Type)
    (js2xml : string -> J -> string -> string)
    (indentChar resolveTo name : string) (schema : option (Schema J))
    (indent : nat) (xml : string) :
  resolveTo <> "example" ->
  convertSchemaToXML js2xml indentChar resolveTo name schema false indent
  = Returns xml ->
  xml = "" \/
  exists rest,
    xml = String newline (times indent indentChar ++ "<" ++ rest).
Proof.
  intros Hr H. destruct schema as [s|]; cbn in H.
  - exact (convert_first_line J js2xml indentChar resolveTo s Hr _ _ _ _ H).
  - injection H as <-. now left.
Qed.

Lemma convertSchemaToXML_first_line_witness :
  "schema" <> "example" /\
  (String newline "    <id>(integer)</id>" = "" \/
   exists rest,
     String newline "    <id>(integer)</id>"
     = String newline (times 2 "  " ++ "<" ++ rest)).
Proof.
  split; [discriminate|].
  apply (convertSchemaToXML_first_line unit (fun _ _ _ => "") "  "
           "schema" "id"
           (Some (mkSchema (Some "integer") NoExample None NoProperties
                    NoItems)) 2).
  - discriminate.
  - reflexivity.
Defined.

(** X22. [convertSchemaToXML] on a schema object throws the [TypeError]
    exactly when the conversion comes to an array schema without
    [items]: the schema is one (whatever its example and [resolveTo]), or
    an object or array whose example is not used holds one in a property
    or in its items.  The module's function throws in the same cases. *)
Theorem convertSchemaToXML_throws_iff (J : Type)
    (js2xml : string -> J -> string -> string)
    (indentChar resolveTo name : string) (schema : Schema J)
    (attribute : bool) (indent : nat) :
  (convertSchemaToXML js2xml indentChar resolveTo name (Some schema)
     attribute indent = ThrowsTypeError
   <-> meets_array_without_items resolveTo schema = true) /\
  (convertSchemaToXML_exported js2xml indentChar resolveTo name
     (Some schema) = ThrowsTypeError
   <-> meets_array_without_items resolveTo schema = true).
Proof.
  assert (Hiff : forall attribute indent,
             convert js2xml indentChar resolveTo schema (schema_xml schema)
               name attribute indent = ThrowsTypeError
             <-> meets_array_without_items resolveTo schema = true).
  { intros a i. split.
    - apply convert_throws_meets.
    - intros Hm.
      destruct (convert js2xml indentChar resolveTo schema
                  (schema_xml schema) name a i) as [r|] eqn:Hc; auto.
      apply convert_returns_meets in Hc. congruence. }
  split; [apply Hiff|].
  unfold convertSchemaToXML_exported, convertSchemaToXML.
  rewrite <- (Hiff false 0).
  destruct (convert js2xml indentChar resolveTo schema (schema_xml schema)
              name false 0); split; auto; discriminate.
Qed.

(** X23. A schema in which every array schema has its [items] is
    converted, whatever [resolveTo] and the examples are: the module's
    function returns a string. *)
Theorem convertSchemaToXML_exported_returns (J : Type)
    (js2xml : string -> J -> string -> string)
    (indentChar resolveTo name : string) (schema : Schema J) :
  arrays_have_items schema = true ->
  exists out,
    convertSchemaToXML_exported js2xml indentChar resolveTo name
      (Some schema) = Returns out.
Proof.
  intros Hok. unfold convertSchemaToXML_exported, convertSchemaToXML.
  destruct (convert js2xml indentChar resolveTo schema (schema_xml schema)
              name false 0) as [xml|] eqn:Hc; eauto.
  now apply convert_returns in Hc.
Qed.

Lemma convertSchemaToXML_exported_returns_witness :
  exists out,
    convertSchemaToXML_exported (fun _ (_ : unit) _ => "") "  " "example"
      "ids"
      (Some (mkSchema (Some "array") (ExampleOther "7") None NoProperties
               (ItemsSchema (mkSchema (Some "integer") NoExample None
                               NoProperties NoItems))))
    = Returns out.
Proof.
  apply (convertSchemaToXML_exported_returns unit (fun _ _ _ => "") "  "
           "example" "ids").
  reflexivity.
Defined.

(** X24. When [resolveTo] is not ['example'], no example is read and
    [js2xml] is not called: [convertSchemaToXML] gives what it gives on
    the schema without its examples, with any [js2xml] and any
    [resolveTo]. *)
Theorem convertSchemaToXML_ignores_examples (J : Type)
    (js2xml js2xml' : string -> J -> string -> string)
    (indentChar resolveTo resolveTo' name : string)
    (schema : option (Schema J)) (attribute : bool) (indent : nat) :
  resolveTo <> "example" ->
  convertSchemaToXML js2xml indentChar resolveTo name schema attribute
    indent
  = convertSchemaToXML js2xml' indentChar resolveTo' name
      (option_map without_examples schema) attribute indent.
Proof.
  intros Hr. destruct schema as [s|]; [|reflexivity].
  cbn [option_map convertSchemaToXML].
  rewrite schema_xml_without_examples.
  now apply convert_without_examples.
Qed.

Lemma convertSchemaToXML_ignores_examples_witness :
  "schema" <> "example" /\
  convertSchemaToXML (fun _ (_ : unit) _ => "<a/>") "  " "schema" "pet"
    (Some (mkSchema (Some "object") (ExampleObject tt "[object Object]")
             None
             (Property "name"
                (mkSchema (Some "string") (ExampleString "Rex") None
                   NoProperties NoItems) NoProperties) NoItems))
    false 0
  = convertSchemaToXML (fun _ (_ : unit) _ => "<b/>") "  " "example" "pet"
      (option_map without_examples
         (Some (mkSchema (Some "object")
                  (ExampleObject tt "[object Object]") None
                  (Property "name"
                     (mkSchema (Some "string") (ExampleString "Rex") None
                        NoProperties NoItems) NoProperties) NoItems)))
      false 0.
Proof.
  split; [discriminate|].
  apply (convertSchemaToXML_ignores_examples unit (fun _ _ _ => "<a/>")
           (fun _ _ _ => "<b/>") "  " "schema" "example" "pet").
  discriminate.
Defined.

(** ** The variables of a path *)

Lemma span_body_split (s : string) :
  s = fst (span_body s) ++ snd (span_body s) /\
  all_chars is_body (fst (span_body s)) = true.
Proof.
  induction s as [|c r [IH1 IH2]]; [now split|]. cbn [span_body].
  destruct (is_body c) eqn:Hc; [|now split].
  destruct (span_body r) as [n t]. cbn [fst snd] in *. split.
  - cbn [append]. now rewrite <- IH1.
  - cbn [all_chars]. now rewrite Hc, IH2.
Qed.

Lemma span_body_app (s rest : string) :
  slash_or_end rest = true ->
  span_body (s ++ rest)
  = (fst (span_body s), snd (span_body s) ++ rest).
Proof.
  intros Hrest. induction s as [|c r IH]; cbn [append span_body].
  - destruct rest as [|a rest]; [reflexivity|]. cbn in Hrest.
    apply Ascii.eqb_eq in Hrest. subst a. reflexivity.
  - destruct (is_body c); [|reflexivity]. rewrite IH.
    now destruct (span_body r).
Qed.

Lemma after_app (p t rest : string) :
  mentions "/" p = false -> slash_or_end rest = true ->
  after p (t ++ rest) = option_map (fun x => x ++ rest) (after p t).
Proof.
  intros Hp Hrest. revert t.
  induction p as [|a p IH]; intros t; [reflexivity|].
  cbn [mentions] in Hp. apply orb_false_iff in Hp. destruct Hp as [Ha Hp].
  destruct t as [|c t]; cbn [append after option_map].
  - destruct rest as [|b rest]; [reflexivity|]. cbn in Hrest.
    apply Ascii.eqb_eq in Hrest. subst b.
    rewrite Ascii.eqb_sym, Ha. reflexivity.
  - destruct (Ascii.eqb c a); [now apply IH | reflexivity].
Qed.

Lemma after_shape (p s r : string) : after p s = Some r -> s = p ++ r.
Proof.
  revert s. induction p as [|a p IH]; intros s H; cbn in H.
  - now injection H as <-.
  - destruct s as [|c s]; [discriminate|].
    destruct (Ascii.eqb_spec c a) as [->|]; [|discriminate].
    cbn [append]. now rewrite (IH s H).
Qed.

Lemma match_all_skip (at_start : string -> option string) (x y : string) :
  match_all at_start (String.length x) (x ++ y) = match_all at_start 0 y.
Proof. induction x as [|c x IH]; [reflexivity | exact IH]. Qed.

Lemma match_all_found (at_start : string -> option string) (c : ascii)
    (r m : string) :
  at_start (String c r) = Some m ->
  match_all at_start 0 (String c r)
  = m :: match_all at_start (String.length m - 1) r.
Proof. intros H. cbn [match_all]. now rewrite H. Qed.

Lemma match_all_head (at_start : string -> option string) (first : ascii)
    (a rest : string) :
  (forall c r, Ascii.eqb c first = false -> at_start (String c r) = None) ->
  mentions first a = false ->
  match_all at_start 0 (a ++ rest) = match_all at_start 0 rest.
Proof.
  intros Hat. induction a as [|c a IH]; intros Ha; [reflexivity|].
  cbn [mentions] in Ha. apply orb_false_iff in Ha. destruct Ha as [Hc Ha].
  cbn [append match_all]. rewrite (Hat c _ Hc). auto.
Qed.

Lemma variable_at_first (first : ascii) (opening closing : string)
    (lookahead : string -> bool) (c : ascii) (r : string) :
  Ascii.eqb c first = false ->
  variable_at (String first opening) closing lookahead (String c r) = None.
Proof. intros Hc. unfold variable_at. cbn [after]. now rewrite Hc. Qed.

Lemma slice_0_m1_app (a : string) (c : ascii) :
  slice_0_m1 (a ++ String c "") = a.
Proof.
  induction a as [|x a IH]; [reflexivity|].
  cbn [append slice_0_m1]. rewrite IH.
  now destruct a.
Qed.

(** The text behind the slashes of [l], each segment behind its own. *)
Lemma concat_segments (seg : string) (l : list string) :
  String.concat "/" (seg :: l)
  = seg ++ fold_right (fun s acc => String "/" (s ++ acc)) "" l.
Proof.
  revert seg. induction l as [|s l IH]; intros seg.
  - cbn. now rewrite app_nil_r.
  - change (String.concat "/" (seg :: s :: l))
      with (seg ++ String "/" (String.concat "/" (s :: l))).
    now rewrite IH.
Qed.

Section Segments.

Variables opening closing : string.
Variables lookahead tail_ok : string -> bool.
Hypothesis opening_slashfree : mentions "/" opening = false.
Hypothesis closing_slashfree : mentions "/" closing = false.
Hypothesis lookahead_tail : forall tail rest,
  mentions "/" tail = false -> slash_or_end rest = true ->
  lookahead (tail ++ rest) = tail_ok tail.

Lemma match_all_segment (seg rest : string) :
  mentions "/" seg = false -> slash_or_end rest = true ->
  match_all (variable_at (String "/" opening) closing lookahead) 0
    (String "/" (seg ++ rest))
  = match enclosed_name opening closing tail_ok seg with
    | Some name =>
        (String "/" opening ++ name ++ closing)
          :: match_all (variable_at (String "/" opening) closing lookahead)
               0 rest
    | None =>
        match_all (variable_at (String "/" opening) closing lookahead) 0
          rest
    end.
Proof.
  intros Hseg Hrest.
  assert (Hhead : forall a,
             mentions "/" a = false ->
             match_all (variable_at (String "/" opening) closing lookahead)
               0 (a ++ rest)
             = match_all (variable_at (String "/" opening) closing
                            lookahead) 0 rest).
  { intros a. apply match_all_head. intros c r.
    apply variable_at_first. }
  cbn [match_all]. unfold variable_at at 1, enclosed_name.
  cbn [after]. rewrite Ascii.eqb_refl.
  rewrite (after_app opening seg rest opening_slashfree Hrest).
  destruct (after opening seg) as [r|] eqn:Hr; cbn [option_map]; [|auto].
  apply after_shape in Hr. subst seg.
  pose proof Hseg as Hr. rewrite mentions_app in Hr.
  apply orb_false_iff in Hr. destruct Hr as [_ Hr].
  rewrite (span_body_app r rest Hrest).
  destruct (span_body_split r) as [Heq _].
  destruct (span_body r) as [name t]. cbn [fst snd] in *.
  assert (Ht : mentions "/" t = false).
  { rewrite Heq, mentions_app in Hr. now apply orb_false_iff in Hr. }
  destruct name as [|c name]; [auto|].
  rewrite (after_app closing t rest closing_slashfree Hrest).
  destruct (after closing t) as [tail|] eqn:Htail; cbn [option_map];
    [|auto].
  apply after_shape in Htail. subst t.
  rewrite mentions_app in Ht. apply orb_false_iff in Ht.
  destruct Ht as [_ Ht].
  rewrite (lookahead_tail tail rest Ht Hrest).
  destruct (tail_ok tail); [|auto].
  f_equal. subst r.
  set (m := String "/" opening ++ String c name ++ closing).
  replace ((opening ++ String c name ++ closing ++ tail) ++ rest)
    with ((opening ++ String c name ++ closing) ++ tail ++ rest)
    by now rewrite !app_assoc.
  replace (String.length m - 1)
    with (String.length (opening ++ String c name ++ closing))
    by (subst m; cbn [append String.length]; lia).
  rewrite match_all_skip. now apply Hhead.
Qed.

Lemma match_all_segments (l : list string) :
  Forall (fun seg => mentions "/" seg = false) l ->
  match_all (variable_at (String "/" opening) closing lookahead) 0
    (fold_right (fun s acc => String "/" (s ++ acc)) "" l)
  = map (fun name => String "/" opening ++ name ++ closing)
      (filter_map (enclosed_name opening closing tail_ok) l).
Proof.
  induction l as [|seg l IH]; intros Hl; [reflexivity|].
  inversion Hl as [|? ? Hseg Hl']; subst.
  cbn [fold_right filter_map]. rewrite match_all_segment; auto.
  - rewrite (IH Hl').
    now destruct (enclosed_name opening closing tail_ok seg).
  - now destruct l.
Qed.

Lemma match_all_path (path : string) :
  match_all (variable_at (String "/" opening) closing lookahead) 0 path
  = map (fun name => String "/" opening ++ name ++ closing)
      (filter_map (enclosed_name opening closing tail_ok)
         (tl (split "/" path))).
Proof.
  pose proof (concat_split "/" path) as Hpath.
  pose proof (split_pieces_free "/" path) as Hfree.
  destruct (split "/" path) as [|seg l]; [now subst path|].
  inversion Hfree as [|? ? Hseg Hl]; subst x l0.
  rewrite concat_segments in Hpath. rewrite <- Hpath at 1.
  rewrite (match_all_head _ "/"); auto.
  - now apply match_all_segments.
  - intros c r. apply variable_at_first.
Qed.

End Segments.

Lemma span_body_name (name rest : string) :
  all_chars is_body name = true ->
  span_body (name ++ String "}" rest) = (name, String "}" rest).
Proof.
  induction name as [|c name IH]; intros H; [reflexivity|].
  cbn [all_chars] in H. apply andb_true_iff in H. destruct H as [Hc H].
  cbn [append span_body]. now rewrite Hc, (IH H).
Qed.

Lemma after_prefix (p r : string) : after p (p ++ r) = Some r.
Proof.
  induction p as [|a p IH]; [reflexivity|].
  cbn [append after]. now rewrite Ascii.eqb_refl.
Qed.

(** A name in [opening] and a closing that starts with a brace is the
    enclosed name of its segment, when the tail is accepted. *)
Lemma enclosed_name_enclosed (opening closing : string)
    (tail_ok : string -> bool) (name tail : string) :
  all_chars is_body name = true -> name <> "" ->
  enclosed_name opening (String "}" closing) tail_ok
    (opening ++ name ++ String "}" closing ++ tail)
  = if tail_ok tail then Some name else None.
Proof.
  intros Hname Hne. unfold enclosed_name.
  rewrite after_prefix.
  change (name ++ String "}" closing ++ tail)
    with (name ++ String "}" (closing ++ tail)).
  rewrite (span_body_name _ _ Hname).
  destruct name as [|c name]; [congruence|].
  change (String "}" (closing ++ tail))
    with (String "}" closing ++ tail).
  now rewrite after_prefix.
Qed.

Lemma matches_or_null (l : list string) : matches (or_null l) = l.
Proof. now destruct l. Qed.

(** X25. [findPathVariablesFromSchemaPath] reads a path segment by
    segment: it gives, in their order, the names of the segments behind a
    slash that are a name in braces, the name having one character or
    more and no brace, with nothing behind the closing brace, or a
    character of code 0.  What stands before the first slash is not
    looked at. *)
Theorem findPathVariablesFromSchemaPath_segments (path : string) :
  findPathVariablesFromSchemaPath path
  = filter_map (enclosed_name "{" "}" nul_or_end) (tl (split "/" path)).
Proof.
  unfold findPathVariablesFromSchemaPath.
  rewrite (match_all_path "{" "}" slash_nul_or_end nul_or_end);
    try reflexivity.
  - rewrite map_map. rewrite <- (map_id (filter_map _ _)) at 2.
    apply map_ext. intros name. unfold slice_2_m1.
    cbn [append substring_1]. apply slice_0_m1_app.
  - intros [|c tail] rest Htail Hrest.
    + destruct rest as [|c rest]; [reflexivity|]. cbn in *.
      now rewrite Hrest.
    + cbn [mentions] in Htail. apply orb_false_iff in Htail.
      destruct Htail as [Hc _]. cbn. now rewrite Hc.
Qed.

(** X26. [findPathVariablesFromPath] gives, with the slash in front of
    them and in their order, the segments behind a slash that are exactly
    a name in double braces, the name having one character or more and no
    brace; it gives [null] when there is none. *)
Theorem findPathVariablesFromPath_segments (path : string) :
  findPathVariablesFromPath path
  = or_null
      (map (fun name => "/{{" ++ name ++ "}}")
         (filter_map (enclosed_name "{{" "}}" is_end)
            (tl (split "/" path)))).
Proof.
  unfold findPathVariablesFromPath. f_equal.
  apply (match_all_path "{{" "}}" slash_or_end is_end); try reflexivity.
  intros [|c tail] rest Htail Hrest; [exact Hrest|].
  cbn [mentions] in Htail. apply orb_false_iff in Htail.
  destruct Htail as [Hc _]. cbn. exact Hc.
Qed.

(** X27. [findCollectionVariablesFromPath] on one variable: a name in
    double braces behind a stretch without opening brace is the first
    match, and the others are those of the rest of the path.  A path
    without opening brace gives [null]. *)
Theorem findCollectionVariablesFromPath_variable (a name b : string) :
  mentions "{" a = false -> all_chars is_body name = true -> name <> "" ->
  findCollectionVariablesFromPath (a ++ "{{" ++ name ++ "}}" ++ b)
  = Some (("{{" ++ name ++ "}}")
            :: matches (findCollectionVariablesFromPath b)) /\
  findCollectionVariablesFromPath a = None.
Proof.
  intros Ha Hname Hne. unfold findCollectionVariablesFromPath.
  assert (Hhead : forall rest,
             match_all (variable_at "{{" "}}" anything) 0 (a ++ rest)
             = match_all (variable_at "{{" "}}" anything) 0 rest).
  { intros rest. apply (match_all_head _ "{"); [|exact Ha].
    intros c r. apply variable_at_first. }
  split.
  - rewrite Hhead, matches_or_null.
    assert (Hat : variable_at "{{" "}}" anything
                    (String "{" ("{" ++ name ++ "}}" ++ b))
                  = Some ("{{" ++ name ++ "}}")).
    { unfold variable_at.
      change (String "{" ("{" ++ name ++ "}}" ++ b))
        with ("{{" ++ name ++ String "}" (String "}" b)).
      rewrite after_prefix, (span_body_name _ _ Hname).
      destruct name as [|c name]; [congruence|].
      change (String "}" (String "}" b)) with ("}}" ++ b).
      now rewrite after_prefix. }
    change ("{{" ++ name ++ "}}" ++ b)
      with (String "{" ("{" ++ name ++ "}}" ++ b)).
    rewrite (match_all_found _ _ _ _ Hat).
    cbn [or_null]. do 2 f_equal.
    replace ("{" ++ name ++ "}}" ++ b) with (("{" ++ name ++ "}}") ++ b)
      by (cbn [append]; now rewrite !app_assoc).
    replace (String.length ("{{" ++ name ++ "}}") - 1)
      with (String.length ("{" ++ name ++ "}}"))
      by (cbn [append String.length]; lia).
    apply match_all_skip.
  - specialize (Hhead ""). rewrite app_nil_r in Hhead. now rewrite Hhead.
Qed.

Lemma findCollectionVariablesFromPath_variable_witness :
  findCollectionVariablesFromPath "/pets/{{petId}}.{{format}}"
  = Some ["{{petId}}"; "{{format}}"] /\
  findCollectionVariablesFromPath "/pets/" = None.
Proof.
  apply (findCollectionVariablesFromPath_variable "/pets/" "petId"
           ".{{format}}").
  - reflexivity.
  - reflexivity.
  - discriminate.
Defined.
